(** * Counter reveal engine of the university landing page

    A shallow embedding of the scroll-driven counter code:

    - [Helpers.isInViewport]            (js/core/config.js, class Helpers)
    - [Counters.init], [setupObserver], [checkCounters], [animateCounter],
      [animateAll], [reset]             (js/modules/counters.js)
    - [EventManager.onWindowLoad]       (js/core/events.js)
    - [Animations.handleScrollAnimations] (js/modules/navbar.js), the callback
      that the load handler schedules.

    Conventions of the embedding.

    - DOM nodes are objects with identity: a node is a key ([nat]) into the
      store [elements] of the page, and every function that mutates a node
      mutates the store.
    - A JavaScript Number is a double. The embedding keeps the value of a
      finite double as a rational ([Q]) and rounds the result of every
      arithmetic operation with [rnd], of which it knows the laws of class
      [Rounding] and no more; arithmetic without rounding is one instance.
      The numbers that the code converts to text are integers ([Z]) and are
      printed in decimal.
    - A string is a [string] of 8-bit code units.
    - [setTimeout] appends a callback to the list [timers] of the page; the
      environment chooses which pending callback runs next.
    - The page keeps a [trace]: the calls the code makes on the observer and
      the writes it makes to [textContent], in program order. *)

From Stdlib Require Import ZArith QArith Qround Lqa String Ascii List Sorted Lia DecimalString DecimalPos.
From stdpp Require Import gmap strings list.

Local Open Scope Z_scope.

(** ** Numbers of the host language *)

(** The unit roundoff of a double, [2^-53]. *)
Definition unit_roundoff : Q := 1 # 9007199254740992.

(** Rounding to the nearest double. The laws are those of IEEE 754 binary64
    away from overflow and underflow: rounding is monotone, leaves a double as
    it is, is exact on the integers up to [2^53], and has a relative error of
    at most [2^-53] between [2^-6] and [2^54]. *)
Class Rounding := {
  rnd : Q -> Q;
  rnd_mono : forall x y : Q, (x <= y)%Q -> (rnd x <= rnd y)%Q;
  rnd_idem : forall x : Q, (rnd (rnd x) == rnd x)%Q;
  rnd_int : forall n : Z, Z.abs n <= 2 ^ 53 -> (rnd (inject_Z n) == inject_Z n)%Q;
  rnd_error : forall x : Q,
    (1 # 64 <= x)%Q -> (x <= inject_Z (2 ^ 54))%Q ->
    ((1 - unit_roundoff) * x <= rnd x)%Q /\ (rnd x <= (1 + unit_roundoff) * x)%Q
}.

(** Arithmetic that never rounds. *)
Definition exact_arithmetic : Rounding.
Proof.
  refine {| rnd := fun x : Q => x |}.
  - intros x y H. exact H.
  - intros x. reflexivity.
  - intros n _. reflexivity.
  - intros x Hlo Hhi. unfold unit_roundoff. split; lra.
Defined.

(** [Math.pow(x, 4)] of the host. The language fixes [Math.pow(0, 4)] and
    leaves the precision of the other values to the implementation; the laws
    ask of it what every engine in use gives: on the interval from 0 to 1 the
    result stays in the interval and does not decrease when [x] grows. *)
Class MathPow := {
  pow4 : Q -> Q;
  pow4_zero : (pow4 0 == 0)%Q;
  pow4_range : forall x : Q, (0 <= x)%Q -> (x <= 1)%Q -> (0 <= pow4 x)%Q /\ (pow4 x <= 1)%Q;
  pow4_mono : forall x y : Q, (0 <= x)%Q -> (x <= y)%Q -> (y <= 1)%Q -> (pow4 x <= pow4 y)%Q
}.

(** The fourth power without any error. *)
Definition exact_pow : MathPow.
Proof.
  refine {| pow4 := fun x : Q => (x * x * x * x)%Q |}.
  - reflexivity.
  - intros x H0 H1.
    assert (H2 : (0 <= x * x)%Q /\ (x * x <= 1)%Q) by (split; nra).
    assert (H3 : (0 <= x * x * x)%Q /\ (x * x * x <= 1)%Q) by (split; nra).
    split; nra.
  - intros x y H0 Hxy H1.
    assert (H2 : (0 <= x * x)%Q /\ (x * x <= y * y)%Q) by (split; nra).
    assert (H3 : (0 <= x * x * x)%Q /\ (x * x * x <= y * y * y)%Q) by (split; nra).
    nra.
Defined.

(** ** Strings and numbers of the host language *)

Module Js.

(** A decimal literal of the source, and [x + y], [x - y], [x * y], [x / y]. *)
Definition literal `{R : Rounding} (x : Q) : Q := rnd x.
Definition add `{R : Rounding} (x y : Q) : Q := rnd (x + y).
Definition sub `{R : Rounding} (x y : Q) : Q := rnd (x - y).
Definition mul `{R : Rounding} (x y : Q) : Q := rnd (x * y).
Definition div `{R : Rounding} (x y : Q) : Q := rnd (x / y).

(** [\d] of a regular expression without the unicode flag: the ASCII digits. *)
Definition is_digit (c : ascii) : bool :=
  let n := nat_of_ascii c in (48 <=? n)%nat && (n <=? 57)%nat.

(** [s.replace(/\d+/g, '')]: every maximal run of digits is replaced by the
    empty string, so exactly the digits of [s] disappear. *)
Fixpoint strip_digits (s : string) : string :=
  match s with
  | EmptyString => EmptyString
  | String c s' => if is_digit c then strip_digits s' else String c (strip_digits s')
  end.

(** White space skipped by [parseInt] (TAB, LF, VT, FF, CR, SP, NBSP). *)
Definition is_space (c : ascii) : bool :=
  let n := nat_of_ascii c in
  ((9 <=? n)%nat && (n <=? 13)%nat) || (n =? 32)%nat || (n =? 160)%nat.

Fixpoint trim_start (s : string) : string :=
  match s with
  | String c s' => if is_space c then trim_start s' else s
  | EmptyString => EmptyString
  end.

(** Value of a digit in the given radix, [None] when [c] is not one. *)
Definition digit_value (radix : Z) (c : ascii) : option Z :=
  let n := Z.of_nat (nat_of_ascii c) in
  let v := if (48 <=? n) && (n <=? 57) then Some (n - 48)
           else if (97 <=? n) && (n <=? 122) then Some (n - 87)
           else if (65 <=? n) && (n <=? 90) then Some (n - 55)
           else None in
  match v with
  | Some d => if d <? radix then Some d else None
  | None => None
  end.

(** The longest prefix of digits, read left to right; [None] when that prefix
    is empty. [acc] is the value read so far. *)
Fixpoint parse_digits (radix : Z) (acc : option Z) (s : string) : option Z :=
  match s with
  | EmptyString => acc
  | String c s' =>
      match digit_value radix c with
      | Some d => parse_digits radix (Some (radix * default 0 acc + d)) s'
      | None => acc
      end
  end.

(** [parseInt(s)] with no radix argument; [None] is NaN. *)
Definition parseInt (s : string) : option Z :=
  let s := trim_start s in
  let '(sign, s) :=
    match s with
    | String "-" s' => (-1, s')
    | String "+" s' => (1, s')
    | _ => (1, s)
    end in
  let '(radix, s) :=
    match s with
    | String "0" (String "x" s') => (16, s')
    | String "0" (String "X" s') => (16, s')
    | _ => (10, s)
    end in
  match parse_digits radix None s with
  | Some n => Some (sign * n)
  | None => None
  end.

(** [parseInt(el.getAttribute(name))]: a missing attribute is [null], which
    reads as the string "null" and does not parse. *)
Definition parseInt_attr (a : option string) : option Z :=
  match a with
  | Some s => parseInt s
  | None => None
  end.

(** [String(n)] for an integer Number. *)
Definition number_to_string (n : Z) : string :=
  NilZero.string_of_int (Z.to_int n).

(** [Math.min(x, y)] *)
Definition min (x y : Q) : Q := if Qle_bool x y then x else y.

(** [s.replace(pattern, '')] for a pattern that is a string: the first
    occurrence of [pattern] in [s] is taken out. *)
Fixpoint remove_first (pattern s : string) : string :=
  if String.prefix pattern s
  then String.substring (String.length pattern) (String.length s - String.length pattern) s
  else match s with
       | EmptyString => EmptyString
       | String c s' => String c (remove_first pattern s')
       end.

(** How a regular expression with the flag [i], and without the flag [u],
    compares a character with an ASCII character of the pattern: the upper-case
    ASCII letters count as the lower-case ones, and no other character does. *)
Definition fold_case (c : ascii) : ascii :=
  let n := nat_of_ascii c in
  if (65 <=? n)%nat && (n <=? 90)%nat then ascii_of_nat (n + 32) else c.

(** [word] matches at the start of [s], case ignored: the rest of [s]. *)
Fixpoint match_ci (word s : string) : option string :=
  match word with
  | EmptyString => Some s
  | String a word' =>
      match s with
      | String c s' => if Ascii.eqb (fold_case a) (fold_case c) then match_ci word' s'
                       else None
      | EmptyString => None
      end
  end.

(** [/word/i.test(s)] for a pattern that is a word of ASCII characters. *)
Fixpoint search_ci (word s : string) : bool :=
  match match_ci word s with
  | Some _ => true
  | None => match s with
            | EmptyString => false
            | String _ s' => search_ci word s'
            end
  end.

(** What [.*] can run over: the characters before the first line terminator
    (LF or CR; the other two are above 255). *)
Fixpoint first_line (s : string) : string :=
  match s with
  | EmptyString => EmptyString
  | String c s' =>
      let n := nat_of_ascii c in
      if (n =? 10)%nat || (n =? 13)%nat then EmptyString else String c (first_line s')
  end.

(** [\d{n}] at the start of [s]: the [n] digits and the rest of [s]. *)
Fixpoint take_digits (n : nat) (s : string) : option (string * string) :=
  match n with
  | O => Some (EmptyString, s)
  | S n' =>
      match s with
      | String c s' =>
          if is_digit c
          then match take_digits n' s' with
               | Some (digits, rest) => Some (String c digits, rest)
               | None => None
               end
          else None
      | EmptyString => None
      end
  end.

(** [\w] of a regular expression without the unicode flag. *)
Definition is_word (c : ascii) : bool :=
  let n := nat_of_ascii c in
  is_digit c || ((65 <=? n)%nat && (n <=? 90)%nat) || ((97 <=? n)%nat && (n <=? 122)%nat)
  || (n =? 95)%nat.

(** [char.toUpperCase()] for a character that [\w] matches. *)
Definition to_upper (c : ascii) : ascii :=
  let n := nat_of_ascii c in
  if (97 <=? n)%nat && (n <=? 122)%nat then ascii_of_nat (n - 32) else c.

End Js.

(** ** The page *)

(** The part of a DOM element the code reads or writes. *)
Record Element := {
  classList : gset string;
  data_count : option string;   (* getAttribute('data-count'), null when absent *)
  textContent : string;
  rect_top : Q;                 (* getBoundingClientRect().top *)
  rect_bottom : Q               (* getBoundingClientRect().bottom *)
}.

Definition set_classList (cl : gset string) (el : Element) : Element :=
  {| classList := cl; data_count := data_count el; textContent := textContent el;
     rect_top := rect_top el; rect_bottom := rect_bottom el |}.

Definition set_textContent (s : string) (el : Element) : Element :=
  {| classList := classList el; data_count := data_count el; textContent := s;
     rect_top := rect_top el; rect_bottom := rect_bottom el |}.

(** The variables captured by one [updateCounter] closure. [tw_current] is the
    value of the mutable [current] when the callback was scheduled. *)
Record Tween := {
  tw_element : nat;
  tw_current : Q;
  tw_increment : Q;
  tw_target : Z;
  tw_suffix : string
}.

(** A callback handed to [setTimeout]. *)
Inductive Callback :=
| UpdateCounter (tw : Tween)
| HandleScrollAnimations.

(** The call site of [Counters.animateCounter]. *)
Inductive Path :=
| ViaObserver      (* the IntersectionObserver callback *)
| ViaProbe         (* checkCounters, after Helpers.isInViewport *)
| ViaAnimateAll.   (* animateAll *)

Inductive Event :=
| Observe (e : nat)                (* Counters.observer.observe(e) *)
| Unobserve (e : nat)              (* Counters.observer.unobserve(e) *)
| TweenStart (via : Path) (e : nat)  (* e.classList.add('animated') *)
| SetText (e : nat) (s : string).  (* e.textContent = s *)

Inductive JsError :=
| TypeError.   (* a method called on undefined *)

Record World := {
  has_IntersectionObserver : bool;   (* 'IntersectionObserver' in window *)
  innerHeight : Q;                   (* window.innerHeight *)
  clientHeight : Q;                  (* document.documentElement.clientHeight *)
  elements : gmap nat Element;
  counters : option (list nat);      (* Counters.counters, undefined before init *)
  observer : option (gset nat);      (* Counters.observer and the targets it observes *)
  timers : list Callback;
  trace : list Event
}.

Definition set_elements (m : gmap nat Element) (w : World) : World :=
  {| has_IntersectionObserver := has_IntersectionObserver w;
     innerHeight := innerHeight w; clientHeight := clientHeight w;
     elements := m; counters := counters w; observer := observer w;
     timers := timers w; trace := trace w |}.

Definition set_counters (c : option (list nat)) (w : World) : World :=
  {| has_IntersectionObserver := has_IntersectionObserver w;
     innerHeight := innerHeight w; clientHeight := clientHeight w;
     elements := elements w; counters := c; observer := observer w;
     timers := timers w; trace := trace w |}.

Definition set_observer (o : option (gset nat)) (w : World) : World :=
  {| has_IntersectionObserver := has_IntersectionObserver w;
     innerHeight := innerHeight w; clientHeight := clientHeight w;
     elements := elements w; counters := counters w; observer := o;
     timers := timers w; trace := trace w |}.

Definition set_timers (t : list Callback) (w : World) : World :=
  {| has_IntersectionObserver := has_IntersectionObserver w;
     innerHeight := innerHeight w; clientHeight := clientHeight w;
     elements := elements w; counters := counters w; observer := observer w;
     timers := t; trace := trace w |}.

Definition log (ev : Event) (w : World) : World :=
  {| has_IntersectionObserver := has_IntersectionObserver w;
     innerHeight := innerHeight w; clientHeight := clientHeight w;
     elements := elements w; counters := counters w; observer := observer w;
     timers := timers w; trace := trace w ++ [ev] |}.

(** [setTimeout(cb, _)] *)
Definition setTimeout (cb : Callback) (w : World) : World :=
  set_timers (timers w ++ [cb]) w.

(** [e.textContent = s] *)
Definition write_text (e : nat) (s : string) (w : World) : World :=
  log (SetText e s) (set_elements (alter (set_textContent s) e (elements w)) w).

(** ** The closures that scroll the window *)

(** The variables that an [animation] closure captures; [sc_startTime] is the
    mutable [startTime] as the last frame left it, [None] for null. *)
Record Scroll := {
  sc_startPosition : Q;
  sc_distance : Q;
  sc_duration : Q;
  sc_easing : option string;
  sc_startTime : option Q
}.

Definition set_startTime (startTime : Q) (st : Scroll) : Scroll :=
  {| sc_startPosition := sc_startPosition st; sc_distance := sc_distance st;
     sc_duration := sc_duration st; sc_easing := sc_easing st;
     sc_startTime := Some startTime |}.

(** The [options] argument of [Helpers.scrollTo]; [None] for a key that the
    object does not have. *)
Record ScrollOptions := {
  opt_offset : option Q;
  opt_duration : option Q;
  opt_easing : option string
}.

(** ** Helpers (js/core/config.js) *)

Module Helpers.

(** [window.innerHeight || document.documentElement.clientHeight] *)
Definition viewportHeight (w : World) : Q :=
  if Qeq_bool (innerHeight w) 0 then clientHeight w else innerHeight w.

(** [Helpers.isInViewport(el, offset)] *)
Definition isInViewport `{R : Rounding} (w : World) (el : Element) (offset : Q) : bool :=
  Qle_bool (rect_top el)
    (Js.add (Js.mul (viewportHeight w) (Js.literal (85 # 100))) offset)
  && Qle_bool (Js.sub 0 offset) (rect_bottom el).

(** The easing function of the name that [Helpers.easing] and
    [SmoothScroll] use by default:
    [t < 0.5 ? 4 * t * t * t : (t - 1) * (2 * t - 2) * (2 * t - 2) + 1]. *)
Definition easeInOutCubic `{R : Rounding} (t : Q) : Q :=
  if Qlt_le_dec t (1 # 2) then Js.mul (Js.mul (Js.mul 4 t) t) t
  else Js.add (Js.mul (Js.mul (Js.sub t 1) (Js.sub (Js.mul 2 t) 2)) (Js.sub (Js.mul 2 t) 2)) 1.

(** The table [easingFunctions] of [Helpers.easing]: the function stored under
    [name], [None] when the table has no key [name] of its own. In
    [(--t) * t * t] the decrement comes first, so every factor is [t - 1]. *)
Definition easingFunctions `{R : Rounding} (name : string) : option (Q -> Q) :=
  if String.eqb name "linear" then Some (fun t => t)
  else if String.eqb name "easeInQuad" then Some (fun t => Js.mul t t)
  else if String.eqb name "easeOutQuad" then Some (fun t => Js.mul t (Js.sub 2 t))
  else if String.eqb name "easeInOutQuad" then
    Some (fun t => if Qlt_le_dec t (1 # 2) then Js.mul (Js.mul 2 t) t
                   else Js.add (-1) (Js.mul (Js.sub 4 (Js.mul 2 t)) t))
  else if String.eqb name "easeInCubic" then Some (fun t => Js.mul (Js.mul t t) t)
  else if String.eqb name "easeOutCubic" then
    Some (fun t => let t := Js.sub t 1 in Js.add (Js.mul (Js.mul t t) t) 1)
  else if String.eqb name "easeInOutCubic" then Some easeInOutCubic
  else if String.eqb name "easeInQuart" then
    Some (fun t => Js.mul (Js.mul (Js.mul t t) t) t)
  else if String.eqb name "easeOutQuart" then
    Some (fun t => let t := Js.sub t 1 in Js.sub 1 (Js.mul (Js.mul (Js.mul t t) t) t))
  else if String.eqb name "easeInOutQuart" then
    Some (fun t => if Qlt_le_dec t (1 # 2)
                   then Js.mul (Js.mul (Js.mul (Js.mul 8 t) t) t) t
                   else let t := Js.sub t 1 in
                        Js.sub 1 (Js.mul (Js.mul (Js.mul (Js.mul 8 t) t) t) t))
  else if String.eqb name "easeInQuint" then
    Some (fun t => Js.mul (Js.mul (Js.mul (Js.mul t t) t) t) t)
  else if String.eqb name "easeOutQuint" then
    Some (fun t => let t := Js.sub t 1 in
                   Js.add 1 (Js.mul (Js.mul (Js.mul (Js.mul t t) t) t) t))
  else if String.eqb name "easeInOutQuint" then
    Some (fun t => if Qlt_le_dec t (1 # 2)
                   then Js.mul (Js.mul (Js.mul (Js.mul (Js.mul 16 t) t) t) t) t
                   else let t := Js.sub t 1 in
                        Js.add 1 (Js.mul (Js.mul (Js.mul (Js.mul (Js.mul 16 t) t) t) t) t))
  else None.

(** The names that the table, an object literal, inherits from
    [Object.prototype]. *)
Definition Object_prototype_keys : list string :=
  ["constructor"; "hasOwnProperty"; "isPrototypeOf"; "propertyIsEnumerable";
   "toLocaleString"; "toString"; "valueOf"; "__proto__";
   "__defineGetter__"; "__defineSetter__"; "__lookupGetter__"; "__lookupSetter__"]%string.

(** [Helpers.easing(t, b, c, d, type)]; [type] is [None] when the argument is
    left out. The result is [None] where this embedding has no number for it:
    for [d = 0], where the quotient is an infinity or NaN, and for a [type]
    that names a method of [Object.prototype], which the lookup finds in
    place of an easing function. *)
Definition easing `{R : Rounding} (t b c d : Q) (type : option string) : option Q :=
  let type := default "easeInOutCubic"%string type in
  let easingFunction :=
    match easingFunctions type with
    | Some f => Some f
    | None => if existsb (String.eqb type) Object_prototype_keys then None
              else Some easeInOutCubic    (* || easingFunctions.easeInOutCubic *)
    end in
  match easingFunction with
  | None => None
  | Some f =>
      if Qeq_bool d 0 then None
      else
        let progress := Js.min (Js.div t d) 1 in
        Some (Js.add b (Js.mul c (f progress)))
  end.

(** [Helpers.scrollTo(element, options)] up to its call of
    [requestAnimationFrame]: the closure [animation] that it hands over.
    [targetElement] is [getBoundingClientRect().top] of the element that was
    given or found, [None] when there is none. *)
Definition scrollTo `{R : Rounding}
    (targetElement : option Q) (pageYOffset : Q) (options : ScrollOptions) : option Scroll :=
  let offset := default 80%Q (opt_offset options) in
  let duration := default 800%Q (opt_duration options) in
  let easing := default "easeInOutCubic"%string (opt_easing options) in
  match targetElement with
  | None => None
  | Some top =>
      let targetPosition := Js.add top pageYOffset in
      let startPosition := pageYOffset in
      let distance := Js.sub (Js.sub targetPosition startPosition) offset in
      Some {| sc_startPosition := startPosition; sc_distance := distance;
              sc_duration := duration; sc_easing := Some easing; sc_startTime := None |}
  end.

(** The nested function [animation]: the second argument that it gives to
    [window.scrollTo], and the closure that it hands to
    [requestAnimationFrame], if any. *)
Definition animation `{R : Rounding} (st : Scroll) (currentTime : Q) : option Q * option Scroll :=
  let startTime := default currentTime (sc_startTime st) in   (* startTime === null *)
  let timeElapsed := Js.sub currentTime startTime in
  let run := Helpers.easing timeElapsed (sc_startPosition st) (sc_distance st)
               (sc_duration st) (sc_easing st) in
  (run, if Qlt_le_dec timeElapsed (sc_duration st)
        then Some (set_startTime startTime st) else None).

(** [Helpers.formatPhone(phone)]: [phone.replace(/(\d{2})(\d{4})(\d{4})/,
    '$1 $2 $3')], the first ten digits in a row are grouped. *)
Fixpoint formatPhone (phone : string) : string :=
  match Js.take_digits 2 phone with
  | Some (g1, rest1) =>
      match Js.take_digits 4 rest1 with
      | Some (g2, rest2) =>
          match Js.take_digits 4 rest2 with
          | Some (g3, rest) => g1 ++ " " ++ g2 ++ " " ++ g3 ++ rest
          | None => match phone with
                    | EmptyString => EmptyString
                    | String c phone' => String c (formatPhone phone')
                    end
          end
      | None => match phone with
                | EmptyString => EmptyString
                | String c phone' => String c (formatPhone phone')
                end
      end
  | None => match phone with
            | EmptyString => EmptyString
            | String c phone' => String c (formatPhone phone')
            end
  end.

(** The replacement at and after a character of [str]; [after_word] tells
    whether the character before it is one that [\w] matches, so that there
    is no [\b] between them. *)
Fixpoint capitalize_from (after_word : bool) (str : string) : string :=
  match str with
  | EmptyString => EmptyString
  | String c str' =>
      String (if Js.is_word c && negb after_word then Js.to_upper c else c)
        (capitalize_from (Js.is_word c) str')
  end.

(** [Helpers.capitalize(str)]: [str.replace(/\b\w/g, char => char.toUpperCase())] *)
Definition capitalize (str : string) : string := capitalize_from false str.

(** [Helpers.isMobile()], for [navigator.userAgent] *)
Definition isMobile (userAgent : string) : bool :=
  existsb (fun word => Js.search_ci word userAgent)
    ["Android"; "webOS"; "iPhone"; "iPad"; "iPod"; "BlackBerry"; "IEMobile";
     "Opera Mini"]%string.

(** [/Android(?!.*Mobile)/i.test(s)] *)
Fixpoint android_not_mobile (s : string) : bool :=
  match
    match Js.match_ci "Android" s with
    | Some rest => negb (Js.search_ci "Mobile" (Js.first_line rest))
    | None => false
    end
  with
  | true => true
  | false => match s with
             | EmptyString => false
             | String _ s' => android_not_mobile s'
             end
  end.

(** [Helpers.isTablet()] *)
Definition isTablet (userAgent : string) : bool :=
  Js.search_ci "iPad" userAgent || android_not_mobile userAgent
  || Js.search_ci "Tablet" userAgent.

(** [Helpers.isDesktop()] *)
Definition isDesktop (userAgent : string) : bool :=
  negb (isMobile userAgent) && negb (isTablet userAgent).

(** [Helpers.getDeviceType()] *)
Definition getDeviceType (userAgent : string) : string :=
  if isMobile userAgent then "mobile"
  else if isTablet userAgent then "tablet"
  else "desktop".

(** *** [Helpers.debounce] and [Helpers.throttle]

    A function made by [debounce] or [throttle] owns the variables of its
    closure and the timers it sets. A timer has the identifier that
    [setTimeout] returned for it; identifiers are not used twice. [func] is
    known by the arguments it is called with. *)

Record Debounced (A : Type) := {
  db_timeout : option nat;   (* the variable [timeout]; [None] for undefined *)
  db_pending : gmap nat A;   (* the timers set and neither expired nor cleared,
                                each with the [args] that its [later] holds *)
  db_fresh : nat;            (* the identifier that the next timer gets *)
  db_invoked : list A        (* the arguments of the calls of [func], oldest first *)
}.

Arguments db_timeout {A} _.
Arguments db_pending {A} _.
Arguments db_fresh {A} _.
Arguments db_invoked {A} _.

(** [Helpers.debounce(func, wait)]: the closure before its first call. *)
Definition debounce {A : Type} (fresh : nat) : Debounced A :=
  {| db_timeout := None; db_pending := ∅; db_fresh := fresh; db_invoked := [] |}.

(** [clearTimeout(timeout)] *)
Definition clearTimeout {A : Type} (timeout : option nat) (pending : gmap nat A) : gmap nat A :=
  match timeout with
  | Some id => delete id pending
  | None => pending
  end.

(** [executedFunction(...args)] *)
Definition executedFunction {A : Type} (args : A) (d : Debounced A) : Debounced A :=
  let pending := clearTimeout (db_timeout d) (db_pending d) in
  let id := db_fresh d in                         (* timeout = setTimeout(later, wait) *)
  {| db_timeout := Some id; db_pending := <[id := args]> pending;
     db_fresh := S id; db_invoked := db_invoked d |}.

(** The arrow function [later] of the call that had [args]. *)
Definition later {A : Type} (args : A) (d : Debounced A) : Debounced A :=
  {| db_timeout := db_timeout d;
     db_pending := clearTimeout (db_timeout d) (db_pending d);
     db_fresh := db_fresh d;
     db_invoked := db_invoked d ++ [args] |}.

(** The timer [id] expires; nothing happens for a timer that was cleared. *)
Definition debounce_expire {A : Type} (id : nat) (d : Debounced A) : Debounced A :=
  match db_pending d !! id with
  | None => d
  | Some args =>
      later args {| db_timeout := db_timeout d; db_pending := delete id (db_pending d);
                    db_fresh := db_fresh d; db_invoked := db_invoked d |}
  end.

Record Throttled (A : Type) := {
  th_inThrottle : bool;      (* the variable [inThrottle]; undefined reads as false *)
  th_pending : gset nat;     (* the timers set and not yet expired *)
  th_fresh : nat;            (* the identifier that the next timer gets *)
  th_invoked : list A        (* the arguments of the calls of [func], oldest first *)
}.

Arguments th_inThrottle {A} _.
Arguments th_pending {A} _.
Arguments th_fresh {A} _.
Arguments th_invoked {A} _.

(** [Helpers.throttle(func, limit)]: the closure before its first call. *)
Definition throttle {A : Type} (fresh : nat) : Throttled A :=
  {| th_inThrottle := false; th_pending := ∅; th_fresh := fresh; th_invoked := [] |}.

(** The function that [throttle] returns, called with [args]. [throws] says
    whether this call of [func] throws: then the exception leaves the function
    before [inThrottle] is set. *)
Definition throttled {A : Type} (args : A) (throws : bool) (t : Throttled A) : Throttled A :=
  if th_inThrottle t then t
  else if throws then
    {| th_inThrottle := false; th_pending := th_pending t;
       th_fresh := th_fresh t; th_invoked := th_invoked t ++ [args] |}
  else
    {| th_inThrottle := true; th_pending := {[th_fresh t]} ∪ th_pending t;
       th_fresh := S (th_fresh t); th_invoked := th_invoked t ++ [args] |}.

(** The timer [id] expires: [() => inThrottle = false]. *)
Definition throttle_expire {A : Type} (id : nat) (t : Throttled A) : Throttled A :=
  if decide (id ∈ th_pending t) then
    {| th_inThrottle := false; th_pending := th_pending t ∖ {[id]};
       th_fresh := th_fresh t; th_invoked := th_invoked t |}
  else t.

End Helpers.

(** ** SmoothScroll (js/modules/smooth-scroll.js) *)

Module SmoothScroll.

(** [SmoothScroll.scrollToElement(element)] up to its call of
    [requestAnimationFrame]; [top] is [element.getBoundingClientRect().top]. *)
Definition scrollToElement `{R : Rounding} (top pageYOffset : Q) : Scroll :=
  let targetPosition := Js.add top pageYOffset in
  let startPosition := pageYOffset in
  let distance := Js.sub (Js.sub targetPosition startPosition) 80 in
  {| sc_startPosition := startPosition; sc_distance := distance;
     sc_duration := 800; sc_easing := None; sc_startTime := None |}.

(** [SmoothScroll.scrollToPosition(position, duration)] up to its call of
    [requestAnimationFrame]; [duration] is [None] when it is left out. *)
Definition scrollToPosition `{R : Rounding}
    (position : Q) (duration : option Q) (pageYOffset : Q) : Scroll :=
  let startPosition := pageYOffset in
  let distance := Js.sub position startPosition in
  {| sc_startPosition := startPosition; sc_distance := distance;
     sc_duration := default 800%Q duration; sc_easing := None; sc_startTime := None |}.

(** The nested function [animation] of both; its easing is written out in
    place: [easeInOutCubic(progress) * distance + startPosition]. The result
    is [None] for [duration = 0], where the quotient is an infinity or NaN. *)
Definition animation `{R : Rounding} (st : Scroll) (currentTime : Q) : option Q * option Scroll :=
  let startTime := default currentTime (sc_startTime st) in   (* startTime === null *)
  let timeElapsed := Js.sub currentTime startTime in
  let run :=
    if Qeq_bool (sc_duration st) 0 then None
    else
      let progress := Js.min (Js.div timeElapsed (sc_duration st)) 1 in
      Some (Js.add (Js.mul (Helpers.easeInOutCubic progress) (sc_distance st))
              (sc_startPosition st)) in
  (run, if Qlt_le_dec timeElapsed (sc_duration st)
        then Some (set_startTime startTime st) else None).

End SmoothScroll.

(** The animation frames of one scroll: [animation] runs at each of the
    timestamps for as long as it asks for one more frame. The result lists
    the positions given to [window.scrollTo] and says whether a frame is
    still asked for. *)
Fixpoint scroll_frames (animation : Scroll -> Q -> option Q * option Scroll)
    (timestamps : list Q) (st : Scroll) : list (option Q) * option Scroll :=
  match timestamps with
  | [] => ([], Some st)
  | currentTime :: later =>
      match animation st currentTime with
      | (run, Some st') =>
          let '(runs, rest) := scroll_frames animation later st' in (run :: runs, rest)
      | (run, None) => ([run], None)
      end
  end.

(** ** Outcome of a function that may throw *)

Inductive Outcome :=
| Ok (w : World)
| Throw (err : JsError) (w : World).   (* the page as the exception left it *)

Definition and_then (o : Outcome) (f : World -> Outcome) : Outcome :=
  match o with
  | Ok w => f w
  | Throw err w => Throw err w
  end.

Definition add_class (c : string) (el : Element) : Element :=
  set_classList ({[c]} ∪ classList el) el.

Definition remove_class (c : string) (el : Element) : Element :=
  set_classList (classList el ∖ {[c]}) el.

(** [el.setAttribute('data-count', value)] *)
Definition set_data_count (d : option string) (el : Element) : Element :=
  {| classList := classList el; data_count := d; textContent := textContent el;
     rect_top := rect_top el; rect_bottom := rect_bottom el |}.

(** [card.querySelector('.stat-number')]: the first of the descendants of
    [card], in document order, that has the class. *)
Definition querySelector_stat_number (descendants : list nat) (w : World) : option nat :=
  List.find (fun e => match elements w !! e with
                      | Some el => bool_decide ("stat-number" ∈ classList el)
                      | None => false
                      end) descendants.

(** ** Counters (js/modules/counters.js) *)

Module Counters.

(** The selector [.stat-number[data-count]]. *)
Definition is_counter (el : Element) : bool :=
  bool_decide ("stat-number" ∈ classList el) && bool_decide (is_Some (data_count el)).

(** [element.querySelectorAll('.stat-number[data-count]')]; [scope] lists the
    descendants of [element] in document order. *)
Definition querySelectorAll (scope : list nat) (w : World) : list nat :=
  List.filter (fun e => match elements w !! e with
                        | Some el => is_counter el
                        | None => false
                        end) scope.

(** [Counters.observer.observe(e)] and [Counters.observer.unobserve(e)]. The
    source calls them on an observer that exists: right after creating it, in
    its own callback, or behind [if (Counters.observer)]. *)
Definition observe (e : nat) (w : World) : World :=
  match observer w with
  | Some targets => log (Observe e) (set_observer (Some ({[e]} ∪ targets)) w)
  | None => w
  end.

Definition unobserve (e : nat) (w : World) : World :=
  match observer w with
  | Some targets => log (Unobserve e) (set_observer (Some (targets ∖ {[e]})) w)
  | None => w
  end.

(** The nested function [updateCounter] of [animateCounter], with its captured
    variables. *)
Definition updateCounter `{R : Rounding} (tw : Tween) (w : World) : World :=
  let current := Js.add (tw_current tw) (tw_increment tw) in
  if Qlt_le_dec current (inject_Z (tw_target tw)) then
    let w := write_text (tw_element tw)
               (Js.number_to_string (Qfloor current) ++ tw_suffix tw) w in
    setTimeout (UpdateCounter {| tw_element := tw_element tw;
                                 tw_current := current;
                                 tw_increment := tw_increment tw;
                                 tw_target := tw_target tw;
                                 tw_suffix := tw_suffix tw |}) w
  else
    write_text (tw_element tw)
      (Js.number_to_string (tw_target tw) ++ tw_suffix tw) w.

(** [Counters.animateCounter(counterElement)]. [via] names the call site and is
    only recorded in the trace. *)
Definition animateCounter `{R : Rounding} (via : Path) (e : nat) (w : World) : World :=
  match elements w !! e with
  | None => w
  | Some el =>
      if decide ("animated" ∈ classList el) then w
      else
        match Js.parseInt_attr (data_count el) with
        | None => w
        | Some target =>
            let originalText := textContent el in
            let suffix := Js.strip_digits originalText in
            let w := log (TweenStart via e)
                       (set_elements (alter (add_class "animated") e (elements w)) w) in
            updateCounter {| tw_element := e;
                             tw_current := 0;
                             tw_increment := Js.div (inject_Z target) 50;
                             tw_target := target;
                             tw_suffix := suffix |} w
        end
  end.

(** [Counters.animateAll()] *)
Definition animateAll `{R : Rounding} (w : World) : Outcome :=
  match counters w with
  | None => Throw TypeError w
  | Some cs => Ok (foldl (fun w c => animateCounter ViaAnimateAll c w) w cs)
  end.

(** The callback given to [new IntersectionObserver]; an entry is
    [(entry.target, entry.isIntersecting)]. *)
Definition observerCallback `{R : Rounding} (entries : list (nat * bool)) (w : World) : World :=
  foldl (fun (w : World) (entry : nat * bool) =>
           if snd entry
           then unobserve (fst entry) (animateCounter ViaObserver (fst entry) w)
           else w) w entries.

(** [Counters.setupObserver()] *)
Definition setupObserver `{R : Rounding} (w : World) : Outcome :=
  if has_IntersectionObserver w then
    let w := set_observer (Some ∅) w in
    match counters w with
    | None => Throw TypeError w
    | Some cs => Ok (foldl (fun w c => observe c w) w cs)
    end
  else animateAll w.

(** The body of the loop of [checkCounters]. *)
Definition checkCounter `{R : Rounding} (c : nat) (w : World) : World :=
  match elements w !! c with
  | None => w
  | Some el =>
      if Helpers.isInViewport w el 100%Q
      then
        let w := animateCounter ViaProbe c w in
        match observer w with        (* if (Counters.observer) *)
        | Some _ => unobserve c w
        | None => w
        end
      else w
  end.

(** [Counters.checkCounters()] *)
Definition checkCounters `{R : Rounding} (w : World) : Outcome :=
  match counters w with
  | None => Throw TypeError w
  | Some cs => Ok (foldl (fun w c => checkCounter c w) w cs)
  end.

(** [Counters.init(element)] *)
Definition init `{R : Rounding} (scope : list nat) (w : World) : Outcome :=
  let w := set_counters (Some (querySelectorAll scope w)) w in
  and_then (setupObserver w) checkCounters.

(** The body of the first loop of [reset]. *)
Definition reset_counter (c : nat) (w : World) : World :=
  match elements w !! c with
  | None => w
  | Some el =>
      let w := set_elements (alter (remove_class "animated") c (elements w)) w in
      let suffix := Js.strip_digits (textContent el) in
      write_text c ("0" ++ suffix) w
  end.

(** [Counters.reset()] *)
Definition reset (w : World) : Outcome :=
  match counters w with
  | None => Throw TypeError w
  | Some cs =>
      let w := foldl (fun w c => reset_counter c w) w cs in
      match observer w with          (* if (Counters.observer) *)
      | Some _ => Ok (foldl (fun w c => observe c w) w cs)
      | None => Ok w
      end
  end.

(** [Counters.getValue(selector)]. [counter] is what
    [document.querySelector(selector)] finds: [None] for null, else the
    descendants of the element it found. *)
Definition getValue (counter : option (list nat)) (w : World) : Z :=
  match counter with
  | None => 0
  | Some descendants =>
      match querySelector_stat_number descendants w with
      | None => 0
      | Some counterValue =>
          let currentText := match elements w !! counterValue with
                             | Some el => textContent el
                             | None => EmptyString
                             end in
          match Js.parseInt currentText with
          | Some currentValue => currentValue
          | None => 0                   (* isNaN(currentValue) *)
          end
      end
  end.

(** [Counters.update(selector, newValue)]; [newValue] is the string that
    [setAttribute] stores. *)
Definition update (counter : option (list nat)) (newValue : string) (w : World) : World :=
  match counter with
  | None => w
  | Some descendants =>
      match querySelector_stat_number descendants w with
      | None => w
      | Some counterValue =>
          match elements w !! counterValue with
          | None => w
          | Some el =>
              let w := set_elements
                         (alter (set_data_count (Some newValue)) counterValue (elements w)) w in
              let w := set_elements
                         (alter (remove_class "animated") counterValue (elements w)) w in
              let suffix := Js.strip_digits (textContent el) in
              let w := write_text counterValue ("0" ++ suffix) w in
              match observer w with      (* if (Counters.observer) *)
              | Some _ => observe counterValue w
              | None => w
              end
          end
      end
  end.

End Counters.

(** ** Animations (js/modules/navbar.js) *)

(** The variables that the [step] closure of [animateStatNumbers] captures.
    [ss_startTimestamp] is the mutable [startTimestamp] as the last frame left
    it, [None] for null. *)
Record StatStep := {
  ss_element : nat;               (* numberElement *)
  ss_originalText : string;
  ss_numberValue : Z;
  ss_startTimestamp : option Q
}.

Module Animations.

(** [Animations.handleScrollAnimations()]: every [.fade-in, .slide-up] element
    that is in the viewport gets the class [visible]. *)
Definition handleScrollAnimations `{R : Rounding} (w : World) : World :=
  set_elements
    ((fun el =>
        if (bool_decide ("fade-in" ∈ classList el) || bool_decide ("slide-up" ∈ classList el))
           && Helpers.isInViewport w el 100%Q
        then add_class "visible" el else el) <$> elements w) w.

(** [Animations.reset()]: every [.fade-in, .slide-up, .animate-in] element
    loses the classes [visible], [animate-in] and [animated]. *)
Definition reset (w : World) : World :=
  set_elements
    ((fun el =>
        if bool_decide ("fade-in" ∈ classList el) || bool_decide ("slide-up" ∈ classList el)
           || bool_decide ("animate-in" ∈ classList el)
        then remove_class "animated" (remove_class "animate-in" (remove_class "visible" el))
        else el) <$> elements w) w.

(** [Math.min((timestamp - startTimestamp) / duration, 1)] with
    [duration = 1500]. *)
Definition progress_at `{R : Rounding} (startTimestamp timestamp : Q) : Q :=
  Js.min (Js.div (Js.sub timestamp startTimestamp) 1500) 1.

(** [1 - Math.pow(1 - progress, 4)] *)
Definition easeOutQuart `{R : Rounding} `{P : MathPow} (progress : Q) : Q :=
  Js.sub 1 (pow4 (Js.sub 1 progress)).

(** [Math.floor(easeOutQuart * numberValue)] *)
Definition currentNumber `{R : Rounding} `{P : MathPow} (numberValue : Z) (progress : Q) : Z :=
  Qfloor (Js.mul (easeOutQuart progress) (inject_Z numberValue)).

(** [currentNumber + originalText.replace(numberValue, '')] *)
Definition stat_text (originalText : string) (numberValue currentNumber : Z) : string :=
  Js.number_to_string currentNumber
  ++ Js.remove_first (Js.number_to_string numberValue) originalText.

(** The nested function [step] of [animateStatNumbers], called with the
    timestamp of an animation frame. Beside the page it gives the closure that
    it hands to [requestAnimationFrame], [None] when it hands over none. *)
Definition step `{R : Rounding} `{P : MathPow}
    (st : StatStep) (timestamp : Q) (w : World) : World * option StatStep :=
  let startTimestamp :=
    match ss_startTimestamp st with        (* if (!startTimestamp) *)
    | Some s => if Qeq_bool s 0 then timestamp else s
    | None => timestamp
    end in
  let progress := progress_at startTimestamp timestamp in
  let w := write_text (ss_element st)
             (stat_text (ss_originalText st) (ss_numberValue st)
                (currentNumber (ss_numberValue st) progress)) w in
  if Qlt_le_dec progress 1 then
    (w, Some {| ss_element := ss_element st;
                ss_originalText := ss_originalText st;
                ss_numberValue := ss_numberValue st;
                ss_startTimestamp := Some startTimestamp |})
  else (write_text (ss_element st) (ss_originalText st) w, None).

(** [Animations.animateStatNumbers(statCard)]; [descendants] lists the
    descendants of [statCard] in document order. Beside the page it gives the
    closure handed to [requestAnimationFrame], if any. *)
Definition animateStatNumbers (descendants : list nat) (w : World) : World * option StatStep :=
  match querySelector_stat_number descendants w with
  | None => (w, None)
  | Some numberElement =>
      match elements w !! numberElement with
      | None => (w, None)
      | Some el =>
          let originalText := textContent el in
          match Js.parseInt originalText with
          | None => (w, None)
          | Some numberValue =>
              if decide ("animated" ∈ classList el) then (w, None)
              else
                let w := set_elements
                           (alter (add_class "animated") numberElement (elements w)) w in
                let w := write_text numberElement "0" w in
                (w, Some {| ss_element := numberElement;
                            ss_originalText := originalText;
                            ss_numberValue := numberValue;
                            ss_startTimestamp := None |})
          end
      end
  end.

(** The animation frames of one tween: [step] runs at each of the timestamps
    for as long as it asks for one more frame. *)
Fixpoint play `{R : Rounding} `{P : MathPow}
    (timestamps : list Q) (st : StatStep) (w : World) : World * option StatStep :=
  match timestamps with
  | [] => (w, Some st)
  | timestamp :: later =>
      match step st timestamp w with
      | (w', Some st') => play later st' w'
      | (w', None) => (w', None)
      end
  end.

End Animations.

(** ** EventManager (js/core/events.js) *)

Module EventManager.

(** [onWindowLoad()] *)
Definition onWindowLoad `{R : Rounding} (w : World) : Outcome :=
  let w := setTimeout HandleScrollAnimations w in
  Counters.animateAll w.

End EventManager.

(** ** Navbar (js/modules/navbar.js) *)

(** A [.nav-link] element inside the header. *)
Record NavLink := {
  href : option string;            (* getAttribute('href'), null when absent *)
  link_classList : gset string
}.

Definition set_link_classList (cl : gset string) (link : NavLink) : NavLink :=
  {| href := href link; link_classList := cl |}.

(** A [section[id]] element. *)
Record PageSection := {
  section_id : string;             (* getAttribute('id') *)
  offsetTop : Z
}.

(** What the module reads and writes. *)
Record Header := {
  header_classList : option (gset string);
                                   (* the classList of Navbar.element; [None] when
                                      Navbar.element is not set *)
  navLinks : list NavLink;         (* Navbar.element.querySelectorAll('.nav-link') *)
  page_sections : list PageSection;(* document.querySelectorAll('section[id]') *)
  scrollY : Q                      (* window.scrollY *)
}.

Module Navbar.

Definition set_header_classList (cl : option (gset string)) (h : Header) : Header :=
  {| header_classList := cl; navLinks := navLinks h; page_sections := page_sections h;
     scrollY := scrollY h |}.

Definition set_navLinks (links : list NavLink) (h : Header) : Header :=
  {| header_classList := header_classList h; navLinks := links;
     page_sections := page_sections h; scrollY := scrollY h |}.

(** [window.scrollY >= (sectionTop - 150)] *)
Definition reached (scrollY : Q) (section : PageSection) : bool :=
  Qle_bool (inject_Z (offsetTop section - 150)) scrollY.

(** The variable [current] after the loop over the sections. *)
Definition current (sections : list PageSection) (scrollY : Q) : string :=
  foldl (fun current section => if reached scrollY section then section_id section
                                else current)
    ""%string sections.

(** The body of the loop over the links. *)
Definition highlight (current : string) (link : NavLink) : NavLink :=
  let link := set_link_classList (link_classList link ∖ {["active"%string]}) link in
  if bool_decide (href link = Some ("#" ++ current)%string)
  then set_link_classList ({["active"%string]} ∪ link_classList link) link
  else link.

(** [Navbar.updateActiveLinks()]; [None] is the TypeError of
    [Navbar.element.querySelectorAll] when [Navbar.element] is not set. *)
Definition updateActiveLinks (h : Header) : option Header :=
  match header_classList h with
  | None => None
  | Some _ =>
      let current := current (page_sections h) (scrollY h) in
      Some (set_navLinks (map (highlight current) (navLinks h)) h)
  end.

(** [Navbar.handleScroll()] *)
Definition handleScroll (h : Header) : option Header :=
  match header_classList h with
  | None => Some h
  | Some classList =>
      let h := if Qlt_le_dec 50 (scrollY h)
               then set_header_classList (Some ({["scrolled"%string]} ∪ classList)) h
               else set_header_classList (Some (classList ∖ {["scrolled"%string]})) h in
      updateActiveLinks h
  end.

End Navbar.

(** ** Notifications (js/modules/navbar.js) *)

(** A notification element made by [Notifications.show]. *)
Record Notification := {
  n_className : string;
  n_message : string;          (* the text of the message span *)
  n_duration : Q;              (* the [duration] it was shown with *)
  n_animation : string         (* style.animation *)
}.

Definition set_animation (a : string) (n : Notification) : Notification :=
  {| n_className := n_className n; n_message := n_message n;
     n_duration := n_duration n; n_animation := a |}.

(** A callback that the module hands to [setTimeout]. *)
Inductive ToastTimer :=
| AutoHide (n : nat)       (* () => Notifications.hide(notification), set by show *)
| RemoveToast (n : nat).   (* the removal after the slide-out, set by hide *)

(** The part of the document the module works on. A notification is a key
    into [toasts]; its [parentNode] is the container when it is among the
    children of the container, and null otherwise. *)
Record Toasts := {
  container : option (list nat);   (* #notification-container with its children in
                                      document order; [None] when there is none *)
  toasts : gmap nat Notification;  (* the notification elements made so far *)
  toast_timers : list ToastTimer;  (* the pending timers, oldest first *)
  styles : bool                    (* the document has #notification-styles *)
}.

Module Notifications.

Definition set_container (c : option (list nat)) (s : Toasts) : Toasts :=
  {| container := c; toasts := toasts s; toast_timers := toast_timers s; styles := styles s |}.

Definition set_toasts (m : gmap nat Notification) (s : Toasts) : Toasts :=
  {| container := container s; toasts := m; toast_timers := toast_timers s;
     styles := styles s |}.

Definition set_toast_timers (l : list ToastTimer) (s : Toasts) : Toasts :=
  {| container := container s; toasts := toasts s; toast_timers := l; styles := styles s |}.

(** [notification.parentNode], as a truth value. *)
Definition parentNode (n : nat) (s : Toasts) : bool :=
  match container s with
  | Some children => bool_decide (n ∈ children)
  | None => false
  end.

(** [Notifications.createContainer()]: a new container at the end of the
    body. When the document has one already, that one comes first in document
    order and stays the one that [document.getElementById] finds. *)
Definition createContainer (s : Toasts) : Toasts :=
  match container s with
  | None => set_container (Some []) s
  | Some _ => s
  end.

(** [Notifications.init(element)] *)
Definition init (s : Toasts) : Toasts :=
  let s := match container s with
           | None => createContainer s
           | Some _ => s
           end in
  {| container := container s; toasts := toasts s; toast_timers := toast_timers s;
     styles := true |}.

(** [Notifications.show(message, type, duration)]: the page and the element
    that is returned. [type] and [duration] are [None] when left out. The new
    element gets a key that no element has. *)
Definition show (message : string) (type : option string) (duration : option Q)
    (s : Toasts) : Toasts * nat :=
  let type := default "info"%string type in
  let duration := default 5000%Q duration in
  let notification := fresh (dom (toasts s)) in
  let s := set_toasts
             (<[notification := {| n_className := "notification notification-" ++ type;
                                   n_message := message;
                                   n_duration := duration;
                                   n_animation := "" |}]> (toasts s)) s in
  let s := match container s with
           | None => createContainer s
           | Some _ => s
           end in
  let s := set_container (option_map (fun children => children ++ [notification])
                            (container s)) s in
  let s := if Qlt_le_dec 0 duration
           then set_toast_timers (toast_timers s ++ [AutoHide notification]) s
           else s in
  (s, notification).

(** [Notifications.hide(notification)]; [None] is null. *)
Definition hide (notification : option nat) (s : Toasts) : Toasts :=
  match notification with
  | None => s
  | Some n =>
      if parentNode n s then
        let s := set_toasts
                   (alter (set_animation "slideOut 0.3s ease forwards") n (toasts s)) s in
        set_toast_timers (toast_timers s ++ [RemoveToast n]) s
      else s
  end.

(** The callback of the timer that [hide] sets. *)
Definition removeToast (n : nat) (s : Toasts) : Toasts :=
  if parentNode n s
  then set_container (option_map (List.filter (fun c => negb (Nat.eqb c n))) (container s)) s
  else s.

(** [Notifications.getAll()]: the children of the container; each of them was
    made by [show] and has the class [notification]. *)
Definition getAll (s : Toasts) : list nat :=
  match container s with
  | None => []
  | Some children => children
  end.

(** [Notifications.getCount()] *)
Definition getCount (s : Toasts) : nat := length (getAll s).

(** [Notifications.hideAll()] *)
Definition hideAll (s : Toasts) : Toasts :=
  match container s with
  | None => s
  | Some children => foldl (fun s n => hide (Some n) s) s children
  end.

(** [Notifications.clear()] *)
Definition clear (s : Toasts) : Toasts :=
  match container s with
  | None => s
  | Some _ => set_container (Some []) s
  end.

(** The [i]-th pending timer expires. *)
Definition expire (i : nat) (s : Toasts) : Toasts :=
  match toast_timers s !! i with
  | None => s
  | Some timer =>
      let s := set_toast_timers (delete i (toast_timers s)) s in
      match timer with
      | AutoHide n => hide (Some n) s
      | RemoveToast n => removeToast n s
      end
  end.

End Notifications.

(** What happens to the notifications. *)
Inductive ToastEvent :=
| ToastShow (message : string) (type : option string) (duration : option Q)
| ToastHide (n : nat)          (* hide(n): a click on the close button, or a caller *)
| ToastHideAll
| ToastClear
| ToastExpire (i : nat).       (* the i-th pending timer expires *)

Definition toast_step (s : Toasts) (ev : ToastEvent) : Toasts :=
  match ev with
  | ToastShow message type duration => (Notifications.show message type duration s).1
  | ToastHide n => Notifications.hide (Some n) s
  | ToastHideAll => Notifications.hideAll s
  | ToastClear => Notifications.clear s
  | ToastExpire i => Notifications.expire i s
  end.

Definition toast_run (events : list ToastEvent) (s : Toasts) : Toasts :=
  foldl toast_step s events.

(** A document in which the module has done nothing yet. *)
Definition no_toasts : Toasts :=
  {| container := None; toasts := ∅; toast_timers := []; styles := false |}.

(** Timers expire in the order they were set, [k] times. *)
Fixpoint toast_drain (k : nat) (s : Toasts) : Toasts :=
  match k with
  | O => s
  | S k' => match toast_timers s with
            | [] => s
            | _ :: _ => toast_drain k' (Notifications.expire 0 s)
            end
  end.

(** An [AutoHide] timer may set one more timer, a [RemoveToast] timer sets
    none. *)
Definition toast_work (timers : list ToastTimer) : nat :=
  list_sum (map (fun timer => match timer with AutoHide _ => 2 | RemoveToast _ => 1 end)%nat
              timers).

(** Let every pending timer run out. *)
Definition toast_settle (s : Toasts) : Toasts :=
  toast_drain (toast_work (toast_timers s)) s.

(** The notification [n] was shown to stay: with a duration that is not
    positive. *)
Definition persistent (n : nat) (s : Toasts) : Prop :=
  exists t, toasts s !! n = Some t /\ (n_duration t <= 0)%Q.

(** A pending timer will hide or remove the notification [n]. *)
Definition will_go (n : nat) (s : Toasts) : Prop :=
  In (AutoHide n) (toast_timers s) \/ In (RemoveToast n) (toast_timers s).

(** The notification that a timer is about. *)
Definition timer_toast (timer : ToastTimer) : nat :=
  match timer with
  | AutoHide n => n
  | RemoveToast n => n
  end.

(** The event is not a call that hides or removes the notification [n]:
    neither [hide(n)] nor [hideAll()] nor [clear()]. *)
Definition leaves (n : nat) (ev : ToastEvent) : bool :=
  match ev with
  | ToastShow _ _ _ => true
  | ToastHide m => negb (Nat.eqb m n)
  | ToastHideAll => false
  | ToastClear => false
  | ToastExpire _ => true
  end.

(** The element [n] was made by [show]. *)
Definition made (n : nat) (s : Toasts) : Prop := is_Some (toasts s !! n).

(** Every notification on show stays or has a timer pending, and every
    notification on show or named by a timer was made by [show]. *)
Definition accounted (s : Toasts) : Prop :=
  (forall n, In n (Notifications.getAll s) -> persistent n s \/ will_go n s) /\
  (forall n, In n (Notifications.getAll s) -> made n s) /\
  (forall timer, In timer (toast_timers s) -> made (timer_toast timer) s).

(** A notification that was made and has a timer pending while it is on
    show: whatever happens next, it is still so. *)
Definition on_its_way (n : nat) (s : Toasts) : Prop :=
  made n s /\ (In n (Notifications.getAll s) -> will_go n s).

(** A notification on show that no timer is about. *)
Definition left_alone (n : nat) (s : Toasts) : Prop :=
  In n (Notifications.getAll s) /\ made n s /\
  (forall timer, In timer (toast_timers s) -> timer_toast timer <> n).

(** A notification that is not on show and was made: it never comes back. *)
Definition gone (n : nat) (s : Toasts) : Prop :=
  made n s /\ ~ In n (Notifications.getAll s).

(** No ten digits in a row start in [s]. *)
Fixpoint no_ten_digits (s : string) : bool :=
  match Js.take_digits 10 s with
  | Some _ => false
  | None => match s with
            | EmptyString => true
            | String _ s' => no_ten_digits s'
            end
  end.

(** The last character of [s], if there is one, is no digit. *)
Fixpoint ends_without_digit (s : string) : bool :=
  match s with
  | EmptyString => true
  | String c EmptyString => negb (Js.is_digit c)
  | String _ s' => ends_without_digit s'
  end.

Fixpoint all_digits (s : string) : bool :=
  match s with
  | EmptyString => true
  | String c s' => Js.is_digit c && all_digits s'
  end.

(** ** The event loop *)

Definition run_callback `{R : Rounding} (cb : Callback) (w : World) : World :=
  match cb with
  | UpdateCounter tw => Counters.updateCounter tw w
  | HandleScrollAnimations => Animations.handleScrollAnimations w
  end.

(** The [i]-th pending timer expires. *)
Definition fire `{R : Rounding} (i : nat) (w : World) : World :=
  match timers w !! i with
  | None => w
  | Some cb => run_callback cb (set_timers (delete i (timers w)) w)
  end.

(** Timers expire in the order they were set, [n] times. *)
Fixpoint drain `{R : Rounding} (n : nat) (w : World) : World :=
  match n with
  | O => w
  | S n' => match timers w with
            | [] => w
            | _ :: _ => drain n' (fire 0 w)
            end
  end.

(** ** What a trace shows *)

Definition is_tween_start (e : nat) (ev : Event) : bool :=
  match ev with
  | TweenStart _ e' => bool_decide (e' = e)
  | _ => false
  end.

(** How many tweens were started on [e]. *)
Definition tween_starts (e : nat) (tr : list Event) : nat :=
  length (List.filter (is_tween_start e) tr).

(** The texts written to [e], oldest first. *)
Fixpoint writes_to (e : nat) (tr : list Event) : list string :=
  match tr with
  | [] => []
  | SetText e' s :: tr' => if decide (e' = e) then s :: writes_to e tr' else writes_to e tr'
  | _ :: tr' => writes_to e tr'
  end.

(** The text [e] shows, the empty string for a key that denotes no node. *)
Definition text_of (e : nat) (w : World) : string :=
  match elements w !! e with
  | Some el => textContent el
  | None => EmptyString
  end.

(** [e.classList.contains('animated')] *)
Definition animated (e : nat) (w : World) : Prop :=
  exists el, elements w !! e = Some el /\ "animated" ∈ classList el.

(** [e] is among the targets of [Counters.observer]. *)
Definition observed (e : nat) (w : World) : Prop :=
  exists targets, observer w = Some targets /\ e ∈ targets.

(** ** The closures of one tween *)

(** [target / 50] *)
Definition increment_of `{R : Rounding} (target : Z) : Q := Js.div (inject_Z target) 50.

(** The value of [current] after [k] executions of [current += increment]. *)
Fixpoint current_after `{R : Rounding} (k : nat) (increment : Q) : Q :=
  match k with
  | O => 0%Q
  | S k' => Js.add (current_after k' increment) increment
  end.

(** The variables of [updateCounter] after it ran [k] times; [k = 0] is the
    closure that [animateCounter] creates. *)
Definition tween_at `{R : Rounding} (e : nat) (suffix : string) (target : Z) (k : nat) : Tween :=
  {| tw_element := e;
     tw_current := current_after k (increment_of target);
     tw_increment := increment_of target;
     tw_target := target;
     tw_suffix := suffix |}.

(** [Math.floor(current)] in the [k]-th execution and the text it renders. *)
Definition frame_value `{R : Rounding} (target : Z) (k : nat) : Z :=
  Qfloor (current_after k (increment_of target)).

Definition frame_text `{R : Rounding} (target : Z) (suffix : string) (k : nat) : string :=
  Js.number_to_string (frame_value target k) ++ suffix.

(** [target + suffix] *)
Definition final_text (target : Z) (suffix : string) : string :=
  Js.number_to_string target ++ suffix.

(** The pending [updateCounter] callbacks that write to [e]. *)
Fixpoint pending (e : nat) (cbs : list Callback) : list Tween :=
  match cbs with
  | [] => []
  | UpdateCounter tw :: cbs' =>
      if decide (tw_element tw = e) then tw :: pending e cbs' else pending e cbs'
  | HandleScrollAnimations :: cbs' => pending e cbs'
  end.

Definition mark (via : Path) (e : nat) (w : World) : World :=
  log (TweenStart via e)
    (set_elements (alter (add_class "animated") e (elements w)) w).

(** The frames a tween has written after [k] executions of [updateCounter]. *)
Definition frames `{R : Rounding} (target : Z) (suffix : string) (k : nat) : list string :=
  map (frame_text target suffix) (seq 1 k).

(** [current < target] held in each of the first [k] executions. *)
Definition below `{R : Rounding} (target : Z) (k : nat) : Prop :=
  forall j, (1 <= j <= k)%nat ->
    (current_after j (increment_of target) < inject_Z target)%Q.

(** ** The environment *)

(** What can happen to the page. *)
Inductive Action :=
| Init (scope : list nat)                  (* Counters.init(element) *)
| Intersect (entries : list (nat * bool))  (* the observer delivers entries *)
| Expire (i : nat)                         (* the i-th pending timer expires *)
| WindowLoad                               (* the 'load' event of window *)
| Reset.                                   (* Counters.reset() *)

(** The page after an outcome; an exception ends the handler that threw it
    and the event loop goes on. *)
Definition page (o : Outcome) : World :=
  match o with
  | Ok w => w
  | Throw _ w => w
  end.

Definition step `{R : Rounding} (a : Action) (w : World) : World :=
  match a with
  | Init scope => page (Counters.init scope w)
  | Intersect entries =>
      match observer w with          (* only an observer that exists calls back *)
      | Some _ => Counters.observerCallback entries w
      | None => w
      end
  | Expire i => fire i w
  | WindowLoad => page (EventManager.onWindowLoad w)
  | Reset => page (Counters.reset w)
  end.

Definition run `{R : Rounding} (actions : list Action) (w : World) : World :=
  foldl (fun w a => step a w) w actions.

Definition is_reset (a : Action) : bool :=
  match a with
  | Reset => true
  | _ => false
  end.

Definition no_reset (actions : list Action) : bool :=
  forallb (fun a => negb (is_reset a)) actions.

(** A page on which no script ran yet. *)
Definition fresh (w : World) : Prop :=
  timers w = [] /\ trace w = [] /\
  forall e el, elements w !! e = Some el -> "animated" ∉ classList el.

(** ** The state of one element, as the invariant sees it *)

Record Obs := {
  o_marked : bool;           (* classList.contains('animated') *)
  o_data : option string;
  o_text : string;
  o_pending : list Tween;
  o_starts : nat;
  o_writes : list string
}.

Definition obs (e : nat) (w : World) : option Obs :=
  match elements w !! e with
  | None => None
  | Some el =>
      Some {| o_marked := bool_decide ("animated" ∈ classList el);
              o_data := data_count el;
              o_text := textContent el;
              o_pending := pending e (timers w);
              o_starts := tween_starts e (trace w);
              o_writes := writes_to e (trace w) |}
  end.

Inductive Phase :=
| Waiting              (* not revealed *)
| Running (k : nat)    (* updateCounter ran k times and is scheduled again *)
| Finished (k : nat).  (* after k frames the final text is written *)

Definition phase_ok `{R : Rounding} (e : nat) (el0 : Element) (o : Obs) (ph : Phase) : Prop :=
  let suffix := Js.strip_digits (textContent el0) in
  o_data o = data_count el0 /\
  match ph with
  | Waiting =>
      o_marked o = false /\ o_text o = textContent el0 /\ o_pending o = [] /\
      o_starts o = 0%nat /\ o_writes o = []
  | Running k =>
      exists target,
        Js.parseInt_attr (data_count el0) = Some target /\
        (1 <= k)%nat /\ below target k /\
        o_marked o = true /\ o_text o = frame_text target suffix k /\
        o_pending o = [tween_at e suffix target k] /\
        o_starts o = 1%nat /\ o_writes o = frames target suffix k
  | Finished k =>
      exists target,
        Js.parseInt_attr (data_count el0) = Some target /\
        below target k /\
        (inject_Z target <= current_after (S k) (increment_of target))%Q /\
        o_marked o = true /\ o_text o = final_text target suffix /\
        o_pending o = [] /\
        o_starts o = 1%nat /\
        o_writes o = frames target suffix k ++ [final_text target suffix]
  end.

(** [w] is reachable from the page [w0] without a reset: every element is in
    one of the three phases, and no timer writes to a node that is not there. *)
Definition Inv `{R : Rounding} (w0 w : World) : Prop :=
  forall e,
    match elements w0 !! e with
    | None => elements w !! e = None /\ pending e (timers w) = []
    | Some el0 => exists o ph, obs e w = Some o /\ phase_ok e el0 o ph
    end.

(** Every target of the page is a safe integer. *)
Definition safe_targets (w : World) : Prop :=
  forall e el target,
    elements w !! e = Some el ->
    Js.parseInt_attr (data_count el) = Some target ->
    Z.abs target <= 2 ^ 53.

(** Each execution of [updateCounter] that does not end the tween raises
    [current] by at least this much, rounding included. *)
Definition min_step (target : Z) : Q := (inject_Z target * (49 # 2500))%Q.

(** A bound on the executions of [updateCounter] still to come. *)
Definition frames_left (cb : Callback) : nat :=
  match cb with
  | UpdateCounter tw =>
      Z.to_nat (Qceiling ((inject_Z (tw_target tw) - tw_current tw)
                          / min_step (tw_target tw)))
  | HandleScrollAnimations => 1
  end.

Definition work_left (cbs : list Callback) : nat :=
  list_sum (map frames_left cbs).

(** Two pages that the invariant cannot tell apart. *)
Definition same_view (w w' : World) : Prop :=
  forall e, obs e w' = obs e w /\ pending e (timers w') = pending e (timers w).

(** What no function but [reset] undoes: nodes stay, with their attribute
    and their place, and the marker is never removed. *)
Definition keeps (el el' : Element) : Prop :=
  data_count el' = data_count el /\
  rect_top el' = rect_top el /\ rect_bottom el' = rect_bottom el /\
  ("animated" ∈ classList el -> "animated" ∈ classList el').

Definition grows (w w' : World) : Prop :=
  has_IntersectionObserver w' = has_IntersectionObserver w /\
  innerHeight w' = innerHeight w /\ clientHeight w' = clientHeight w /\
  forall e,
    match elements w !! e with
    | Some el => exists el', elements w' !! e = Some el' /\ keeps el el'
    | None => elements w' !! e = None
    end.




(** Let every pending timer run out. *)
Definition settle `{R : Rounding} (w : World) : World := drain (work_left (timers w)) w.

(** The tween of [e] towards [target] is under way, or it has written its
    last text and that text still shows. *)
Definition winding_up `{R : Rounding} (e : nat) (suffix : string) (target : Z) (w : World) : Prop :=
  is_Some (elements w !! e) /\
  ((exists k, pending e (timers w) = [tween_at e suffix target k]) \/
   (pending e (timers w) = [] /\ text_of e w = final_text target suffix)).

(** Two positions given to [window.scrollTo] are the same number, or both
    are none. *)
Definition same_run (a b : option Q) : Prop :=
  match a, b with
  | Some x, Some y => (x == y)%Q
  | None, None => True
  | _, _ => False
  end.

(** [Helpers.scrollTo(element)] with no options. *)
Definition no_options : ScrollOptions :=
  {| opt_offset := None; opt_duration := None; opt_easing := None |}.

(** ** What happens to a debounced and to a throttled function *)

Inductive DebounceEvent (A : Type) :=
| DebouncedCall (args : A)      (* the debounced function is called *)
| DebounceTimer (id : nat).     (* the timer [id] expires, if it is pending *)

Arguments DebouncedCall {A} _.
Arguments DebounceTimer {A} _.

Definition debounce_step {A : Type} (d : Helpers.Debounced A) (ev : DebounceEvent A)
    : Helpers.Debounced A :=
  match ev with
  | DebouncedCall args => Helpers.executedFunction args d
  | DebounceTimer id => Helpers.debounce_expire id d
  end.

Definition debounce_run {A : Type} (events : list (DebounceEvent A)) (d : Helpers.Debounced A)
    : Helpers.Debounced A :=
  foldl debounce_step d events.

(** The arguments of the calls among the events, oldest first. *)
Definition debounced_calls {A : Type} (events : list (DebounceEvent A)) : list A :=
  omap (fun ev => match ev with DebouncedCall args => Some args | DebounceTimer _ => None end)
    events.

Inductive ThrottleEvent (A : Type) :=
| ThrottledCall (args : A) (throws : bool)   (* the throttled function is called *)
| ThrottleTimer (id : nat).                  (* the timer [id] expires, if it is pending *)

Arguments ThrottledCall {A} _ _.
Arguments ThrottleTimer {A} _.

Definition throttle_step {A : Type} (t : Helpers.Throttled A) (ev : ThrottleEvent A)
    : Helpers.Throttled A :=
  match ev with
  | ThrottledCall args throws => Helpers.throttled args throws t
  | ThrottleTimer id => Helpers.throttle_expire id t
  end.

Definition throttle_run {A : Type} (events : list (ThrottleEvent A)) (t : Helpers.Throttled A)
    : Helpers.Throttled A :=
  foldl throttle_step t events.

(** How many timers expire, and how many calls find [func] throwing. *)
Definition throttle_timers {A : Type} (events : list (ThrottleEvent A)) : nat :=
  length (List.filter (fun ev => match ev with ThrottleTimer _ => true | _ => false end) events).

Definition throttle_throws {A : Type} (events : list (ThrottleEvent A)) : nat :=
  length (List.filter (fun ev => match ev with ThrottledCall _ true => true | _ => false end)
            events).

(** ** Sample pages *)

Module Sample.

(** [<div class="stat-number" data-count=DATA>TEXT</div>] laid out between
    [top] and [bottom]. *)
Definition stat (data text : string) (top bottom : Q) : Element :=
  {| classList := {["stat-number"]};
     data_count := Some data;
     textContent := text;
     rect_top := top;
     rect_bottom := bottom |}.

(** A page 1000 pixels high with three counters: the first is on screen, the
    others are far below; the second has a target that does not parse. *)
Definition landing (io : bool) : World :=
  {| has_IntersectionObserver := io;
     innerHeight := 1000;
     clientHeight := 1000;
     elements := <[0%nat := stat "1500" "1500+" 100 150]>
                 (<[1%nat := stat "abc" "abc" 5000 5050]>
                 (<[2%nat := stat "7" "0%" 6000 6050]> ∅));
     counters := None;
     observer := None;
     timers := [];
     trace := [] |}.

(** An element 50 pixels above the 85% line of [landing]. *)
Definition near_fold : Element := stat "12" "12" 800 900.

(** [<div class=CLASSES data-count=DATA>TEXT</div>] *)
Definition block (classes : gset string) (data : option string) (text : string)
    (top bottom : Q) : Element :=
  {| classList := classes;
     data_count := data;
     textContent := text;
     rect_top := top;
     rect_bottom := bottom |}.

(** A page 1000 pixels high: a [.fade-in] heading on screen, a [.slide-up]
    paragraph far below, and a counter on screen that fades in as well. *)
Definition brochure : World :=
  {| has_IntersectionObserver := true;
     innerHeight := 1000;
     clientHeight := 1000;
     elements := <[0%nat := block {["fade-in"]} None "Courses" 100 150]>
                 (<[1%nat := block {["slide-up"]} None "Contact" 5000 5050]>
                 (<[2%nat := block ({["stat-number"]} ∪ {["fade-in"]}) (Some "40") "40k" 300 350]> ∅));
     counters := None;
     observer := None;
     timers := [];
     trace := [] |}.

End Sample.

(** * Properties *)

Section WithRounding.

Context `{R : Rounding}.

(** ** The viewport probe *)

Lemma isInViewport_spec (w : World) (el : Element) (offset : Q) :
  Helpers.isInViewport w el offset = true <->
  (rect_top el <=
   Js.add (Js.mul (Helpers.viewportHeight w) (Js.literal (85 # 100))) offset /\
   Js.sub 0 offset <= rect_bottom el)%Q.
Proof.
  unfold Helpers.isInViewport.
  now rewrite andb_true_iff, !Qle_bool_iff.
Qed.

(** ** One call of [animateCounter] *)

Lemma animateCounter_missing via e (w : World) :
  elements w !! e = None -> Counters.animateCounter via e w = w.
Proof. intros H. unfold Counters.animateCounter. now rewrite H. Qed.

Lemma animateCounter_marked via e (w : World) el :
  elements w !! e = Some el -> "animated" ∈ classList el ->
  Counters.animateCounter via e w = w.
Proof.
  intros H Hm. unfold Counters.animateCounter. rewrite H.
  destruct (decide ("animated" ∈ classList el)); [reflexivity | contradiction].
Qed.

Lemma animateCounter_unparsable via e (w : World) el :
  elements w !! e = Some el -> Js.parseInt_attr (data_count el) = None ->
  Counters.animateCounter via e w = w.
Proof.
  intros H Hp. unfold Counters.animateCounter. rewrite H, Hp.
  destruct (decide ("animated" ∈ classList el)); reflexivity.
Qed.

Lemma animateCounter_start via e (w : World) el target :
  elements w !! e = Some el -> "animated" ∉ classList el ->
  Js.parseInt_attr (data_count el) = Some target ->
  Counters.animateCounter via e w =
  Counters.updateCounter (tween_at e (Js.strip_digits (textContent el)) target 0) (mark via e w).
Proof.
  intros H Hm Hp. unfold Counters.animateCounter. rewrite H, Hp.
  destruct (decide ("animated" ∈ classList el)); [contradiction | reflexivity].
Qed.

(** [updateCounter] touches the text of its element and nothing else of the
    store. *)
Lemma updateCounter_elements tw (w : World) :
  exists s, elements (Counters.updateCounter tw w) =
            alter (set_textContent s) (tw_element tw) (elements w).
Proof.
  unfold Counters.updateCounter.
  destruct (Qlt_le_dec _ _); eexists; reflexivity.
Qed.

Lemma updateCounter_classList tw (w : World) e :
  classList <$> (elements (Counters.updateCounter tw w) !! e) =
  classList <$> (elements w !! e).
Proof.
  destruct (updateCounter_elements tw w) as [s ->].
  destruct (decide (tw_element tw = e)) as [->|Hne].
  - rewrite lookup_alter_eq. destruct (elements w !! e); reflexivity.
  - now rewrite lookup_alter_ne.
Qed.

Lemma animateCounter_sets_marker via e (w : World) el target :
  elements w !! e = Some el -> "animated" ∉ classList el ->
  Js.parseInt_attr (data_count el) = Some target ->
  animated e (Counters.animateCounter via e w).
Proof.
  intros H Hm Hp. rewrite (animateCounter_start via e w el target H Hm Hp).
  pose proof (updateCounter_classList (tween_at e (Js.strip_digits (textContent el)) target 0) (mark via e w) e) as Hc.
  cbn [mark log set_elements elements] in Hc.
  rewrite lookup_alter_eq, H in Hc. cbn in Hc.
  destruct (elements (Counters.updateCounter _ _) !! e) as [el'|] eqn:He'; [|discriminate].
  exists el'. split; [exact He'|].
  cbn in Hc. injection Hc as ->. set_solver.
Qed.

(** A second call finds the marker, or fails to parse again: it changes
    nothing. *)
Lemma animateCounter_idempotent via via' e (w : World) :
  Counters.animateCounter via' e (Counters.animateCounter via e w) =
  Counters.animateCounter via e w.
Proof.
  destruct (elements w !! e) as [el|] eqn:He.
  2:{ rewrite (animateCounter_missing via e w He). now apply animateCounter_missing. }
  destruct (decide ("animated" ∈ classList el)) as [Hm|Hm].
  { rewrite (animateCounter_marked via e w el He Hm). now apply animateCounter_marked with el. }
  destruct (Js.parseInt_attr (data_count el)) as [target|] eqn:Hp.
  2:{ rewrite (animateCounter_unparsable via e w el He Hp).
      now apply animateCounter_unparsable with el. }
  destruct (animateCounter_sets_marker via e w el target He Hm Hp) as (el' & He' & Hm').
  now apply animateCounter_marked with el'.
Qed.

(** ** Arithmetic of the tween *)

Ltac no_div := unfold Qdiv in *; cbn [Qinv Qnum Qden] in *.

Lemma rnd_zero : (rnd 0 == 0)%Q.
Proof. apply (rnd_int 0). cbn. lia. Qed.

Lemma rnd_proper x y : (x == y)%Q -> (rnd x == rnd y)%Q.
Proof.
  intros H. apply Qle_antisym; apply rnd_mono; rewrite H; apply Qle_refl.
Qed.

(** [current] is a double after every execution. *)
Lemma current_fixed k inc : (rnd (current_after k inc) == current_after k inc)%Q.
Proof.
  destruct k as [|k]; cbn [current_after]; [apply rnd_zero|].
  unfold Js.add. apply rnd_idem.
Qed.

Lemma increment_nonneg target : 0 <= target -> (0 <= increment_of target)%Q.
Proof.
  intros HT. unfold increment_of, Js.div.
  rewrite <- rnd_zero. apply rnd_mono.
  assert (Hq : (0 <= inject_Z target)%Q) by (change 0%Q with (inject_Z 0); now rewrite <- Zle_Qle).
  no_div. lra.
Qed.

Lemma current_mono_step k inc :
  (0 <= inc)%Q -> (current_after k inc <= current_after (S k) inc)%Q.
Proof.
  intros Hinc. cbn [current_after]. unfold Js.add.
  rewrite <- (current_fixed k inc) at 1. apply rnd_mono. lra.
Qed.

Lemma current_mono j k inc :
  (0 <= inc)%Q -> (j <= k)%nat -> (current_after j inc <= current_after k inc)%Q.
Proof.
  intros Hinc Hjk. induction Hjk as [|k Hjk IH]; [apply Qle_refl|].
  eapply Qle_trans; [exact IH|now apply current_mono_step].
Qed.

Lemma current_nonneg k inc : (0 <= inc)%Q -> (0 <= current_after k inc)%Q.
Proof. intros Hinc. apply (current_mono 0 k inc Hinc). lia. Qed.

Lemma safe_target_Q target :
  Z.abs target <= 2 ^ 53 ->
  (- (9007199254740992 # 1) <= inject_Z target <= 9007199254740992 # 1)%Q.
Proof.
  intros H. split.
  - change (- (9007199254740992 # 1))%Q with (inject_Z (- 2 ^ 53)). rewrite <- Zle_Qle. lia.
  - change (9007199254740992 # 1)%Q with (inject_Z (2 ^ 53)). rewrite <- Zle_Qle. lia.
Qed.

Lemma positive_target_Q target : 0 < target -> (1 <= inject_Z target)%Q.
Proof. intros H. change 1%Q with (inject_Z 1). rewrite <- Zle_Qle. lia. Qed.

(** [target / 50], rounded. *)
Lemma increment_bounds target :
  0 < target -> Z.abs target <= 2 ^ 53 ->
  ((1 - unit_roundoff) * (inject_Z target / 50) <= increment_of target /\
   increment_of target <= (1 + unit_roundoff) * (inject_Z target / 50))%Q.
Proof.
  intros HT Hsafe. unfold increment_of, Js.div.
  pose proof (safe_target_Q target Hsafe) as [_ Hhi].
  pose proof (positive_target_Q target HT) as Hlo.
  apply rnd_error.
  - no_div. lra.
  - change (inject_Z (2 ^ 54)) with (18014398509481984 # 1)%Q. no_div. lra.
Qed.

(** An execution that does not end the tween raises [current] by at least
    [min_step], whatever the rounding. *)
Lemma progress target c :
  0 < target -> Z.abs target <= 2 ^ 53 ->
  (0 <= c)%Q -> (c < inject_Z target)%Q ->
  (c + min_step target <= Js.add c (increment_of target))%Q.
Proof.
  intros HT Hsafe Hc0 HcT.
  pose proof (safe_target_Q target Hsafe) as [_ Hhi].
  pose proof (positive_target_Q target HT) as Hlo.
  destruct (increment_bounds target HT Hsafe) as [Hinc1 Hinc2].
  unfold Js.add, min_step. unfold unit_roundoff in *. no_div.
  destruct (rnd_error (c + increment_of target)) as [Hr _].
  - lra.
  - change (inject_Z (2 ^ 54)) with (18014398509481984 # 1)%Q. lra.
  - unfold unit_roundoff in Hr. lra.
Qed.

(** A target that is not positive ends the tween in the first execution. *)
Lemma nonpositive_target_ends target :
  target <= 0 -> Z.abs target <= 2 ^ 53 ->
  (inject_Z target <= current_after 1 (increment_of target))%Q.
Proof.
  intros HT Hsafe. cbn [current_after]. unfold Js.add.
  assert (Hq : (inject_Z target <= 0)%Q) by (change 0%Q with (inject_Z 0); now rewrite <- Zle_Qle).
  assert (Hinc : (inject_Z target <= increment_of target)%Q).
  { unfold increment_of, Js.div. rewrite <- (rnd_int target Hsafe) at 1.
    apply rnd_mono. no_div. lra. }
  rewrite (rnd_proper (0 + increment_of target) (increment_of target)) by ring.
  unfold increment_of, Js.div in *. now rewrite rnd_idem.
Qed.

Lemma below_positive target :
  Z.abs target <= 2 ^ 53 -> below target 1 -> 0 < target.
Proof.
  intros Hsafe Hb. destruct (Z_lt_le_dec 0 target) as [Hpos|Hneg]; [exact Hpos|].
  pose proof (nonpositive_target_ends target Hneg Hsafe) as Hend.
  specialize (Hb 1%nat ltac:(lia)). lra.
Qed.

Lemma below_le target j k : (j <= k)%nat -> below target k -> below target j.
Proof. intros Hjk Hb i Hi. apply Hb. lia. Qed.

Lemma below_S target k :
  below target k ->
  (current_after (S k) (increment_of target) < inject_Z target)%Q ->
  below target (S k).
Proof.
  intros Hb Hlt j Hj. destruct (decide (j = S k)) as [->|Hne]; [exact Hlt|].
  apply Hb. lia.
Qed.

Lemma frame_value_mono target j k :
  0 <= target -> (j <= k)%nat -> frame_value target j <= frame_value target k.
Proof.
  intros HT Hjk. unfold frame_value. apply Qfloor_resp_le.
  apply current_mono; [now apply increment_nonneg|exact Hjk].
Qed.

Lemma frame_value_bounds target k j :
  0 <= target -> below target k -> (1 <= j <= k)%nat ->
  0 <= frame_value target j < target.
Proof.
  intros HT Hb Hj. unfold frame_value. split.
  - change 0 with (Qfloor 0). apply Qfloor_resp_le.
    apply current_nonneg. now apply increment_nonneg.
  - rewrite Zlt_Qlt.
    apply Qle_lt_trans with (current_after j (increment_of target)).
    + apply Qfloor_le.
    + now apply Hb.
Qed.

(** ** One execution of [updateCounter] *)

Lemma updateCounter_frame e suffix target k (w : World) :
  (current_after (S k) (increment_of target) < inject_Z target)%Q ->
  Counters.updateCounter (tween_at e suffix target k) w =
  setTimeout (UpdateCounter (tween_at e suffix target (S k)))
    (write_text e (frame_text target suffix (S k)) w).
Proof.
  intros Hlt. unfold Counters.updateCounter.
  cbn [tween_at tw_element tw_current tw_increment tw_target tw_suffix].
  change (Js.add (current_after k (increment_of target)) (increment_of target))
    with (current_after (S k) (increment_of target)).
  destruct (Qlt_le_dec _ _) as [Hlt'|Hle]; [reflexivity|lra].
Qed.

Lemma updateCounter_final e suffix target k (w : World) :
  (inject_Z target <= current_after (S k) (increment_of target))%Q ->
  Counters.updateCounter (tween_at e suffix target k) w =
  write_text e (final_text target suffix) w.
Proof.
  intros Hge. unfold Counters.updateCounter.
  cbn [tween_at tw_element tw_current tw_increment tw_target tw_suffix].
  change (Js.add (current_after k (increment_of target)) (increment_of target))
    with (current_after (S k) (increment_of target)).
  destruct (Qlt_le_dec _ _) as [Hlt|Hle]; [lra|reflexivity].
Qed.

(** ** Reading a trace and a timer list *)

Lemma writes_to_app e tr1 tr2 :
  writes_to e (tr1 ++ tr2) = writes_to e tr1 ++ writes_to e tr2.
Proof.
  induction tr1 as [|ev tr1 IH]; [reflexivity|].
  destruct ev; cbn [writes_to app]; try exact IH.
  destruct (decide _); cbn; now rewrite IH.
Qed.

Lemma tween_starts_app e tr1 tr2 :
  tween_starts e (tr1 ++ tr2) = (tween_starts e tr1 + tween_starts e tr2)%nat.
Proof. unfold tween_starts. now rewrite List.filter_app, length_app. Qed.

Lemma pending_app e l1 l2 :
  pending e (l1 ++ l2) = pending e l1 ++ pending e l2.
Proof.
  induction l1 as [|cb l1 IH]; [reflexivity|].
  destruct cb as [tw|]; cbn [pending app]; try exact IH.
  destruct (decide _); cbn; now rewrite IH.
Qed.

Lemma pending_delete_other e l i cb :
  l !! i = Some cb -> pending e [cb] = [] ->
  pending e (delete i l) = pending e l.
Proof.
  intros Hi Hcb.
  rewrite <- (take_drop_middle l i cb Hi) at 2.
  rewrite delete_take_drop, !pending_app.
  change (cb :: drop (S i) l) with ([cb] ++ drop (S i) l).
  now rewrite pending_app, Hcb.
Qed.

Lemma pending_delete_only e l i tw tw' :
  l !! i = Some (UpdateCounter tw) -> tw_element tw = e ->
  pending e l = [tw'] ->
  tw' = tw /\ pending e (delete i l) = [].
Proof.
  intros Hi He Hp.
  rewrite <- (take_drop_middle l i _ Hi) in Hp.
  rewrite pending_app in Hp. cbn [pending] in Hp.
  destruct (decide (tw_element tw = e)); [|contradiction].
  rewrite delete_take_drop, pending_app.
  destruct (pending e (take i l)) as [|x xs].
  - cbn in Hp. injection Hp as -> Hrest. now rewrite Hrest.
  - cbn in Hp. injection Hp as -> Hrest.
    destruct xs; discriminate.
Qed.

Lemma pending_In e l tw :
  In (UpdateCounter tw) l -> tw_element tw = e -> In tw (pending e l).
Proof.
  intros Hin He. induction l as [|cb l IH]; [destruct Hin|].
  destruct Hin as [->|Hin].
  - cbn. destruct (decide _); [now left|contradiction].
  - destruct cb as [tw0|]; cbn; [destruct (decide _)|]; try right; now apply IH.
Qed.

(** ** The invariant of a page that is not reset *)

Ltac expose :=
  cbn [elements timers trace counters observer has_IntersectionObserver
       innerHeight clientHeight
       write_text setTimeout log mark set_elements set_timers set_observer
       set_counters] in *.

Lemma obs_congr e (w w' : World) :
  elements w' !! e = elements w !! e ->
  pending e (timers w') = pending e (timers w) ->
  tween_starts e (trace w') = tween_starts e (trace w) ->
  writes_to e (trace w') = writes_to e (trace w) ->
  obs e w' = obs e w.
Proof. intros H1 H2 H3 H4. unfold obs. now rewrite H1, H2, H3, H4. Qed.

Lemma obs_None e (w : World) : obs e w = None <-> elements w !! e = None.
Proof. unfold obs. destruct (elements w !! e); split; congruence. Qed.

Lemma same_view_refl w : same_view w w.
Proof. intros e. split; reflexivity. Qed.

Lemma same_view_trans w1 w2 w3 :
  same_view w1 w2 -> same_view w2 w3 -> same_view w1 w3.
Proof.
  intros H12 H23 e. destruct (H12 e) as [E1 P1]. destruct (H23 e) as [E2 P2].
  split; congruence.
Qed.

Lemma Inv_same_view w0 w w' : Inv w0 w -> same_view w w' -> Inv w0 w'.
Proof.
  intros HI Hv e. specialize (HI e). destruct (Hv e) as [Ho Hp].
  destruct (elements w0 !! e) as [el0|].
  - destruct HI as (o & ph & Hobs & Hok). exists o, ph. split; [congruence|exact Hok].
  - destruct HI as [Hnone Hpend]. split; [|congruence].
    apply obs_None. rewrite Ho. now apply obs_None.
Qed.

Lemma tween_starts_snoc_other e tr ev :
  is_tween_start e ev = false -> tween_starts e (tr ++ [ev]) = tween_starts e tr.
Proof.
  intros H. rewrite tween_starts_app. unfold tween_starts at 2. cbn. rewrite H. cbn. lia.
Qed.

Lemma same_view_observe e w : same_view w (Counters.observe e w).
Proof.
  unfold Counters.observe. destruct (observer w); [|apply same_view_refl].
  intros e'. split; [apply obs_congr|]; expose; try reflexivity.
  - now apply tween_starts_snoc_other.
  - now rewrite writes_to_app, app_nil_r.
Qed.

Lemma same_view_unobserve e w : same_view w (Counters.unobserve e w).
Proof.
  unfold Counters.unobserve. destruct (observer w); [|apply same_view_refl].
  intros e'. split; [apply obs_congr|]; expose; try reflexivity.
  - now apply tween_starts_snoc_other.
  - now rewrite writes_to_app, app_nil_r.
Qed.

Lemma same_view_set_counters c w : same_view w (set_counters c w).
Proof. intros e. split; reflexivity. Qed.

Lemma same_view_set_observer o w : same_view w (set_observer o w).
Proof. intros e. split; reflexivity. Qed.

Lemma same_view_setTimeout_scroll w : same_view w (setTimeout HandleScrollAnimations w).
Proof.
  assert (Hp : forall e, pending e (timers (setTimeout HandleScrollAnimations w)) =
                         pending e (timers w)).
  { intros e. expose. now rewrite pending_app, app_nil_r. }
  intros e. split; [apply obs_congr|]; try apply Hp; reflexivity.
Qed.

Lemma same_view_handleScrollAnimations w :
  same_view w (Animations.handleScrollAnimations w).
Proof.
  intros e. split; [|reflexivity].
  unfold obs, Animations.handleScrollAnimations. expose.
  rewrite lookup_fmap. destruct (elements w !! e) as [el|]; [|reflexivity].
  cbn. destruct (_ && _); [|reflexivity].
  cbn. f_equal. f_equal. apply bool_decide_ext.
  rewrite elem_of_union, elem_of_singleton. split; [|now right].
  intros [Heq|Hin]; [discriminate Heq|exact Hin].
Qed.

(** How the primitive writes change the view of an element. *)

Lemma obs_write_text_other e e' s w :
  e' <> e -> obs e' (write_text e s w) = obs e' w.
Proof.
  intros Hne. apply obs_congr; expose; try reflexivity.
  - now rewrite lookup_alter_ne.
  - apply tween_starts_snoc_other. reflexivity.
  - rewrite writes_to_app. cbn. destruct (decide (e = e')); [congruence|apply app_nil_r].
Qed.

Lemma obs_write_text_same e s w :
  obs e (write_text e s w) =
  (fun o => {| o_marked := o_marked o; o_data := o_data o; o_text := s;
               o_pending := o_pending o; o_starts := o_starts o;
               o_writes := o_writes o ++ [s] |}) <$> obs e w.
Proof.
  unfold obs. expose. rewrite lookup_alter_eq.
  destruct (elements w !! e) as [el|]; [|reflexivity].
  cbn. rewrite writes_to_app, tween_starts_snoc_other by reflexivity.
  cbn. destruct (decide (e = e)); [reflexivity|congruence].
Qed.

Lemma obs_mark_other via e e' w :
  e' <> e -> obs e' (mark via e w) = obs e' w.
Proof.
  intros Hne. apply obs_congr; expose; try reflexivity.
  - now rewrite lookup_alter_ne.
  - apply tween_starts_snoc_other. cbn. now apply bool_decide_eq_false.
  - rewrite writes_to_app. apply app_nil_r.
Qed.

Lemma obs_mark_same via e w :
  obs e (mark via e w) =
  (fun o => {| o_marked := true; o_data := o_data o; o_text := o_text o;
               o_pending := o_pending o; o_starts := S (o_starts o);
               o_writes := o_writes o |}) <$> obs e w.
Proof.
  unfold obs. expose. rewrite lookup_alter_eq.
  destruct (elements w !! e) as [el|]; [|reflexivity].
  cbn [fmap option_fmap option_map add_class set_classList classList data_count textContent
       o_marked o_data o_text o_pending o_starts o_writes].
  rewrite writes_to_app, tween_starts_app, app_nil_r.
  unfold tween_starts at 2. cbn [List.filter is_tween_start length].
  rewrite (bool_decide_eq_true_2 (e = e)) by reflexivity.
  rewrite (bool_decide_eq_true_2 ("animated" ∈ {["animated"]} ∪ classList el)).
  - cbn [length]. now rewrite Nat.add_1_r.
  - apply elem_of_union. left. now apply elem_of_singleton.
Qed.

Lemma obs_set_timers e l w :
  obs e (set_timers l w) =
  (fun o => {| o_marked := o_marked o; o_data := o_data o; o_text := o_text o;
               o_pending := pending e l; o_starts := o_starts o;
               o_writes := o_writes o |}) <$> obs e w.
Proof. unfold obs. expose. destruct (elements w !! e); reflexivity. Qed.

Lemma obs_setTimeout cb e w :
  obs e (setTimeout cb w) =
  (fun o => {| o_marked := o_marked o; o_data := o_data o; o_text := o_text o;
               o_pending := o_pending o ++ pending e [cb]; o_starts := o_starts o;
               o_writes := o_writes o |}) <$> obs e w.
Proof.
  unfold setTimeout. rewrite obs_set_timers. unfold obs.
  destruct (elements w !! e); [|reflexivity]. cbn. now rewrite pending_app.
Qed.

Lemma obs_pending e w o : obs e w = Some o -> o_pending o = pending e (timers w).
Proof.
  unfold obs. destruct (elements w !! e); [|discriminate].
  intros [= <-]. reflexivity.
Qed.

Lemma obs_lookup e w o :
  obs e w = Some o ->
  exists el, elements w !! e = Some el /\
             o_marked o = bool_decide ("animated" ∈ classList el) /\
             o_data o = data_count el /\ o_text o = textContent el.
Proof.
  unfold obs. destruct (elements w !! e) as [el|]; [|discriminate].
  intros [= <-]. exists el. repeat split; reflexivity.
Qed.

Lemma frames_S target suffix k :
  frames target suffix (S k) = frames target suffix k ++ [frame_text target suffix (S k)].
Proof. unfold frames. rewrite seq_S, map_app. reflexivity. Qed.

Lemma pending_singleton_other e tw : tw_element tw <> e -> pending e [UpdateCounter tw] = [].
Proof. intros H. cbn. destruct (decide _); [contradiction|reflexivity]. Qed.

Lemma pending_singleton_same tw : pending (tw_element tw) [UpdateCounter tw] = [tw].
Proof. cbn. destruct (decide _); [reflexivity|congruence]. Qed.

Lemma pending_singleton_at e suffix target k :
  pending e [UpdateCounter (tween_at e suffix target k)] = [tween_at e suffix target k].
Proof. apply (pending_singleton_same (tween_at e suffix target k)). Qed.

(** A started tween: its element goes from [Waiting] to [Running 1] or, when
    the first execution ends it, to [Finished 0]; every other element keeps
    its view. *)
Lemma Inv_animateCounter w0 w via e :
  Inv w0 w -> Inv w0 (Counters.animateCounter via e w).
Proof.
  intros HI.
  destruct (elements w !! e) as [el|] eqn:He.
  2:{ now rewrite animateCounter_missing. }
  destruct (decide ("animated" ∈ classList el)) as [Hm|Hm].
  { now rewrite (animateCounter_marked via e w el He Hm). }
  destruct (Js.parseInt_attr (data_count el)) as [target|] eqn:Hp.
  2:{ now rewrite (animateCounter_unparsable via e w el He Hp). }
  rewrite (animateCounter_start via e w el target He Hm Hp).
  set (suffix := Js.strip_digits (textContent el)).
  intros e'. pose proof (HI e') as HIe'.
  destruct (decide (e' = e)) as [->|Hne].
  - (* the element itself *)
    destruct (elements w0 !! e) as [el0|]; [|destruct HIe' as [Hn _]; congruence].
    destruct HIe' as (o & ph & Hobs & Hdata & Hph).
    destruct (obs_lookup e w o Hobs) as (el' & He' & Hmk & Hd & Ht).
    rewrite He in He'. injection He' as <-.
    rewrite bool_decide_eq_false_2 in Hmk by exact Hm.
    destruct ph as [|k|k];
      [|destruct Hph as (? & _ & _ & _ & Hmk' & _); congruence
       |destruct Hph as (? & _ & _ & _ & Hmk' & _); congruence].
    destruct Hph as (_ & Htext & Hpend & Hstarts & Hwrites).
    assert (Hsuf : suffix = Js.strip_digits (textContent el0)).
    { unfold suffix. now rewrite <- Ht, Htext. }
    assert (Hp0 : Js.parseInt_attr (data_count el0) = Some target).
    { now rewrite <- Hdata, Hd. }
    assert (Hb0 : below target 0) by (intros j Hj; lia).
    destruct (Qlt_le_dec (current_after 1 (increment_of target)) (inject_Z target))
      as [Hlt|Hge].
    + rewrite updateCounter_frame by exact Hlt.
      eexists. exists (Running 1).
      rewrite obs_setTimeout, obs_write_text_same, obs_mark_same, Hobs. cbn [fmap option_fmap option_map].
      split; [reflexivity|].
      split; [exact Hdata|]. exists target.
      cbn [o_marked o_data o_text o_pending o_starts o_writes].
      rewrite Hpend, Hstarts, Hwrites, <- Hsuf.
      rewrite pending_singleton_at.
      split; [exact Hp0|]. split; [lia|]. split; [now apply below_S|].
      repeat split; reflexivity.
    + rewrite updateCounter_final by exact Hge.
      eexists. exists (Finished 0).
      rewrite obs_write_text_same, obs_mark_same, Hobs. cbn [fmap option_fmap option_map].
      split; [reflexivity|].
      split; [exact Hdata|]. exists target.
      cbn [o_marked o_data o_text o_pending o_starts o_writes].
      rewrite Hpend, Hstarts, Hwrites, <- Hsuf.
      split; [exact Hp0|]. split; [exact Hb0|]. split; [exact Hge|].
      repeat split; reflexivity.
  - (* another element *)
    assert (Hobs' : obs e' (Counters.updateCounter (tween_at e suffix target 0) (mark via e w))
                    = obs e' w /\
                    pending e' (timers (Counters.updateCounter (tween_at e suffix target 0)
                                          (mark via e w))) = pending e' (timers w)).
    { destruct (Qlt_le_dec (current_after 1 (increment_of target)) (inject_Z target))
        as [Hlt|Hge].
      - rewrite updateCounter_frame by exact Hlt. split.
        + rewrite obs_setTimeout, obs_write_text_other, obs_mark_other by assumption.
          rewrite pending_singleton_other by (cbn; congruence).
          destruct (obs e' w) as [o|]; [|reflexivity]. cbn. rewrite app_nil_r. now destruct o.
        + expose. rewrite pending_app, pending_singleton_other by (cbn; congruence).
          apply app_nil_r.
      - rewrite updateCounter_final by exact Hge. split.
        + now rewrite obs_write_text_other, obs_mark_other by assumption.
        + reflexivity. }
    destruct Hobs' as [Ho Hpd].
    destruct (elements w0 !! e') as [el0|].
    + destruct HIe' as (o & ph & Hobs & Hok). exists o, ph. split; [congruence|exact Hok].
    + destruct HIe' as [Hnone Hpend]. split; [|congruence].
      apply obs_None. rewrite Ho. now apply obs_None.
Qed.

Lemma obs_set_timers_same e l w :
  pending e l = pending e (timers w) -> obs e (set_timers l w) = obs e w.
Proof. intros H. apply obs_congr; expose; try reflexivity. exact H. Qed.

Lemma obs_setTimeout_other e tw w :
  tw_element tw <> e -> obs e (setTimeout (UpdateCounter tw) w) = obs e w.
Proof.
  intros H. apply obs_congr; expose; try reflexivity.
  rewrite pending_app, pending_singleton_other by exact H. apply app_nil_r.
Qed.

(** An expired timer: a tween goes from [Running k] to [Running (S k)] or to
    [Finished k]; the scroll callback changes no view. *)
Lemma Inv_fire w0 w i : Inv w0 w -> Inv w0 (fire i w).
Proof.
  intros HI. unfold fire.
  destruct (timers w !! i) as [cb|] eqn:Hi; [|exact HI].
  destruct cb as [tw|]; cbn [run_callback].
  2:{ (* the scroll callback *)
      apply Inv_same_view with w; [exact HI|].
      apply same_view_trans with (set_timers (delete i (timers w)) w);
        [|apply same_view_handleScrollAnimations].
      intros e.
      assert (Hp : pending e (delete i (timers w)) = pending e (timers w))
        by (now apply pending_delete_other with HandleScrollAnimations).
      split; [now apply obs_set_timers_same|exact Hp]. }
  remember (tw_element tw) as e eqn:Ee.
  assert (Hin : In tw (pending e (timers w))).
  { apply pending_In; [|now symmetry]. apply list_elem_of_In.
    now apply list_elem_of_lookup_2 with i. }
  pose proof (HI e) as HIe.
  destruct (elements w0 !! e) as [el0|] eqn:He0;
    [|destruct HIe as [_ Hpe]; rewrite Hpe in Hin; destruct Hin].
  destruct HIe as (o & ph & Hobs & Hdata & Hph).
  pose proof (obs_pending e w o Hobs) as Hop.
  destruct ph as [|k|k];
    [destruct Hph as (_ & _ & Hpe & _); rewrite <- Hop, Hpe in Hin; destruct Hin
    | |destruct Hph as (? & _ & _ & _ & _ & _ & Hpe & _);
       rewrite <- Hop, Hpe in Hin; destruct Hin].
  destruct Hph as (target & Hp0 & Hk & Hb & Hmk & Htext & Hpe & Hstarts & Hwrites).
  set (suffix := Js.strip_digits (textContent el0)) in *.
  rewrite Hop in Hpe.
  destruct (pending_delete_only e (timers w) i tw _ Hi (eq_sym Ee) Hpe) as [Htw Hdel].
  subst tw. clear Hin Ee.
  set (w1 := set_timers (delete i (timers w)) w).
  assert (Hobs1 : obs e w1 =
                  Some {| o_marked := o_marked o; o_data := o_data o; o_text := o_text o;
                          o_pending := []; o_starts := o_starts o; o_writes := o_writes o |}).
  { unfold w1. rewrite obs_set_timers, Hobs. cbn. now rewrite Hdel. }
  assert (Hother : forall e', e' <> e ->
            obs e' w1 = obs e' w /\ pending e' (timers w1) = pending e' (timers w)).
  { intros e' Hne.
    assert (Hp : pending e' (delete i (timers w)) = pending e' (timers w)).
    { apply pending_delete_other with (UpdateCounter (tween_at e suffix target k));
        [exact Hi|]. apply pending_singleton_other. cbn. congruence. }
    split; [now apply obs_set_timers_same|exact Hp]. }
  intros e'. pose proof (HI e') as HIe'.
  destruct (decide (e' = e)) as [->|Hne].
  - rewrite He0.
    destruct (Qlt_le_dec (current_after (S k) (increment_of target)) (inject_Z target))
      as [Hlt|Hge].
    + rewrite updateCounter_frame by exact Hlt.
      eexists. exists (Running (S k)).
      rewrite obs_setTimeout, obs_write_text_same, Hobs1. cbn [fmap option_fmap option_map].
      split; [reflexivity|].
      split; [exact Hdata|]. exists target.
      cbn [o_marked o_data o_text o_pending o_starts o_writes].
      rewrite pending_singleton_at, Hwrites, frames_S.
      split; [exact Hp0|]. split; [lia|]. split; [now apply below_S|].
      repeat split; try reflexivity; assumption.
    + rewrite updateCounter_final by exact Hge.
      eexists. exists (Finished k).
      rewrite obs_write_text_same, Hobs1. cbn [fmap option_fmap option_map].
      split; [reflexivity|].
      split; [exact Hdata|]. exists target.
      cbn [o_marked o_data o_text o_pending o_starts o_writes].
      rewrite Hwrites.
      split; [exact Hp0|]. split; [exact Hb|]. split; [exact Hge|].
      repeat split; try reflexivity; assumption.
  - destruct (Hother e' Hne) as [Ho1 Hp1].
    assert (Hfinal : obs e' (Counters.updateCounter (tween_at e suffix target k) w1) = obs e' w /\
                     pending e' (timers (Counters.updateCounter (tween_at e suffix target k) w1))
                     = pending e' (timers w)).
    { destruct (Qlt_le_dec (current_after (S k) (increment_of target)) (inject_Z target))
        as [Hlt|Hge].
      - rewrite updateCounter_frame by exact Hlt. split.
        + rewrite obs_setTimeout_other by (cbn; congruence).
          rewrite obs_write_text_other by assumption. exact Ho1.
        + expose. rewrite pending_app, pending_singleton_other by (cbn; congruence).
          rewrite app_nil_r. exact Hp1.
      - rewrite updateCounter_final by exact Hge. split.
        + rewrite obs_write_text_other by assumption. exact Ho1.
        + exact Hp1. }
    destruct Hfinal as [Ho Hpd].
    destruct (elements w0 !! e') as [el0'|].
    + destruct HIe' as (o' & ph' & Hobs' & Hok). exists o', ph'. split; [congruence|exact Hok].
    + destruct HIe' as [Hnone Hpend]. split; [|congruence].
      apply obs_None. rewrite Ho. now apply obs_None.
Qed.

Lemma foldl_preserves {A} (P : World -> Prop) (f : World -> A -> World) l :
  (forall w a, P w -> P (f w a)) -> forall w, P w -> P (foldl f w l).
Proof.
  intros Hf. induction l as [|a l IH]; intros w Hw; [exact Hw|].
  cbn. apply IH, Hf, Hw.
Qed.

Lemma Inv_fresh w0 : fresh w0 -> Inv w0 w0.
Proof.
  intros (Htimers & Htrace & Hunmarked) e.
  destruct (elements w0 !! e) as [el0|] eqn:He.
  - eexists. exists Waiting. unfold obs. rewrite He. split; [reflexivity|].
    rewrite Htimers, Htrace. split; [reflexivity|]. cbn.
    rewrite bool_decide_eq_false_2 by (now apply Hunmarked with e).
    repeat split; reflexivity.
  - rewrite Htimers. split; reflexivity.
Qed.

Lemma Inv_unobserve w0 w e : Inv w0 w -> Inv w0 (Counters.unobserve e w).
Proof. intros H. eapply Inv_same_view; [exact H|apply same_view_unobserve]. Qed.

Lemma Inv_observe w0 w e : Inv w0 w -> Inv w0 (Counters.observe e w).
Proof. intros H. eapply Inv_same_view; [exact H|apply same_view_observe]. Qed.

Lemma Inv_animateAll w0 w : Inv w0 w -> Inv w0 (page (Counters.animateAll w)).
Proof.
  intros H. unfold Counters.animateAll. destruct (counters w) as [cs|]; [|exact H].
  cbn [page]. apply foldl_preserves; [|exact H].
  intros w' c Hw'. now apply Inv_animateCounter.
Qed.

Lemma Inv_observerCallback w0 w entries :
  Inv w0 w -> Inv w0 (Counters.observerCallback entries w).
Proof.
  intros H. unfold Counters.observerCallback. apply foldl_preserves; [|exact H].
  intros w' [target b] Hw'. cbn [fst snd]. destruct b; [|exact Hw'].
  now apply Inv_unobserve, Inv_animateCounter.
Qed.

Lemma Inv_setupObserver w0 w : Inv w0 w -> Inv w0 (page (Counters.setupObserver w)).
Proof.
  intros H. unfold Counters.setupObserver.
  destruct (has_IntersectionObserver w); [|now apply Inv_animateAll].
  assert (H' : Inv w0 (set_observer (Some ∅) w))
    by (eapply Inv_same_view; [exact H|apply same_view_set_observer]).
  cbn [counters set_observer]. destruct (counters w) as [cs|]; [|exact H'].
  cbn [page]. apply foldl_preserves; [|exact H'].
  intros w' c Hw'. now apply Inv_observe.
Qed.

Lemma guarded_unobserve c w :
  match observer w with
  | Some _ => Counters.unobserve c w
  | None => w
  end = Counters.unobserve c w.
Proof. unfold Counters.unobserve. now destruct (observer w). Qed.


Lemma Inv_checkCounter w0 w c : Inv w0 w -> Inv w0 (Counters.checkCounter c w).
Proof.
  intros H. unfold Counters.checkCounter.
  destruct (elements w !! c) as [el|]; [|exact H].
  destruct (Helpers.isInViewport w el 100); [|exact H].
  cbv zeta. rewrite guarded_unobserve.
  now apply Inv_unobserve, Inv_animateCounter.
Qed.

Lemma Inv_checkCounters w0 w : Inv w0 w -> Inv w0 (page (Counters.checkCounters w)).
Proof.
  intros H. unfold Counters.checkCounters. destruct (counters w) as [cs|]; [|exact H].
  cbn [page]. apply foldl_preserves; [|exact H].
  intros w' c Hw'. now apply Inv_checkCounter.
Qed.

Lemma page_and_then o f :
  page (and_then o f) = match o with Ok w => page (f w) | Throw _ w => w end.
Proof. destruct o; reflexivity. Qed.

Lemma Inv_init w0 w scope : Inv w0 w -> Inv w0 (page (Counters.init scope w)).
Proof.
  intros H. unfold Counters.init. rewrite page_and_then.
  set (w1 := set_counters _ w).
  assert (H1 : Inv w0 w1) by (eapply Inv_same_view; [exact H|apply same_view_set_counters]).
  pose proof (Inv_setupObserver w0 w1 H1) as H2.
  destruct (Counters.setupObserver w1) as [w2|err w2]; cbn [page] in H2; [|exact H2].
  now apply Inv_checkCounters.
Qed.

Lemma Inv_onWindowLoad w0 w : Inv w0 w -> Inv w0 (page (EventManager.onWindowLoad w)).
Proof.
  intros H. unfold EventManager.onWindowLoad. apply Inv_animateAll.
  eapply Inv_same_view; [exact H|apply same_view_setTimeout_scroll].
Qed.

Lemma Inv_step w0 w a : is_reset a = false -> Inv w0 w -> Inv w0 (step a w).
Proof.
  intros Ha H. destruct a; cbn [step]; try discriminate.
  - now apply Inv_init.
  - destruct (observer w); [now apply Inv_observerCallback|exact H].
  - now apply Inv_fire.
  - now apply Inv_onWindowLoad.
Qed.

Lemma Inv_run w0 actions :
  no_reset actions = true ->
  forall w, Inv w0 w -> Inv w0 (run actions w).
Proof.
  unfold run, no_reset. induction actions as [|a actions IH]; intros Hall w Hw; [exact Hw|].
  cbn in Hall. apply andb_true_iff in Hall as [Ha Hall].
  cbn. apply IH; [exact Hall|]. apply Inv_step; [|exact Hw].
  now destruct (is_reset a).
Qed.

(** ** What only a reset undoes *)

Lemma keeps_refl el : keeps el el.
Proof. repeat split; auto. Qed.

Lemma keeps_trans el1 el2 el3 : keeps el1 el2 -> keeps el2 el3 -> keeps el1 el3.
Proof.
  intros (Hd & Ht & Hb & Hm) (Hd' & Ht' & Hb' & Hm').
  repeat split; try congruence. auto.
Qed.

Lemma grows_refl w : grows w w.
Proof.
  repeat split; try reflexivity. intros e.
  destruct (elements w !! e) as [el|] eqn:H; [|reflexivity].
  exists el. split; [reflexivity|apply keeps_refl].
Qed.

Lemma grows_Some w w' e el :
  grows w w' -> elements w !! e = Some el ->
  exists el', elements w' !! e = Some el' /\ keeps el el'.
Proof. intros (_ & _ & _ & Hg) He. specialize (Hg e). now rewrite He in Hg. Qed.

Lemma grows_None w w' e :
  grows w w' -> elements w !! e = None -> elements w' !! e = None.
Proof. intros (_ & _ & _ & Hg) He. specialize (Hg e). now rewrite He in Hg. Qed.

Lemma grows_trans w1 w2 w3 : grows w1 w2 -> grows w2 w3 -> grows w1 w3.
Proof.
  intros H12 H23.
  pose proof H12 as (Hio & Hih & Hch & _). pose proof H23 as (Hio' & Hih' & Hch' & _).
  repeat split; try congruence.
  intros e. destruct (elements w1 !! e) as [el|] eqn:He.
  - destruct (grows_Some w1 w2 e el H12 He) as (el2 & He2 & Hk2).
    destruct (grows_Some w2 w3 e el2 H23 He2) as (el3 & He3 & Hk3).
    exists el3. split; [exact He3|]. now apply keeps_trans with el2.
  - apply (grows_None w2 w3 e H23). now apply (grows_None w1 w2 e H12).
Qed.

Lemma grows_same_elements w w' :
  has_IntersectionObserver w' = has_IntersectionObserver w ->
  innerHeight w' = innerHeight w -> clientHeight w' = clientHeight w ->
  elements w' = elements w -> grows w w'.
Proof.
  intros Hio Hih Hch He. repeat split; try assumption.
  intros e. rewrite He. destruct (elements w !! e) as [el|]; [|reflexivity].
  exists el. split; [reflexivity|apply keeps_refl].
Qed.

Lemma grows_alter f e w w' :
  has_IntersectionObserver w' = has_IntersectionObserver w ->
  innerHeight w' = innerHeight w -> clientHeight w' = clientHeight w ->
  elements w' = alter f e (elements w) ->
  (forall el, keeps el (f el)) -> grows w w'.
Proof.
  intros Hio Hih Hch He Hf. repeat split; try assumption.
  intros e'. rewrite He.
  destruct (decide (e = e')) as [->|Hne].
  - rewrite lookup_alter_eq. destruct (elements w !! e') as [el|]; [|reflexivity].
    exists (f el). split; [reflexivity|apply Hf].
  - rewrite lookup_alter_ne by exact Hne.
    destruct (elements w !! e') as [el|]; [|reflexivity].
    exists el. split; [reflexivity|apply keeps_refl].
Qed.

Lemma keeps_set_textContent s el : keeps el (set_textContent s el).
Proof. repeat split; auto. Qed.

Lemma keeps_add_class c el : keeps el (add_class c el).
Proof.
  repeat split; auto. intros H. cbn. apply elem_of_union. now right.
Qed.

Lemma grows_write_text e s w : grows w (write_text e s w).
Proof.
  apply grows_alter with (set_textContent s) e; try reflexivity.
  apply keeps_set_textContent.
Qed.

Lemma grows_mark via e w : grows w (mark via e w).
Proof.
  apply grows_alter with (add_class "animated") e; try reflexivity.
  apply keeps_add_class.
Qed.

Lemma grows_setTimeout cb w : grows w (setTimeout cb w).
Proof. now apply grows_same_elements. Qed.

Lemma grows_updateCounter tw w : grows w (Counters.updateCounter tw w).
Proof.
  unfold Counters.updateCounter. destruct (Qlt_le_dec _ _).
  - eapply grows_trans; [apply grows_write_text|apply grows_setTimeout].
  - apply grows_write_text.
Qed.

Lemma grows_animateCounter via e w : grows w (Counters.animateCounter via e w).
Proof.
  unfold Counters.animateCounter.
  destruct (elements w !! e) as [el|]; [|apply grows_refl].
  destruct (decide _); [apply grows_refl|].
  destruct (Js.parseInt_attr _); [|apply grows_refl].
  eapply grows_trans; [apply (grows_mark via e)|apply grows_updateCounter].
Qed.

Lemma grows_observe e w : grows w (Counters.observe e w).
Proof.
  unfold Counters.observe. destruct (observer w); [|apply grows_refl].
  now apply grows_same_elements.
Qed.

Lemma grows_unobserve e w : grows w (Counters.unobserve e w).
Proof.
  unfold Counters.unobserve. destruct (observer w); [|apply grows_refl].
  now apply grows_same_elements.
Qed.

Lemma grows_handleScrollAnimations w : grows w (Animations.handleScrollAnimations w).
Proof.
  repeat split; try reflexivity.
  intros e. unfold Animations.handleScrollAnimations. expose.
  rewrite lookup_fmap. destruct (elements w !! e) as [el|]; [|reflexivity].
  cbn [fmap option_fmap option_map].
  eexists. split; [reflexivity|].
  destruct (_ && _); [apply keeps_add_class|apply keeps_refl].
Qed.

Lemma grows_foldl {A} (f : World -> A -> World) l :
  (forall w a, grows w (f w a)) -> forall w, grows w (foldl f w l).
Proof.
  intros Hf. induction l as [|a l IH]; intros w; [apply grows_refl|].
  cbn. eapply grows_trans; [apply Hf|apply IH].
Qed.

Lemma grows_fire i w : grows w (fire i w).
Proof.
  unfold fire. destruct (timers w !! i) as [cb|]; [|apply grows_refl].
  eapply grows_trans;
    [apply grows_same_elements with (w' := set_timers (delete i (timers w)) w); reflexivity|].
  destruct cb; cbn [run_callback];
    [apply grows_updateCounter|apply grows_handleScrollAnimations].
Qed.

Lemma grows_drain n : forall w, grows w (drain n w).
Proof.
  induction n as [|n IH]; intros w; [apply grows_refl|].
  cbn [drain]. destruct (timers w); [apply grows_refl|].
  eapply grows_trans; [apply grows_fire|apply IH].
Qed.

Lemma grows_animateAll w : grows w (page (Counters.animateAll w)).
Proof.
  unfold Counters.animateAll. destruct (counters w); [|apply grows_refl].
  cbn [page]. apply grows_foldl. intros. apply grows_animateCounter.
Qed.

Lemma grows_checkCounter c w : grows w (Counters.checkCounter c w).
Proof.
  unfold Counters.checkCounter. destruct (elements w !! c); [|apply grows_refl].
  destruct (Helpers.isInViewport _ _ _); [|apply grows_refl].
  cbv zeta. rewrite guarded_unobserve.
  eapply grows_trans; [apply grows_animateCounter|apply grows_unobserve].
Qed.

Lemma grows_observerCallback entries w : grows w (Counters.observerCallback entries w).
Proof.
  unfold Counters.observerCallback. apply grows_foldl. intros w' [target b]. cbn [fst snd].
  destruct b; [|apply grows_refl].
  eapply grows_trans; [apply grows_animateCounter|apply grows_unobserve].
Qed.

Lemma grows_setupObserver w : grows w (page (Counters.setupObserver w)).
Proof.
  unfold Counters.setupObserver.
  destruct (has_IntersectionObserver w) eqn:Hio; [|apply grows_animateAll].
  cbn [counters set_observer].
  destruct (counters w); cbn [page].
  - eapply grows_trans; [|apply grows_foldl; intros; apply grows_observe].
    now apply grows_same_elements.
  - now apply grows_same_elements.
Qed.

Lemma grows_checkCounters w : grows w (page (Counters.checkCounters w)).
Proof.
  unfold Counters.checkCounters. destruct (counters w); [|apply grows_refl].
  cbn [page]. apply grows_foldl. intros. apply grows_checkCounter.
Qed.

Lemma grows_init scope w : grows w (page (Counters.init scope w)).
Proof.
  unfold Counters.init. rewrite page_and_then.
  set (w1 := set_counters _ w).
  assert (H1 : grows w w1) by now apply grows_same_elements.
  pose proof (grows_setupObserver w1) as H2.
  destruct (Counters.setupObserver w1) as [w2|err w2]; cbn [page] in H2.
  - eapply grows_trans; [exact H1|]. eapply grows_trans; [exact H2|apply grows_checkCounters].
  - now apply grows_trans with w1.
Qed.

Lemma grows_onWindowLoad w : grows w (page (EventManager.onWindowLoad w)).
Proof.
  unfold EventManager.onWindowLoad.
  eapply grows_trans; [apply (grows_setTimeout HandleScrollAnimations)|apply grows_animateAll].
Qed.

Lemma grows_step a w : is_reset a = false -> grows w (step a w).
Proof.
  intros Ha. destruct a; cbn [step]; try discriminate.
  - apply grows_init.
  - destruct (observer w); [apply grows_observerCallback|apply grows_refl].
  - apply grows_fire.
  - apply grows_onWindowLoad.
Qed.

Lemma animated_grows e w w' : grows w w' -> animated e w -> animated e w'.
Proof.
  intros Hg (el & He & Hm).
  destruct (grows_Some w w' e el Hg He) as (el' & He' & _ & _ & _ & Hk).
  exists el'. split; [exact He'|now apply Hk].
Qed.

(** ** The timers run out *)

Lemma min_step_positive target : 0 < target -> (0 < min_step target)%Q.
Proof.
  intros HT. pose proof (positive_target_Q target HT). unfold min_step. lra.
Qed.

Lemma frames_left_positive tw :
  0 < tw_target tw -> (tw_current tw < inject_Z (tw_target tw))%Q ->
  (1 <= frames_left (UpdateCounter tw))%nat.
Proof.
  intros HT Hc. cbn [frames_left].
  pose proof (min_step_positive _ HT) as Hm.
  set (q := ((inject_Z (tw_target tw) - tw_current tw) / min_step (tw_target tw))%Q).
  assert (Hq : (0 < q)%Q) by (unfold q; apply Qlt_shift_div_l; lra).
  pose proof (Qle_ceiling q) as Hceil.
  assert (0 < Qceiling q); [|lia].
  rewrite Zlt_Qlt. change (inject_Z 0) with 0%Q. lra.
Qed.

Lemma frames_left_decreases tw tw' :
  tw_target tw' = tw_target tw -> 0 < tw_target tw ->
  (tw_current tw + min_step (tw_target tw) <= tw_current tw')%Q ->
  (tw_current tw' < inject_Z (tw_target tw))%Q ->
  (S (frames_left (UpdateCounter tw')) <= frames_left (UpdateCounter tw))%nat.
Proof.
  intros Heq HT Hstep Hc.
  assert (Hpos : (1 <= frames_left (UpdateCounter tw'))%nat).
  { apply frames_left_positive; rewrite Heq; assumption. }
  cbn [frames_left] in *. rewrite Heq in *.
  pose proof (min_step_positive _ HT) as Hm.
  set (m := min_step (tw_target tw)) in *.
  set (q := ((inject_Z (tw_target tw) - tw_current tw) / m)%Q).
  set (q' := ((inject_Z (tw_target tw) - tw_current tw') / m)%Q) in *.
  assert (Hqm : (q * m == inject_Z (tw_target tw) - tw_current tw)%Q).
  { unfold q. field. intros Hz. rewrite Hz in Hm. now apply Qlt_irrefl in Hm. }
  assert (Hq' : (q' <= q - 1)%Q).
  { unfold q'. apply Qle_shift_div_r; [exact Hm|].
    assert (Hr : ((q - 1) * m == q * m - m)%Q) by ring.
    rewrite Hr, Hqm. lra. }
  pose proof (Qceiling_lt q') as Hlt.
  pose proof (Qle_ceiling q) as Hle.
  assert (Qceiling q' - 1 < Qceiling q - 1); [|lia].
  rewrite Zlt_Qlt. unfold Z.sub in *. rewrite !inject_Z_plus.
  rewrite inject_Z_plus in Hlt. change (inject_Z (- (1))) with (-1 # 1)%Q in *.
  clearbody q q' m. lra.
Qed.

(** Under the invariant a pending [updateCounter] is the closure of a tween
    that is running. *)
Lemma Inv_timer w0 w tw :
  Inv w0 w -> In (UpdateCounter tw) (timers w) ->
  exists el0 target k,
    elements w0 !! tw_element tw = Some el0 /\
    Js.parseInt_attr (data_count el0) = Some target /\
    tw = tween_at (tw_element tw) (Js.strip_digits (textContent el0)) target k /\
    (1 <= k)%nat /\ below target k.
Proof.
  intros HI Hin.
  assert (Hp : In tw (pending (tw_element tw) (timers w))) by now apply pending_In.
  specialize (HI (tw_element tw)).
  destruct (elements w0 !! tw_element tw) as [el0|];
    [|destruct HI as [_ Hpe]; rewrite Hpe in Hp; destruct Hp].
  destruct HI as (o & ph & Hobs & _ & Hph).
  rewrite <- (obs_pending _ _ _ Hobs) in Hp.
  destruct ph as [|k|k].
  - destruct Hph as (_ & _ & Hpe & _). rewrite Hpe in Hp. destruct Hp.
  - destruct Hph as (target & Hp0 & Hk & Hb & _ & _ & Hpe & _).
    rewrite Hpe in Hp. destruct Hp as [<-|[]].
    exists el0, target, k. repeat split; try assumption; reflexivity.
  - destruct Hph as (? & _ & _ & _ & _ & _ & Hpe & _). rewrite Hpe in Hp. destruct Hp.
Qed.

Lemma work_left_app l1 l2 : work_left (l1 ++ l2) = (work_left l1 + work_left l2)%nat.
Proof. unfold work_left. now rewrite map_app, list_sum_app. Qed.

(** The oldest timer expires: the bound on the executions to come drops. *)
Lemma fire_work_left w0 w cb rest :
  Inv w0 w -> safe_targets w0 -> timers w = cb :: rest ->
  (S (work_left (timers (fire 0 w))) <= work_left (timers w))%nat.
Proof.
  intros HI Hsafe Ht. unfold fire. rewrite Ht. cbn [lookup list_lookup delete list_delete].
  destruct cb as [tw|]; cbn [run_callback].
  - destruct (Inv_timer w0 w tw HI) as (el0 & target & k & He0 & Hp0 & Htw & Hk & Hb).
    { rewrite Ht. now left. }
    pose proof (Hsafe _ _ _ He0 Hp0) as Hsafe_t.
    assert (HT : 0 < target) by (apply below_positive; [exact Hsafe_t|now apply below_le with k]).
    assert (Hck : (current_after k (increment_of target) < inject_Z target)%Q)
      by (apply Hb; lia).
    assert (Hc0 : (0 <= current_after k (increment_of target))%Q)
      by (apply current_nonneg, increment_nonneg; lia).
    rewrite Htw.
    set (suffix := Js.strip_digits (textContent el0)).
    set (e := tw_element tw).
    change (work_left (UpdateCounter (tween_at e suffix target k) :: rest))
      with (frames_left (UpdateCounter (tween_at e suffix target k)) + work_left rest)%nat.
    destruct (Qlt_le_dec (current_after (S k) (increment_of target)) (inject_Z target))
      as [Hlt|Hge].
    + rewrite updateCounter_frame by exact Hlt. expose.
      rewrite work_left_app.
      change (work_left [UpdateCounter ?x]) with (frames_left (UpdateCounter x) + 0)%nat.
      pose proof (frames_left_decreases (tween_at e suffix target k)
                    (tween_at e suffix target (S k)) eq_refl HT) as Hdec.
      cbn [tween_at tw_current tw_target] in Hdec.
      specialize (Hdec (progress target _ HT Hsafe_t Hc0 Hck) Hlt).
      cbn [tween_at tw_current tw_target current_after] in *. lia.
    + rewrite updateCounter_final by exact Hge. expose.
      pose proof (frames_left_positive (tween_at e suffix target k) HT Hck). lia.
  - unfold Animations.handleScrollAnimations. expose. reflexivity.
Qed.

Lemma Inv_drain w0 n : forall w, Inv w0 w -> Inv w0 (drain n w).
Proof.
  induction n as [|n IH]; intros w HI; [exact HI|].
  cbn [drain]. destruct (timers w); [exact HI|]. now apply IH, Inv_fire.
Qed.

Lemma drain_empties w0 n :
  safe_targets w0 ->
  forall w, Inv w0 w -> (work_left (timers w) <= n)%nat -> timers (drain n w) = [].
Proof.
  intros Hsafe. induction n as [|n IH]; intros w HI Hn.
  - cbn [drain]. destruct (timers w) as [|cb rest] eqn:Ht; [reflexivity|].
    pose proof (fire_work_left w0 w cb rest HI Hsafe Ht) as Hf. rewrite Ht in Hf. lia.
  - cbn [drain]. destruct (timers w) as [|cb rest] eqn:Ht; [exact Ht|].
    apply IH; [now apply Inv_fire|].
    pose proof (fire_work_left w0 w cb rest HI Hsafe Ht) as Hf. rewrite Ht in Hf. lia.
Qed.

Lemma settle_empties w0 w : safe_targets w0 -> Inv w0 w -> timers (settle w) = [].
Proof. intros Hsafe HI. unfold settle. now apply drain_empties with w0. Qed.

Lemma Inv_settle w0 w : Inv w0 w -> Inv w0 (settle w).
Proof. intros HI. unfold settle. now apply Inv_drain. Qed.

(** The number of frames of a tween is bounded, whatever the rounding. *)
Lemma current_lower target k :
  0 < target -> Z.abs target <= 2 ^ 53 -> below target k ->
  (inject_Z (Z.of_nat k) * min_step target <= current_after k (increment_of target))%Q.
Proof.
  intros HT Hsafe. induction k as [|k IH]; intros Hb.
  - cbn [current_after]. change (inject_Z (Z.of_nat 0)) with 0%Q. lra.
  - assert (Hbk : below target k) by (apply below_le with (S k); [lia|exact Hb]).
    specialize (IH Hbk).
    assert (Hck : (current_after k (increment_of target) < inject_Z target)%Q).
    { destruct k as [|k]; [|apply Hbk; lia].
      cbn [current_after]. pose proof (positive_target_Q target HT). lra. }
    assert (Hc0 : (0 <= current_after k (increment_of target))%Q)
      by (apply current_nonneg, increment_nonneg; lia).
    pose proof (progress target _ HT Hsafe Hc0 Hck) as Hp.
    cbn [current_after]. rewrite Nat2Z.inj_succ. unfold Z.succ. rewrite inject_Z_plus.
    change (inject_Z 1) with 1%Q. lra.
Qed.

Lemma below_bound target k :
  0 < target -> Z.abs target <= 2 ^ 53 -> below target k -> (k <= 51)%nat.
Proof.
  intros HT Hsafe Hb. destruct (Nat.le_gt_cases k 51) as [Hle|Hgt]; [exact Hle|].
  exfalso.
  assert (Hb52 : below target 52) by (apply below_le with k; [lia|exact Hb]).
  pose proof (current_lower target 52 HT Hsafe Hb52) as Hlow.
  specialize (Hb52 52%nat ltac:(lia)).
  pose proof (positive_target_Q target HT).
  unfold min_step in Hlow. change (inject_Z (Z.of_nat 52)) with 52%Q in Hlow. lra.
Qed.

(** ** What the invariant says about one element *)

Lemma text_of_obs e w o : obs e w = Some o -> text_of e w = o_text o.
Proof.
  unfold obs, text_of. destruct (elements w !! e); [|discriminate].
  intros [= <-]. reflexivity.
Qed.

Lemma animated_obs e w o : obs e w = Some o -> animated e w -> o_marked o = true.
Proof.
  unfold obs. intros Ho (el & He & Hm). rewrite He in Ho. injection Ho as <-.
  cbn. now apply bool_decide_eq_true_2.
Qed.

(** A started tween of a page that was not reset: either it is running and
    has written [k] frames, or it has written [k] frames and the final text. *)
Lemma Inv_started w0 w e el0 target :
  Inv w0 w -> elements w0 !! e = Some el0 ->
  Js.parseInt_attr (data_count el0) = Some target ->
  animated e w ->
  let suffix := Js.strip_digits (textContent el0) in
  tween_starts e (trace w) = 1%nat /\
  ((exists k, (1 <= k)%nat /\ below target k /\
              pending e (timers w) = [tween_at e suffix target k] /\
              writes_to e (trace w) = frames target suffix k /\
              text_of e w = frame_text target suffix k)
   \/ (exists k, below target k /\
                 (inject_Z target <= current_after (S k) (increment_of target))%Q /\
                 pending e (timers w) = [] /\
                 writes_to e (trace w) = frames target suffix k ++ [final_text target suffix] /\
                 text_of e w = final_text target suffix)).
Proof.
  intros HI He0 Hp Han suffix. specialize (HI e). rewrite He0 in HI.
  destruct HI as (o & ph & Hobs & _ & Hph).
  pose proof (animated_obs e w o Hobs Han) as Hmk.
  rewrite (text_of_obs e w o Hobs), <- (obs_pending e w o Hobs).
  unfold obs in Hobs. destruct (elements w !! e) as [el|]; [|discriminate].
  injection Hobs as <-. cbn [o_marked o_data o_text o_pending o_starts o_writes] in *.
  destruct ph as [|k|k].
  - destruct Hph as (Hmk' & _). congruence.
  - destruct Hph as (target' & Hp' & Hk & Hb & _ & Htext & Hpe & Hst & Hwr).
    rewrite Hp in Hp'. injection Hp' as <-.
    split; [exact Hst|]. left. exists k. repeat split; assumption.
  - destruct Hph as (target' & Hp' & Hb & Hge & _ & Htext & Hpe & Hst & Hwr).
    rewrite Hp in Hp'. injection Hp' as <-.
    split; [exact Hst|]. right. exists k. repeat split; assumption.
Qed.


(** * The claims *)

(** ** Viewport probe *)

(** C5, amended: [isInViewport] is a function of the page, the element and the
    offset alone and returns a boolean; it is true exactly when
    [top <= viewportHeight * 0.85 + offset] and [bottom >= 0 - offset], both
    sides computed as the source computes them. For an offset that is not
    negative, an element with [top <= viewportHeight * 0.85] and [bottom >= 0]
    yields true; for every offset, an element with [bottom < 0 - offset] yields
    false. *)
Theorem isInViewport_characterised (w : World) (el : Element) (offset : Q) :
  (Helpers.isInViewport w el offset = true <->
   (rect_top el <=
    Js.add (Js.mul (Helpers.viewportHeight w) (Js.literal (85 # 100))) offset /\
    Js.sub 0 offset <= rect_bottom el)%Q) /\
  ((0 <= offset)%Q ->
   (rect_top el <= Js.mul (Helpers.viewportHeight w) (Js.literal (85 # 100)))%Q ->
   (0 <= rect_bottom el)%Q ->
   Helpers.isInViewport w el offset = true) /\
  ((rect_bottom el < Js.sub 0 offset)%Q -> Helpers.isInViewport w el offset = false).
Proof.
  split; [apply isInViewport_spec|]. split.
  - intros Hoff Htop Hbot. apply isInViewport_spec. split.
    + eapply Qle_trans; [exact Htop|]. unfold Js.add, Js.mul.
      apply Qle_trans with (rnd (rnd (Helpers.viewportHeight w * Js.literal (85 # 100)))).
      * rewrite rnd_idem. apply Qle_refl.
      * apply rnd_mono. lra.
    + eapply Qle_trans; [|exact Hbot]. unfold Js.sub.
      apply Qle_trans with (rnd 0); [apply rnd_mono; lra|].
      rewrite rnd_zero. apply Qle_refl.
  - intros Hbot. apply not_true_is_false. intros Hin.
    apply isInViewport_spec in Hin. lra.
Qed.

(** ** One reveal *)

(** C6: when [parseInt] of the [data-count] attribute is NaN, [animateCounter]
    returns the page it was given: the text is untouched, no timer is set,
    nothing is written or marked, and the call returns normally. For
    [data-count="abc"] the text stays as it was. *)
Theorem animateCounter_skips_unparsable via e (w : World) el :
  elements w !! e = Some el ->
  Js.parseInt_attr (data_count el) = None ->
  Counters.animateCounter via e w = w /\
  text_of e (Counters.animateCounter via e w) = textContent el /\
  timers (Counters.animateCounter via e w) = timers w /\
  Js.parseInt "abc" = None.
Proof.
  intros He Hp. rewrite (animateCounter_unparsable via e w el He Hp).
  repeat split. unfold text_of. now rewrite He.
Qed.

Lemma trace_animateCounter_start via e (w : World) el target :
  elements w !! e = Some el -> "animated" ∉ classList el ->
  Js.parseInt_attr (data_count el) = Some target ->
  exists s, trace (Counters.animateCounter via e w) = trace w ++ [TweenStart via e; SetText e s].
Proof.
  intros He Hm Hp. rewrite (animateCounter_start via e w el target He Hm Hp).
  unfold Counters.updateCounter. destruct (Qlt_le_dec _ _); eexists; expose;
    cbn [tween_at tw_element]; now rewrite <- app_assoc.
Qed.

(** C2: a counter that is not yet marked and whose target parses is revealed
    twice in a row. The first call sets the marker before it writes the first
    frame, the second call finds the marker and returns the page unchanged, and
    the two calls together start exactly one tween. *)
Theorem animateCounter_twice_starts_one_tween via via' e (w : World) el target :
  elements w !! e = Some el ->
  "animated" ∉ classList el ->
  Js.parseInt_attr (data_count el) = Some target ->
  let w1 := Counters.animateCounter via e w in
  let w2 := Counters.animateCounter via' e w1 in
  animated e w1 /\
  (exists s, trace w1 = trace w ++ [TweenStart via e; SetText e s]) /\
  w2 = w1 /\
  tween_starts e (trace w2) = S (tween_starts e (trace w)).
Proof.
  intros He Hm Hp w1 w2.
  assert (H12 : w2 = w1) by apply animateCounter_idempotent.
  destruct (trace_animateCounter_start via e w el target He Hm Hp) as [s Hs].
  split; [now apply animateCounter_sets_marker with el target|].
  split; [now exists s|]. split; [exact H12|].
  rewrite H12. unfold w1. rewrite Hs, tween_starts_app.
  unfold tween_starts at 2. cbn [List.filter is_tween_start].
  rewrite bool_decide_eq_true_2 by reflexivity. cbn [length]. lia.
Qed.

(** ** The tween *)

Lemma frame_values_sorted target a n :
  0 <= target -> StronglySorted Z.le (map (frame_value target) (seq a n)).
Proof.
  intros HT. revert a. induction n as [|n IH]; intros a; cbn [seq map]; constructor.
  - apply IH.
  - apply List.Forall_forall. intros v Hv. apply in_map_iff in Hv as (j & <- & Hj).
    apply in_seq in Hj. apply frame_value_mono; [exact HT|lia].
Qed.

Lemma frame_values_bounded target k :
  0 <= target -> below target k ->
  Forall (fun v => 0 <= v < target) (map (frame_value target) (seq 1 k)).
Proof.
  intros HT Hb. apply List.Forall_forall. intros v Hv. apply in_map_iff in Hv as (j & <- & Hj).
  apply in_seq in Hj. apply frame_value_bounds with k; [exact HT|exact Hb|lia].
Qed.

Lemma frames_values target suffix k :
  frames target suffix k =
  map (fun v => (Js.number_to_string v ++ suffix)%string) (map (frame_value target) (seq 1 k)).
Proof. unfold frames. now rewrite map_map. Qed.

Lemma frames_prefix target suffix j k last :
  (j <= k)%nat -> frames target suffix j `prefix_of` frames target suffix k ++ [last].
Proof.
  intros Hjk. exists (map (frame_text target suffix) (seq (1 + j) (k - j)) ++ [last]).
  unfold frames. rewrite app_assoc, <- map_app, <- seq_app.
  now replace (j + (k - j))%nat with k by lia.
Qed.

(** The execution that ends a tween is determined by its target. *)
Lemma below_before_end target j k :
  below target j ->
  (inject_Z target <= current_after (S k) (increment_of target))%Q ->
  (j <= k)%nat.
Proof.
  intros Hb Hge. destruct (Nat.le_gt_cases j k) as [Hle|Hgt]; [exact Hle|].
  specialize (Hb (S k) ltac:(lia)). lra.
Qed.

(** A tween that was started on a page that is never reset comes to its end
    when the timers run out. *)
Lemma settle_finishes w0 w e el0 target :
  safe_targets w0 -> Inv w0 w -> elements w0 !! e = Some el0 ->
  Js.parseInt_attr (data_count el0) = Some target ->
  animated e w ->
  let suffix := Js.strip_digits (textContent el0) in
  exists k,
    below target k /\
    (inject_Z target <= current_after (S k) (increment_of target))%Q /\
    writes_to e (trace (settle w)) = frames target suffix k ++ [final_text target suffix] /\
    text_of e (settle w) = final_text target suffix.
Proof.
  intros Hsafe HI He0 Hp Han suffix.
  assert (Han' : animated e (settle w)) by (eapply animated_grows; [apply grows_drain|exact Han]).
  destruct (Inv_started w0 (settle w) e el0 target (Inv_settle w0 w HI) He0 Hp Han')
    as (_ & [(k & _ & _ & Hpe & _)|(k & Hb & Hge & _ & Hwr & Htext)]).
  - rewrite (settle_empties w0 w Hsafe HI) in Hpe. discriminate.
  - exists k. repeat split; assumption.
Qed.

(** C1: on a page that is never reset and whose targets are safe integers,
    take a counter whose target parses to [target > 0] and whose tween has been
    started. Whatever the rounding of the arithmetic, the tween renders at most
    51 integers before the last frame; they never decrease and lie in
    [0, target). In whatever order timers and events have run, the texts
    written so far are an initial part of these integers followed by the
    suffix; as soon as no timer of the tween is pending, and at the latest when
    all timers have run out, the last text written, and the text shown, is the
    decimal string of [target] followed by the suffix. *)
Theorem tween_is_monotone_bounded_and_exact w0 actions e el0 target :
  fresh w0 -> safe_targets w0 -> no_reset actions = true ->
  elements w0 !! e = Some el0 ->
  Js.parseInt_attr (data_count el0) = Some target ->
  0 < target ->
  animated e (run actions w0) ->
  let w := run actions w0 in
  let suffix := Js.strip_digits (textContent el0) in
  let render := fun v => (Js.number_to_string v ++ suffix)%string in
  exists k,
    (k <= 51)%nat /\
    let values := map (frame_value target) (seq 1 k) in
    StronglySorted Z.le values /\
    Forall (fun v => 0 <= v < target) values /\
    writes_to e (trace w) `prefix_of` map render values ++ [render target] /\
    (pending e (timers w) = [] ->
     writes_to e (trace w) = map render values ++ [render target] /\
     text_of e w = render target) /\
    timers (settle w) = [] /\
    writes_to e (trace (settle w)) = map render values ++ [render target] /\
    text_of e (settle w) = render target.
Proof.
  intros Hfresh Hsafe Hnr He0 Hp HT Han w suffix render.
  assert (HI : Inv w0 w) by (apply Inv_run; [exact Hnr|now apply Inv_fresh]).
  destruct (settle_finishes w0 w e el0 target Hsafe HI He0 Hp Han)
    as (k & Hb & Hge & Hwr & Htext).
  fold suffix in Hwr, Htext.
  exists k. split; [apply below_bound with target; [exact HT|now apply Hsafe with e el0|exact Hb]|].
  cbv zeta.
  assert (Hfull : frames target suffix k ++ [final_text target suffix] =
                  map render (map (frame_value target) (seq 1 k)) ++ [render target]).
  { now rewrite frames_values. }
  rewrite Hfull in Hwr.
  split; [apply frame_values_sorted; lia|].
  split; [apply frame_values_bounded; [lia|exact Hb]|].
  assert (Hnow : writes_to e (trace w) `prefix_of`
                   map render (map (frame_value target) (seq 1 k)) ++ [render target] /\
                 (pending e (timers w) = [] ->
                  writes_to e (trace w) =
                    map render (map (frame_value target) (seq 1 k)) ++ [render target] /\
                  text_of e w = render target)).
  { destruct (Inv_started w0 w e el0 target HI He0 Hp Han)
      as (_ & [(j & Hj & Hbj & Hpe & Hwr' & _)|(j & Hbj & Hgej & _ & Hwr' & Htext')]);
      fold suffix in Hwr'.
    - split; [|rewrite Hpe; discriminate].
      rewrite Hwr', <- Hfull. apply frames_prefix.
      now apply below_before_end with target.
    - assert (j = k) as ->.
      { apply Nat.le_antisymm; now apply below_before_end with target. }
      rewrite Hwr', Hfull. split; [reflexivity|]. intros _. split; [reflexivity|exact Htext']. }
  destruct Hnow as [Hprefix Hdone].
  split; [exact Hprefix|]. split; [exact Hdone|].
  split; [now apply settle_empties with w0|]. split; [exact Hwr|exact Htext].
Qed.

(** ** Revealing every counter *)

Lemma animateCounter_marks via e (w : World) el target :
  elements w !! e = Some el ->
  Js.parseInt_attr (data_count el) = Some target ->
  animated e (Counters.animateCounter via e w).
Proof.
  intros He Hp. destruct (decide ("animated" ∈ classList el)) as [Hm|Hm].
  - rewrite (animateCounter_marked via e w el He Hm). now exists el.
  - now apply animateCounter_sets_marker with el target.
Qed.

Lemma parses_grows e w w' el target :
  grows w w' -> elements w !! e = Some el ->
  Js.parseInt_attr (data_count el) = Some target ->
  exists el', elements w' !! e = Some el' /\
              Js.parseInt_attr (data_count el') = Some target.
Proof.
  intros Hg He Hp. destruct (grows_Some w w' e el Hg He) as (el' & He' & Hd & _).
  exists el'. split; [exact He'|]. now rewrite Hd.
Qed.

Lemma foldl_animateCounter_marks via cs :
  forall (w : World) c el target,
    In c cs -> elements w !! c = Some el ->
    Js.parseInt_attr (data_count el) = Some target ->
    animated c (foldl (fun w c => Counters.animateCounter via c w) w cs).
Proof.
  induction cs as [|a cs IH]; intros w c el target Hin He Hp; [destruct Hin|].
  cbn [foldl]. destruct (decide (a = c)) as [->|Hne].
  - eapply animated_grows.
    + apply grows_foldl. intros. apply grows_animateCounter.
    + now apply animateCounter_marks with el target.
  - destruct Hin as [Heq|Hin]; [contradiction|].
    destruct (parses_grows c w _ el target (grows_animateCounter via a w) He Hp)
      as (el' & He' & Hp').
    now apply IH with el' target.
Qed.

Lemma run_grows actions :
  no_reset actions = true -> forall w, grows w (run actions w).
Proof.
  unfold run, no_reset. induction actions as [|a actions IH]; intros Hall w; [apply grows_refl|].
  cbn in Hall. apply andb_true_iff in Hall as [Ha Hall].
  cbn [foldl]. apply grows_trans with (step a w); [|now apply IH].
  apply grows_step. now destruct (is_reset a).
Qed.

(** Every counter of the list whose target parses is marked by [animateAll]
    and shows its target when the timers have run out. *)
Lemma animateAll_reveals w0 w cs :
  safe_targets w0 -> Inv w0 w -> grows w0 w -> counters w = Some cs ->
  exists w',
    Counters.animateAll w = Ok w' /\
    w' = foldl (fun w c => Counters.animateCounter ViaAnimateAll c w) w cs /\
    Inv w0 w' /\
    forall c el0 target,
      In c cs -> elements w0 !! c = Some el0 ->
      Js.parseInt_attr (data_count el0) = Some target ->
      animated c w' /\
      tween_starts c (trace w') = 1%nat /\
      text_of c (settle w') = final_text target (Js.strip_digits (textContent el0)).
Proof.
  intros Hsafe HI Hg Hcs.
  pose proof (Inv_animateAll w0 w HI) as HI'.
  unfold Counters.animateAll in *. rewrite Hcs in *. cbn [page] in HI'.
  eexists. split; [reflexivity|]. split; [reflexivity|]. split; [exact HI'|].
  intros c el0 target Hin He0 Hp.
  destruct (parses_grows c w0 w el0 target Hg He0 Hp) as (el & He & Hp').
  assert (Han : animated c (foldl (fun w c => Counters.animateCounter ViaAnimateAll c w) w cs))
    by now apply foldl_animateCounter_marks with el target.
  split; [exact Han|].
  split; [now destruct (Inv_started w0 _ c el0 target HI' He0 Hp Han)|].
  now destruct (settle_finishes w0 _ c el0 target Hsafe HI' He0 Hp Han) as (k & _ & _ & _ & Ht).
Qed.

(** C3: the page was never reset, its targets are safe integers and it has no
    [IntersectionObserver]; [Counters.counters] holds the registered counters.
    Then [setupObserver] returns normally, and what it does is call
    [animateCounter] on every registered counter in turn, whatever its place on
    the screen. Every registered counter whose target parses is marked at once
    and, when the timers alone have run out, shows its target followed by its
    suffix. *)
Theorem fallback_reveals_every_counter w0 actions cs :
  fresh w0 -> safe_targets w0 -> no_reset actions = true ->
  let w := run actions w0 in
  has_IntersectionObserver w = false ->
  counters w = Some cs ->
  exists w',
    Counters.setupObserver w = Ok w' /\
    w' = foldl (fun w c => Counters.animateCounter ViaAnimateAll c w) w cs /\
    timers (settle w') = [] /\
    forall c el0 target,
      In c cs -> elements w0 !! c = Some el0 ->
      Js.parseInt_attr (data_count el0) = Some target ->
      animated c w' /\
      text_of c (settle w') = final_text target (Js.strip_digits (textContent el0)).
Proof.
  intros Hfresh Hsafe Hnr w Hio Hcs.
  assert (HI : Inv w0 w) by (apply Inv_run; [exact Hnr|now apply Inv_fresh]).
  destruct (animateAll_reveals w0 w cs Hsafe HI (run_grows actions Hnr w0) Hcs)
    as (w' & Hall & Hw' & HI' & Hc).
  exists w'. unfold Counters.setupObserver. rewrite Hio.
  split; [exact Hall|]. split; [exact Hw'|].
  split; [now apply settle_empties with w0|].
  intros c el0 target Hin He0 Hp.
  destruct (Hc c el0 target Hin He0 Hp) as (Han & _ & Htext). now split.
Qed.


(** ** At most one reveal between two resets *)




(** ** The order of [init] *)










(** ** The suffix *)

Lemma strip_digits_app s1 s2 :
  Js.strip_digits (s1 ++ s2) = (Js.strip_digits s1 ++ Js.strip_digits s2)%string.
Proof.
  induction s1 as [|c s1 IH]; [reflexivity|].
  simpl. destruct (Js.is_digit c); simpl; now rewrite IH.
Qed.

Lemma strip_digits_idempotent s : Js.strip_digits (Js.strip_digits s) = Js.strip_digits s.
Proof.
  induction s as [|c s IH]; [reflexivity|].
  cbn [Js.strip_digits]. destruct (Js.is_digit c) eqn:Hc; [exact IH|].
  cbn [Js.strip_digits]. now rewrite Hc, IH.
Qed.

Lemma strip_digits_zero_prefix s :
  Js.strip_digits ("0" ++ Js.strip_digits s) = Js.strip_digits s.
Proof. rewrite strip_digits_app. cbn. apply strip_digits_idempotent. Qed.

(** ** Reset *)








End WithRounding.

(** * The sample page, with arithmetic that never rounds

    The numbers of the sample page (1500 and its fiftieth, 30, and the
    multiples of 30) are integers, which a double holds without rounding. *)

#[local] Existing Instance exact_arithmetic.

Lemma landing_fresh io : fresh (Sample.landing io).
Proof.
  split; [reflexivity|]. split; [reflexivity|].
  intros e el He. unfold Sample.landing in He. cbn [elements] in He.
  assert (Hcl : classList el = {["stat-number"]}).
  { apply lookup_insert_Some in He as [[_ <-]|[_ He]]; [reflexivity|].
    apply lookup_insert_Some in He as [[_ <-]|[_ He]]; [reflexivity|].
    apply lookup_insert_Some in He as [[_ <-]|[_ He]]; [reflexivity|].
    rewrite lookup_empty in He. discriminate. }
  rewrite Hcl. intros Hin. apply elem_of_singleton in Hin. discriminate.
Qed.

Lemma landing_safe io : safe_targets (Sample.landing io).
Proof.
  intros e el target He Hp. unfold Sample.landing in He. cbn [elements] in He.
  apply lookup_insert_Some in He as [[_ <-]|[_ He]].
  { cbn in Hp. injection Hp as <-. apply Z.leb_le. reflexivity. }
  apply lookup_insert_Some in He as [[_ <-]|[_ He]].
  { cbn in Hp. discriminate. }
  apply lookup_insert_Some in He as [[_ <-]|[_ He]].
  { cbn in Hp. injection Hp as <-. apply Z.leb_le. reflexivity. }
  rewrite lookup_empty in He. discriminate.
Qed.

Lemma landing_probe_reveals_first :
  animated 0 (run [Init [0; 1; 2]%nat] (Sample.landing true)).
Proof. eexists. split; vm_compute; reflexivity. Qed.

(** C5, as stated, fails: the clause "top below 85% of the viewport height and
    bottom not negative yields true" is claimed for every offset, and a
    negative offset refutes it, whatever the rounding: on a viewport 1000
    pixels high an element between 800 and 900 is not in view at offset -100. *)
Lemma isInViewport_negative_offset :
  ~ exists R : Rounding,
      forall (w : World) (el : Element) (offset : Q),
        (rect_top el < Js.mul (Helpers.viewportHeight w) (Js.literal (85 # 100)))%Q ->
        (0 <= rect_bottom el)%Q ->
        Helpers.isInViewport w el offset = true.
Proof.
  intros [R H].
  specialize (H (Sample.landing true) Sample.near_fold (-100)%Q).
  change (Helpers.viewportHeight (Sample.landing true)) with 1000%Q in H.
  change (rect_top Sample.near_fold) with 800%Q in H.
  change (rect_bottom Sample.near_fold) with 900%Q in H.
  unfold Js.mul, Js.literal in H.
  destruct (rnd_error (85 # 100)) as [Ha1 Ha2]; [lra|vm_compute; discriminate|].
  set (a := rnd (85 # 100)) in *.
  unfold unit_roundoff in *.
  destruct (rnd_error (1000 * a)) as [Hb1 Hb2];
    [lra|change (inject_Z (2 ^ 54)) with (18014398509481984 # 1)%Q; lra|].
  set (b := rnd (1000 * a)) in *.
  unfold unit_roundoff in *.
  assert (Hin : Helpers.isInViewport (Sample.landing true) Sample.near_fold (-100)%Q = true).
  { apply H; lra. }
  apply isInViewport_spec in Hin as [Htop _].
  change (Helpers.viewportHeight (Sample.landing true)) with 1000%Q in Htop.
  change (rect_top Sample.near_fold) with 800%Q in Htop.
  unfold Js.add, Js.mul, Js.literal in Htop. fold a in Htop. fold b in Htop.
  destruct (rnd_error (b + -100)) as [_ Hc2];
    [lra|change (inject_Z (2 ^ 54)) with (18014398509481984 # 1)%Q; lra|].
  unfold unit_roundoff in *. lra.
Qed.

Lemma isInViewport_characterised_witness :
  Helpers.isInViewport (Sample.landing true) Sample.near_fold 100 = true /\
  Helpers.isInViewport (Sample.landing true) (Sample.stat "1" "1" (-300) (-200)) 100 = false.
Proof.
  split.
  - apply (isInViewport_characterised (Sample.landing true) Sample.near_fold 100);
      vm_compute; discriminate.
  - apply (isInViewport_characterised (Sample.landing true)
             (Sample.stat "1" "1" (-300) (-200)) 100).
    vm_compute. reflexivity.
Defined.

Lemma animateCounter_skips_unparsable_witness :
  Counters.animateCounter ViaAnimateAll 1 (Sample.landing false) = Sample.landing false /\
  text_of 1 (Counters.animateCounter ViaAnimateAll 1 (Sample.landing false)) = "abc"%string.
Proof.
  pose proof (animateCounter_skips_unparsable ViaAnimateAll 1 (Sample.landing false)
                (Sample.stat "abc" "abc" 5000 5050) eq_refl eq_refl) as (H1 & H2 & _).
  split; [exact H1|exact H2].
Defined.

Lemma animateCounter_twice_starts_one_tween_witness :
  let w1 := Counters.animateCounter ViaProbe 0 (Sample.landing true) in
  Counters.animateCounter ViaObserver 0 w1 = w1 /\
  tween_starts 0 (trace (Counters.animateCounter ViaObserver 0 w1)) = 1%nat.
Proof.
  pose proof (animateCounter_twice_starts_one_tween ViaProbe ViaObserver 0
                (Sample.landing true) (Sample.stat "1500" "1500+" 100 150) 1500
                eq_refl) as H.
  destruct H as (_ & _ & H2 & H3).
  - vm_compute. discriminate.
  - reflexivity.
  - split; [exact H2|exact H3].
Defined.

Lemma tween_is_monotone_bounded_and_exact_witness :
  let w := run [Init [0; 1; 2]%nat] (Sample.landing true) in
  writes_to 0 (trace w) = ["30+"%string] /\
  text_of 0 (settle w) = "1500+"%string.
Proof.
  destruct (tween_is_monotone_bounded_and_exact (Sample.landing true)
              [Init [0; 1; 2]%nat] 0 (Sample.stat "1500" "1500+" 100 150) 1500
              (landing_fresh true) (landing_safe true) eq_refl eq_refl eq_refl eq_refl
              landing_probe_reveals_first) as (k & _ & _ & _ & _ & _ & _ & _ & Htext).
  split; [vm_compute; reflexivity|exact Htext].
Defined.

Lemma fallback_reveals_every_counter_witness :
  let w := set_counters (Some [0; 1; 2]%nat) (Sample.landing false) in
  text_of 2 (settle (page (Counters.setupObserver w))) = "7%"%string.
Proof.
  intros w.
  destruct (fallback_reveals_every_counter w [] [0; 1; 2]%nat
              (landing_fresh false) (landing_safe false) eq_refl eq_refl eq_refl)
    as (w' & Hsetup & _ & _ & Hc).
  change (run [] w) with w in Hsetup. rewrite Hsetup. cbn [page].
  destruct (Hc 2%nat (Sample.stat "7" "0%" 6000 6050) 7) as [_ Htext].
  - right. right. now left.
  - reflexivity.
  - reflexivity.
  - exact Htext.
Defined.








(** Without rounding, [current] is [k * target / 50] after [k] executions. *)
Lemma exact_current_after k target :
  (current_after (R := exact_arithmetic) k (increment_of target) ==
   (Z.of_nat k * target) # 50)%Q.
Proof.
  induction k as [|k IH].
  - cbn [current_after]. rewrite Z.mul_0_l. reflexivity.
  - cbn [current_after]. unfold Js.add. cbn [rnd exact_arithmetic]. rewrite IH.
    unfold increment_of, Js.div. cbn [rnd exact_arithmetic].
    rewrite Nat2Z.inj_succ. unfold Qeq, Qplus, Qdiv, Qmult, Qinv, inject_Z. cbn. lia.
Qed.

(** Without rounding, a tween with a positive target has exactly 49 frames
    before the last one, and the [k]-th shows [floor(k * target / 50)]. *)
Remark exact_tween_frames target :
  0 < target ->
  below (R := exact_arithmetic) target 49 /\
  (inject_Z target <= current_after (R := exact_arithmetic) 50 (increment_of target))%Q /\
  forall k, frame_value (R := exact_arithmetic) target k = Z.of_nat k * target / 50.
Proof.
  intros HT. split; [|split].
  - intros j Hj. rewrite exact_current_after. unfold Qlt, inject_Z. cbn. nia.
  - rewrite exact_current_after. unfold Qle, inject_Z. cbn. lia.
  - intros k. unfold frame_value. rewrite exact_current_after. reflexivity.
Qed.

(** * More of the code

    From here on the arithmetic is again that of any lawful rounding; the
    sample pages say where they compute without rounding. *)

#[local] Remove Hints exact_arithmetic : typeclass_instances.

Ltac no_div := unfold Qdiv in *; cbn [Qinv Qnum Qden] in *.

Ltac expose :=
  cbn [elements timers trace counters observer has_IntersectionObserver
       innerHeight clientHeight
       write_text setTimeout log mark set_elements set_timers set_observer
       set_counters] in *.

(** ** Reading a counter back: [parseInt] after [String] *)

Lemma digit_value_not_digit c : Js.is_digit c = false -> Js.digit_value 10 c = None.
Proof. destruct c as [[] [] [] [] [] [] [] []]; vm_compute; congruence. Qed.

Lemma parse_digits_stop radix acc rest :
  (forall c s, rest = String c s -> Js.digit_value radix c = None) ->
  Js.parse_digits radix acc rest = acc.
Proof.
  intros H. destruct rest as [|c s]; [reflexivity|].
  cbn [Js.parse_digits]. now rewrite (H c s eq_refl).
Qed.

Lemma append_cons c s r : (String c s ++ r = String c (s ++ r))%string.
Proof. reflexivity. Qed.

Ltac digit_step :=
  cbn [NilEmpty.string_of_uint]; rewrite append_cons;
  cbn [Js.parse_digits Pos.of_uint_acc Pos.of_uint];
  match goal with |- context [Js.digit_value 10 ?c] =>
    let v := eval vm_compute in (Js.digit_value 10 c) in
    change (Js.digit_value 10 c) with v end;
  cbn [default from_option id]; unfold id.

Lemma parse_digits_pos d : forall acc rest,
  Js.parse_digits 10 (Some (Z.pos acc)) (NilEmpty.string_of_uint d ++ rest) =
  Js.parse_digits 10 (Some (Z.pos (Pos.of_uint_acc d acc))) rest.
Proof.
  induction d; intros acc rest; [reflexivity|..];
    digit_step; rewrite <- IHd; f_equal; f_equal; try lia.
Qed.

Lemma parse_digits_uint d : forall rest,
  Js.parse_digits 10 (Some 0) (NilEmpty.string_of_uint d ++ rest) =
  Js.parse_digits 10 (Some (Z.of_N (Pos.of_uint d))) rest.
Proof.
  induction d; intros rest; [reflexivity|..]; digit_step; [apply IHd|..];
    match goal with |- context [Some (10 * 0 + ?k)] => change (10 * 0 + k) with k end;
    apply parse_digits_pos.
Qed.

(** The digits of a positive number, followed by something that is no digit,
    are read as that number. *)
Lemma parse_digits_numeral p rest :
  (forall c s, rest = String c s -> Js.is_digit c = false) ->
  Js.parse_digits 10 None (NilEmpty.string_of_uint (Pos.to_uint p) ++ rest) = Some (Z.pos p).
Proof.
  intros Hrest.
  assert (H0 : Js.parse_digits 10 None (NilEmpty.string_of_uint (Pos.to_uint p) ++ rest) =
               Js.parse_digits 10 (Some 0) (NilEmpty.string_of_uint (Pos.to_uint p) ++ rest)).
  { pose proof (DecimalPos.Unsigned.to_uint_nonnil p) as Hn.
    destruct (Pos.to_uint p); [congruence|..]; reflexivity. }
  rewrite H0, parse_digits_uint, DecimalPos.Unsigned.of_to.
  apply parse_digits_stop. intros c s Hc. apply digit_value_not_digit. eauto.
Qed.

Lemma string_of_pos p :
  Js.number_to_string (Z.pos p) = NilEmpty.string_of_uint (Pos.to_uint p).
Proof.
  unfold Js.number_to_string. cbn [Z.to_int NilZero.string_of_int].
  pose proof (DecimalPos.Unsigned.to_uint_nonnil p) as Hn.
  unfold NilZero.string_of_uint. destruct (Pos.to_uint p); [congruence|..]; reflexivity.
Qed.

Lemma string_of_neg p :
  Js.number_to_string (Z.neg p) = String "-" (NilEmpty.string_of_uint (Pos.to_uint p)).
Proof.
  unfold Js.number_to_string. cbn [Z.to_int NilZero.string_of_int].
  pose proof (DecimalPos.Unsigned.to_uint_nonnil p) as Hn.
  unfold NilZero.string_of_uint. destruct (Pos.to_uint p); [congruence|..]; reflexivity.
Qed.

(** [parseInt] reads a numeral in base ten: the numeral starts with a digit,
    and if that digit is 0 another digit follows it, not an "x". *)
Lemma parseInt_numeral p rest :
  (forall c s, rest = String c s -> Js.is_digit c = false) ->
  Js.parseInt (NilEmpty.string_of_uint (Pos.to_uint p) ++ rest) = Some (Z.pos p) /\
  Js.parseInt (String "-" (NilEmpty.string_of_uint (Pos.to_uint p) ++ rest)) = Some (Z.neg p).
Proof.
  intros Hrest. pose proof (parse_digits_numeral p rest Hrest) as H.
  pose proof (DecimalPos.Unsigned.to_uint_nonnil p) as Hn.
  pose proof (DecimalPos.Unsigned.to_uint_nonzero p) as Hz.
  destruct (Pos.to_uint p) as [|d|d|d|d|d|d|d|d|d|d]; [congruence|..].
  2-10: (cbn [NilEmpty.string_of_uint] in *; rewrite append_cons in *;
         unfold Js.parseInt; simpl; simpl in H; rewrite H; split; reflexivity).
  destruct d; [congruence|..];
    cbn [NilEmpty.string_of_uint] in *; rewrite !append_cons in *;
    unfold Js.parseInt; simpl; simpl in H; rewrite H; split; reflexivity.
Qed.

Lemma strip_digits_no_leading_digit s c s' :
  Js.strip_digits s = String c s' -> Js.is_digit c = false.
Proof.
  induction s as [|a s IH]; cbn [Js.strip_digits]; [discriminate|].
  destruct (Js.is_digit a) eqn:Ha; [exact IH|].
  intros [= <- _]. exact Ha.
Qed.

(** What the text of a number other than zero, followed by a suffix without
    digits, reads back as. *)
Lemma parseInt_number_to_string v s :
  v <> 0 ->
  Js.parseInt (Js.number_to_string v ++ Js.strip_digits s) = Some v.
Proof.
  intros Hv.
  assert (Hrest : forall c s', Js.strip_digits s = String c s' -> Js.is_digit c = false)
    by (intros c s'; apply strip_digits_no_leading_digit).
  destruct v as [|p|p]; [congruence| |].
  - rewrite string_of_pos. now apply parseInt_numeral.
  - rewrite string_of_neg, append_cons. now apply parseInt_numeral.
Qed.

Section MoreCounters.

Context `{R : Rounding}.

Lemma getValue_text descendants e el (w : World) :
  querySelector_stat_number descendants w = Some e ->
  elements w !! e = Some el ->
  Counters.getValue (Some descendants) w =
  match Js.parseInt (textContent el) with Some v => v | None => 0 end.
Proof. intros Hq He. unfold Counters.getValue. now rewrite Hq, He. Qed.

(** [Counters.getValue] after a tween: on a page that is never reset and whose
    targets are safe integers, take a counter whose target parses to a number
    other than zero and whose tween has been started. When the timers have run
    out, [getValue] on a card whose first [.stat-number] is that counter
    returns the target. *)
Theorem getValue_reads_back_the_target w0 actions e el0 target descendants :
  fresh w0 -> safe_targets w0 -> no_reset actions = true ->
  elements w0 !! e = Some el0 ->
  Js.parseInt_attr (data_count el0) = Some target ->
  target <> 0 ->
  animated e (run actions w0) ->
  let w := settle (run actions w0) in
  querySelector_stat_number descendants w = Some e ->
  Counters.getValue (Some descendants) w = target.
Proof.
  intros Hfresh Hsafe Hnr He0 Hp HT Han w Hq.
  assert (HI : Inv w0 (run actions w0)) by (apply Inv_run; [exact Hnr|now apply Inv_fresh]).
  destruct (settle_finishes w0 _ e el0 target Hsafe HI He0 Hp Han) as (k & _ & _ & _ & Htext).
  fold w in Htext. unfold text_of in Htext.
  destruct (elements w !! e) as [el|] eqn:He.
  - rewrite (getValue_text descendants e el w Hq He), Htext.
    unfold final_text. now rewrite parseInt_number_to_string.
  - unfold querySelector_stat_number in Hq.
    apply List.find_some in Hq as [_ Hq]. rewrite He in Hq. discriminate.
Qed.

(** *** [Counters.update] *)

Lemma update_found descendants c el newValue (w : World) :
  querySelector_stat_number descendants w = Some c ->
  elements w !! c = Some el ->
  Counters.update (Some descendants) newValue w =
  Counters.observe c
    (write_text c ("0" ++ Js.strip_digits (textContent el))
       (set_elements
          (alter (remove_class "animated") c
             (alter (set_data_count (Some newValue)) c (elements w))) w)).
Proof.
  intros Hq He. unfold Counters.update. rewrite Hq, He.
  destruct w as [io ih ch els cs [targets|] tm tr]; reflexivity.
Qed.

Lemma update_elements descendants c el newValue (w : World) :
  querySelector_stat_number descendants w = Some c ->
  elements w !! c = Some el ->
  let w' := Counters.update (Some descendants) newValue w in
  elements w' !! c =
    Some (set_textContent ("0" ++ Js.strip_digits (textContent el))
            (remove_class "animated" (set_data_count (Some newValue) el))) /\
  (forall c', c' <> c -> elements w' !! c' = elements w !! c') /\
  timers w' = timers w.
Proof.
  intros Hq He w'. unfold w'. rewrite (update_found descendants c el newValue w Hq He).
  unfold Counters.observe. cbn [observer write_text log set_elements].
  assert (Hel : forall o, elements (match o with
            | Some targets =>
                log (Observe c) (set_observer (Some ({[c]} ∪ targets))
                  (log (SetText c ("0" ++ Js.strip_digits (textContent el)))
                     (set_elements
                        (alter (set_textContent ("0" ++ Js.strip_digits (textContent el))) c
                           (alter (remove_class "animated") c
                              (alter (set_data_count (Some newValue)) c (elements w)))) w)))
            | None =>
                log (SetText c ("0" ++ Js.strip_digits (textContent el)))
                  (set_elements
                     (alter (set_textContent ("0" ++ Js.strip_digits (textContent el))) c
                        (alter (remove_class "animated") c
                           (alter (set_data_count (Some newValue)) c (elements w)))) w)
            end) =
          alter (set_textContent ("0" ++ Js.strip_digits (textContent el))) c
            (alter (remove_class "animated") c
               (alter (set_data_count (Some newValue)) c (elements w))))
    by (intros [?|]; reflexivity).
  split; [|split].
  - rewrite Hel, !lookup_alter_eq, He. reflexivity.
  - intros c' Hne. rewrite Hel, !lookup_alter_ne by congruence. reflexivity.
  - now destruct (observer w).
Qed.

(** [Counters.update]: when the selector finds a card with a [.stat-number],
    that element gets the new [data-count], loses the [animated] class and
    shows "0" followed by its text without the digits; it is among the targets
    of the observer when there is one; no other element and no timer is
    touched; and a next call of [animateCounter], when the new value parses,
    starts a tween from zero towards the new value. *)
Theorem update_restarts_from_zero descendants c el newValue (w : World) :
  querySelector_stat_number descendants w = Some c ->
  elements w !! c = Some el ->
  let w' := Counters.update (Some descendants) newValue w in
  let suffix := Js.strip_digits (textContent el) in
  text_of c w' = ("0" ++ suffix)%string /\
  ~ animated c w' /\
  (exists el', elements w' !! c = Some el' /\ data_count el' = Some newValue) /\
  (is_Some (observer w) -> observed c w') /\
  (forall c', c' <> c -> elements w' !! c' = elements w !! c') /\
  timers w' = timers w /\
  forall via target,
    Js.parseInt newValue = Some target ->
    Counters.animateCounter via c w' =
    Counters.updateCounter (tween_at c suffix target 0) (mark via c w').
Proof.
  intros Hq He w' suffix.
  destruct (update_elements descendants c el newValue w Hq He) as (Hc & Hother & Ht).
  fold w' in Hc, Hother, Ht.
  split; [unfold text_of; now rewrite Hc|].
  split.
  { intros (el' & He' & Hm). rewrite Hc in He'. injection He' as <-.
    cbn in Hm. apply elem_of_difference in Hm as [_ Hm]. apply Hm. now apply elem_of_singleton. }
  split; [eexists; split; [exact Hc|reflexivity]|].
  split.
  { intros [targets Ho]. unfold w'.
    rewrite (update_found descendants c el newValue w Hq He).
    unfold Counters.observe. cbn [observer write_text log set_elements]. rewrite Ho.
    eexists. split; [reflexivity|]. apply elem_of_union. left. now apply elem_of_singleton. }
  split; [exact Hother|]. split; [exact Ht|].
  intros via target Hp.
  rewrite (animateCounter_start via c w' _ target Hc).
  - cbn [textContent set_textContent]. unfold suffix.
    now rewrite strip_digits_zero_prefix.
  - cbn. intros Hm. apply elem_of_difference in Hm as [_ Hm]. apply Hm. now apply elem_of_singleton.
  - exact Hp.
Qed.

(** *** A tween that [update] finds running *)

Lemma updateCounter_timers tw (w w' : World) :
  timers w = timers w' ->
  timers (Counters.updateCounter tw w) = timers (Counters.updateCounter tw w').
Proof.
  intros H. unfold Counters.updateCounter.
  destruct (Qlt_le_dec _ _); expose; now rewrite H.
Qed.

(** Which timers are pending after a timer expired depends on the timers
    alone. *)
Lemma fire_timers i (w w' : World) :
  timers w = timers w' -> timers (fire i w) = timers (fire i w').
Proof.
  intros H. unfold fire. rewrite <- H.
  destruct (timers w !! i) as [[tw|]|]; cbn [run_callback]; [| |exact H].
  - apply updateCounter_timers. expose. now rewrite H.
  - unfold Animations.handleScrollAnimations. expose. now rewrite H.
Qed.

Lemma drain_timers n : forall w w' : World,
  timers w = timers w' -> timers (drain n w) = timers (drain n w').
Proof.
  induction n as [|n IH]; intros w w' H; [exact H|].
  cbn [drain]. rewrite <- H. destruct (timers w) eqn:Ht; [now rewrite <- H|].
  apply IH, fire_timers. congruence.
Qed.

Lemma text_of_write_text_other e e' s (w : World) :
  e' <> e -> text_of e' (write_text e s w) = text_of e' w.
Proof. intros Hne. unfold text_of. expose. now rewrite lookup_alter_ne. Qed.

Lemma text_of_write_text_same e s (w : World) :
  is_Some (elements w !! e) -> text_of e (write_text e s w) = s.
Proof. intros [el He]. unfold text_of. expose. now rewrite lookup_alter_eq, He. Qed.

Lemma is_Some_write_text e e' s (w : World) :
  is_Some (elements w !! e') -> is_Some (elements (write_text e s w) !! e').
Proof.
  intros [el He]. expose. destruct (decide (e = e')) as [->|Hne].
  - rewrite lookup_alter_eq, He. now eexists.
  - rewrite lookup_alter_ne, He by exact Hne. now eexists.
Qed.

Lemma updateCounter_other tw e (w : World) :
  tw_element tw <> e ->
  pending e (timers (Counters.updateCounter tw w)) = pending e (timers w) /\
  text_of e (Counters.updateCounter tw w) = text_of e w /\
  (is_Some (elements w !! e) -> is_Some (elements (Counters.updateCounter tw w) !! e)).
Proof.
  intros Hne. unfold Counters.updateCounter, text_of.
  destruct (Qlt_le_dec _ _); expose; rewrite lookup_alter_ne by exact Hne;
    repeat split; try reflexivity; try (intros H; exact H).
  rewrite pending_app. cbn [pending tw_element].
  destruct (decide (tw_element tw = e)); [contradiction|apply app_nil_r].
Qed.

(** An expired timer leaves a tween that is winding up winding up. *)
Lemma winding_up_fire e suffix target i (w : World) :
  winding_up e suffix target w -> winding_up e suffix target (fire i w).
Proof.
  intros [Hsome Hw]. unfold fire.
  destruct (timers w !! i) as [cb|] eqn:Hi; [|now split].
  set (w1 := set_timers (delete i (timers w)) w).
  assert (Hsome1 : is_Some (elements w1 !! e)) by exact Hsome.
  assert (Htext1 : text_of e w1 = text_of e w) by reflexivity.
  destruct cb as [tw|]; cbn [run_callback].
  2:{ assert (Hp : pending e (delete i (timers w)) = pending e (timers w))
        by (now apply pending_delete_other with HandleScrollAnimations).
      unfold winding_up, Animations.handleScrollAnimations, text_of, w1. expose.
      rewrite lookup_fmap, Hp.
      destruct Hsome as [el He]. rewrite He. cbn [fmap option_fmap option_map].
      split; [now eexists|].
      destruct Hw as [Hrun|[Hnone Htext]]; [now left|right].
      split; [exact Hnone|]. unfold text_of in Htext. rewrite He in Htext.
      now destruct (_ && _). }
  destruct (decide (tw_element tw = e)) as [Heq|Hne].
  - assert (Hin : In tw (pending e (timers w))).
    { apply pending_In; [|exact Heq]. apply list_elem_of_In.
      now apply list_elem_of_lookup_2 with i. }
    destruct Hw as [[k Hk]|[Hnone _]]; [|rewrite Hnone in Hin; destruct Hin].
    destruct (pending_delete_only e (timers w) i tw _ Hi Heq Hk) as [Htw Hdel].
    subst tw.
    destruct (Qlt_le_dec (current_after (S k) (increment_of target)) (inject_Z target))
      as [Hlt|Hge].
    + rewrite updateCounter_frame by exact Hlt. split.
      * unfold setTimeout. apply (is_Some_write_text e e _ w1 Hsome1).
      * left. exists (S k). unfold w1. expose.
        now rewrite pending_app, Hdel, pending_singleton_at.
    + rewrite updateCounter_final by exact Hge. split.
      * apply (is_Some_write_text e e _ w1 Hsome1).
      * right. split; [exact Hdel|]. now apply text_of_write_text_same.
  - assert (Hp : pending e (delete i (timers w)) = pending e (timers w)).
    { apply pending_delete_other with (UpdateCounter tw); [exact Hi|].
      now apply pending_singleton_other. }
    destruct (updateCounter_other tw e w1 Hne) as (Hpe & Htext & Hel).
    split; [now apply Hel|]. rewrite Hpe, Htext.
    change (pending e (timers w1)) with (pending e (delete i (timers w))).
    rewrite Hp. exact Hw.
Qed.

Lemma winding_up_drain e suffix target n :
  forall w : World, winding_up e suffix target w -> winding_up e suffix target (drain n w).
Proof.
  induction n as [|n IH]; intros w H; [exact H|].
  cbn [drain]. destruct (timers w); [exact H|]. now apply IH, winding_up_fire.
Qed.

(** [Counters.update] cancels no timer. On a page that is never reset and
    whose targets are safe integers, take a counter whose tween is running
    when [update] gives it a new value. The closure of the old tween goes on:
    when the timers have run out the counter shows the old target followed by
    the old suffix, while its [data-count] is the new value. *)
Theorem update_does_not_cancel_a_running_tween
    w0 actions e el0 target descendants newValue :
  fresh w0 -> safe_targets w0 -> no_reset actions = true ->
  elements w0 !! e = Some el0 ->
  Js.parseInt_attr (data_count el0) = Some target ->
  let w := run actions w0 in
  pending e (timers w) <> [] ->
  querySelector_stat_number descendants w = Some e ->
  let w' := Counters.update (Some descendants) newValue w in
  timers w' = timers w /\
  timers (settle w') = [] /\
  text_of e (settle w') = final_text target (Js.strip_digits (textContent el0)) /\
  exists el', elements (settle w') !! e = Some el' /\ data_count el' = Some newValue.
Proof.
  intros Hfresh Hsafe Hnr He0 Hp w Hrun Hq w'.
  assert (HI : Inv w0 w) by (apply Inv_run; [exact Hnr|now apply Inv_fresh]).
  pose proof (HI e) as HIe. rewrite He0 in HIe.
  destruct HIe as (o & ph & Hobs & _ & Hph).
  pose proof (obs_pending e w o Hobs) as Hop.
  destruct (obs_lookup e w o Hobs) as (el & He & _).
  destruct (update_elements descendants e el newValue w Hq He) as (Hc & _ & Ht).
  fold w' in Hc, Ht.
  assert (Hk : exists k, pending e (timers w) =
                         [tween_at e (Js.strip_digits (textContent el0)) target k]).
  { destruct ph as [|k|k].
    - destruct Hph as (_ & _ & Hpe & _). congruence.
    - destruct Hph as (target' & Hp' & _ & _ & _ & _ & Hpe & _).
      exists k. congruence.
    - destruct Hph as (? & _ & _ & _ & _ & _ & Hpe & _). congruence. }
  assert (Hw : winding_up e (Js.strip_digits (textContent el0)) target w').
  { split; [rewrite Hc; now eexists|]. left. now rewrite Ht. }
  assert (Hsettle : timers (settle w') = []).
  { unfold settle. rewrite Ht.
    rewrite (drain_timers _ w' w Ht). apply (settle_empties w0 w Hsafe HI). }
  split; [exact Ht|]. split; [exact Hsettle|]. split.
  - apply (winding_up_drain _ _ _ (work_left (timers w'))) in Hw.
    fold (settle w') in Hw. destruct Hw as [_ [[k Hpe]|[_ Htext]]]; [|exact Htext].
    rewrite Hsettle in Hpe. discriminate.
  - pose proof (grows_drain (work_left (timers w')) w') as Hg. fold (settle w') in Hg.
    destruct Hg as (_ & _ & _ & Hg). specialize (Hg e). rewrite Hc in Hg.
    destruct Hg as (el' & He' & Hd & _). exists el'. split; [exact He'|].
    rewrite Hd. reflexivity.
Qed.

End MoreCounters.

Section MoreCountersSample.

#[local] Existing Instance exact_arithmetic.

Lemma getValue_reads_back_the_target_witness :
  Counters.getValue (Some [0%nat]) (run [Init [0; 1; 2]%nat] (Sample.landing true)) = 30 /\
  Counters.getValue (Some [0%nat]) (settle (run [Init [0; 1; 2]%nat] (Sample.landing true))) = 1500.
Proof.
  split; [vm_compute; reflexivity|].
  apply (getValue_reads_back_the_target (Sample.landing true) [Init [0; 1; 2]%nat] 0
           (Sample.stat "1500" "1500+" 100 150) 1500 [0%nat]
           (landing_fresh true) (landing_safe true) eq_refl eq_refl eq_refl).
  - discriminate.
  - exact landing_probe_reveals_first.
  - vm_compute. reflexivity.
Defined.

Lemma update_restarts_from_zero_witness :
  let w := run [Init [0; 1; 2]%nat] (Sample.landing true) in
  text_of 0 w = "30+"%string /\
  text_of 0 (Counters.update (Some [0%nat]) "99" w) = "0+"%string.
Proof.
  intros w. split; [vm_compute; reflexivity|].
  destruct (update_restarts_from_zero [0%nat] 0
              (set_textContent "30+" (add_class "animated" (Sample.stat "1500" "1500+" 100 150)))
              "99" w) as (Htext & _).
  - vm_compute. reflexivity.
  - vm_compute. reflexivity.
  - exact Htext.
Defined.

Lemma update_does_not_cancel_a_running_tween_witness :
  let w := Counters.update (Some [0%nat]) "99" (run [Init [0; 1; 2]%nat] (Sample.landing true)) in
  text_of 0 w = "0+"%string /\
  text_of 0 (settle w) = "1500+"%string.
Proof.
  intros w. split; [vm_compute; reflexivity|].
  destruct (update_does_not_cancel_a_running_tween (Sample.landing true)
              [Init [0; 1; 2]%nat] 0 (Sample.stat "1500" "1500+" 100 150) 1500 [0%nat] "99"
              (landing_fresh true) (landing_safe true) eq_refl eq_refl eq_refl)
    as (_ & _ & Htext & _).
  - vm_compute. discriminate.
  - vm_compute. reflexivity.
  - exact Htext.
Defined.

End MoreCountersSample.

(** ** Scroll animations and their reset *)

Section MoreAnimations.

Context `{R : Rounding}.

Lemma isInViewport_classes (w w' : World) el el' offset :
  innerHeight w' = innerHeight w -> clientHeight w' = clientHeight w ->
  rect_top el' = rect_top el -> rect_bottom el' = rect_bottom el ->
  Helpers.isInViewport w' el' offset = Helpers.isInViewport w el offset.
Proof.
  intros Hih Hch Ht Hb.
  unfold Helpers.isInViewport, Helpers.viewportHeight. now rewrite Hih, Hch, Ht, Hb.
Qed.

Lemma add_class_twice c el : add_class c (add_class c el) = add_class c el.
Proof.
  unfold add_class, set_classList. cbn [classList data_count textContent rect_top rect_bottom].
  f_equal. rewrite (assoc_L (∪)). now rewrite (idemp_L (∪)).
Qed.

Lemma elem_of_add_class c c' el :
  c' ∈ classList (add_class c el) <-> c' = c \/ c' ∈ classList el.
Proof. cbn. rewrite elem_of_union, elem_of_singleton. reflexivity. Qed.

Lemma elem_of_remove_class c c' el :
  c' ∈ classList (remove_class c el) <-> c' ∈ classList el /\ c' <> c.
Proof. cbn. rewrite elem_of_difference, elem_of_singleton. reflexivity. Qed.

(** [Animations.handleScrollAnimations]: an element gets the class [visible]
    when it is a [.fade-in] or [.slide-up] element in the viewport, keeps it
    when it has it, and nothing else of the element changes; a second call
    right after the first changes nothing. *)
Theorem scroll_reveals_what_is_in_view (w : World) e el :
  elements w !! e = Some el ->
  let w' := Animations.handleScrollAnimations w in
  (exists el',
     elements w' !! e = Some el' /\
     ("visible" ∈ classList el' <->
      "visible" ∈ classList el \/
      (("fade-in" ∈ classList el \/ "slide-up" ∈ classList el) /\
       Helpers.isInViewport w el 100 = true)) /\
     (forall c, c <> "visible" -> (c ∈ classList el' <-> c ∈ classList el)) /\
     textContent el' = textContent el /\ data_count el' = data_count el /\
     rect_top el' = rect_top el /\ rect_bottom el' = rect_bottom el) /\
  Animations.handleScrollAnimations w' = w'.
Proof.
  intros He w'. split.
  - unfold w', Animations.handleScrollAnimations. cbn [elements set_elements].
    rewrite lookup_fmap, He. cbn [fmap option_fmap option_map].
    eexists. split; [reflexivity|].
    destruct (bool_decide ("fade-in" ∈ classList el)) eqn:Hf;
      destruct (bool_decide ("slide-up" ∈ classList el)) eqn:Hs;
      destruct (Helpers.isInViewport w el 100) eqn:Hv; cbn [orb andb];
      try apply bool_decide_eq_true_1 in Hf; try apply bool_decide_eq_false_1 in Hf;
      try apply bool_decide_eq_true_1 in Hs; try apply bool_decide_eq_false_1 in Hs;
      repeat split; try reflexivity; try tauto;
      try (rewrite elem_of_add_class; tauto);
      try (intros c Hc; rewrite elem_of_add_class; tauto);
      intros [H|[_ H]]; try exact H; try discriminate H; tauto.
  - unfold w', Animations.handleScrollAnimations. cbn [elements set_elements].
    unfold set_elements. cbn [has_IntersectionObserver innerHeight clientHeight counters
                              observer timers trace]. f_equal.
    rewrite <- map_fmap_compose. apply map_fmap_ext. intros i x _. cbn [compose].
    set (b := (bool_decide ("fade-in" ∈ classList x) || bool_decide ("slide-up" ∈ classList x))
              && Helpers.isInViewport w x 100).
    destruct b eqn:Hb; subst b.
    + assert (Hv : forall w1 : World, innerHeight w1 = innerHeight w -> clientHeight w1 = clientHeight w ->
                 Helpers.isInViewport w1 (add_class "visible" x) 100 = Helpers.isInViewport w x 100).
      { intros w1 H1 H2. now apply isInViewport_classes. }
      rewrite Hv by reflexivity.
      assert (Hc : forall c, c <> "visible"%string ->
                 bool_decide (c ∈ classList (add_class "visible" x)) = bool_decide (c ∈ classList x)).
      { intros c Hc. apply bool_decide_ext. rewrite elem_of_add_class. tauto. }
      rewrite !Hc by discriminate. rewrite Hb. apply add_class_twice.
    + assert (Hv : forall w1 : World, innerHeight w1 = innerHeight w -> clientHeight w1 = clientHeight w ->
                 Helpers.isInViewport w1 x 100 = Helpers.isInViewport w x 100).
      { intros w1 H1 H2. now apply isInViewport_classes. }
      rewrite Hv by reflexivity. now rewrite Hb.
Qed.

Lemma reset_element_again el :
  let f := fun el =>
    if bool_decide ("fade-in" ∈ classList el) || bool_decide ("slide-up" ∈ classList el)
       || bool_decide ("animate-in" ∈ classList el)
    then remove_class "animated" (remove_class "animate-in" (remove_class "visible" el))
    else el in
  f (f el) = f el.
Proof.
  intros f. unfold f.
  set (g := remove_class "animated" (remove_class "animate-in" (remove_class "visible" el))).
  destruct (bool_decide ("fade-in" ∈ classList el) || bool_decide ("slide-up" ∈ classList el)
            || bool_decide ("animate-in" ∈ classList el)) eqn:Hm; [|now rewrite Hm].
  destruct (bool_decide ("fade-in" ∈ classList g) || bool_decide ("slide-up" ∈ classList g)
            || bool_decide ("animate-in" ∈ classList g)); [|reflexivity].
  unfold g, remove_class, set_classList.
  cbn [classList data_count textContent rect_top rect_bottom]. f_equal.
  apply set_eq. intros c. rewrite !elem_of_difference. tauto.
Qed.

(** [Animations.reset]: an element with none of the classes [fade-in],
    [slide-up], [animate-in] is left as it is; an element with one of them
    loses [visible], [animate-in] and [animated] and nothing else; timers,
    observer and texts are untouched, and a second reset changes nothing.
    After the reset the scroll handler makes a [.fade-in] or [.slide-up]
    element visible exactly when it is in the viewport. Since the class
    [animated] is also the marker of the counters, a counter with one of the
    three classes can be revealed once more: [animateCounter] starts a new
    tween on it, from the text it shows. *)
Theorem animations_reset_rearms_the_reveal (w : World) e el :
  elements w !! e = Some el ->
  let matched := "fade-in" ∈ classList el \/ "slide-up" ∈ classList el
                 \/ "animate-in" ∈ classList el in
  let w1 := Animations.reset w in
  timers w1 = timers w /\ observer w1 = observer w /\ trace w1 = trace w /\
  Animations.reset w1 = w1 /\
  (~ matched -> elements w1 !! e = Some el) /\
  (matched ->
   exists el1,
     elements w1 !! e = Some el1 /\
     (forall c, c ∈ classList el1 <->
                c ∈ classList el /\ c <> "visible" /\ c <> "animate-in" /\ c <> "animated") /\
     textContent el1 = textContent el /\ data_count el1 = data_count el /\
     (exists el2,
        elements (Animations.handleScrollAnimations w1) !! e = Some el2 /\
        ("visible" ∈ classList el2 <->
         ("fade-in" ∈ classList el \/ "slide-up" ∈ classList el) /\
         Helpers.isInViewport w el 100 = true)) /\
     forall via target,
       Js.parseInt_attr (data_count el) = Some target ->
       Counters.animateCounter via e w1 =
       Counters.updateCounter (tween_at e (Js.strip_digits (textContent el)) target 0)
         (mark via e w1)).
Proof.
  intros He matched w1.
  split; [reflexivity|]. split; [reflexivity|]. split; [reflexivity|].
  split.
  { unfold w1, Animations.reset. cbn [elements set_elements].
    unfold set_elements. cbn [has_IntersectionObserver innerHeight clientHeight counters
                              observer timers trace]. f_equal.
    rewrite <- map_fmap_compose. apply map_fmap_ext. intros i x _.
    apply (reset_element_again x). }
  assert (Hdec : bool_decide ("fade-in" ∈ classList el) || bool_decide ("slide-up" ∈ classList el)
                 || bool_decide ("animate-in" ∈ classList el) = true <-> matched).
  { unfold matched. rewrite !orb_true_iff, !bool_decide_eq_true. tauto. }
  assert (Hlook : elements w1 !! e =
            Some (if bool_decide ("fade-in" ∈ classList el) || bool_decide ("slide-up" ∈ classList el)
                     || bool_decide ("animate-in" ∈ classList el)
                  then remove_class "animated" (remove_class "animate-in" (remove_class "visible" el))
                  else el)).
  { unfold w1, Animations.reset. cbn [elements set_elements]. now rewrite lookup_fmap, He. }
  split.
  { intros Hno. rewrite Hlook. destruct (_ || _ || _); [|reflexivity].
    exfalso. apply Hno, Hdec. reflexivity. }
  intros Hm. apply Hdec in Hm. rewrite Hm in Hlook.
  set (el1 := remove_class "animated" (remove_class "animate-in" (remove_class "visible" el))) in *.
  assert (Hcl : forall c, c ∈ classList el1 <->
                c ∈ classList el /\ c <> "visible" /\ c <> "animate-in" /\ c <> "animated").
  { intros c. unfold el1. rewrite !elem_of_remove_class. tauto. }
  exists el1. split; [exact Hlook|]. split; [exact Hcl|].
  split; [reflexivity|]. split; [reflexivity|]. split.
  - destruct (scroll_reveals_what_is_in_view w1 e el1 Hlook) as [(el2 & He2 & Hv & _) _].
    exists el2. split; [exact He2|]. rewrite Hv, !Hcl.
    rewrite (isInViewport_classes w w1 el el1 100) by reflexivity.
    split.
    + intros [(_ & H & _)|[[H|H] Hin]]; [congruence|tauto|tauto].
    + intros [[H|H] Hin]; right; (split; [|exact Hin]); [left|right];
        (split; [exact H|]); repeat split; discriminate.
  - intros via target Hp.
    apply (animateCounter_start via e w1 el1 target Hlook); [|exact Hp].
    rewrite Hcl. intros (_ & _ & _ & H). now apply H.
Qed.

End MoreAnimations.

Section MoreAnimationsSample.

#[local] Existing Instance exact_arithmetic.

Lemma scroll_reveals_what_is_in_view_witness :
  (exists el', elements (Animations.handleScrollAnimations Sample.brochure) !! 0%nat = Some el' /\
               "visible" ∈ classList el') /\
  (exists el', elements (Animations.handleScrollAnimations Sample.brochure) !! 1%nat = Some el' /\
               "visible" ∉ classList el').
Proof.
  split.
  - destruct (scroll_reveals_what_is_in_view Sample.brochure 0
                (Sample.block {["fade-in"]} None "Courses" 100 150) eq_refl)
      as [(el' & He' & Hv & _) _].
    exists el'. split; [exact He'|]. apply Hv. right. split; [|reflexivity].
    left. vm_compute. reflexivity.
  - destruct (scroll_reveals_what_is_in_view Sample.brochure 1
                (Sample.block {["slide-up"]} None "Contact" 5000 5050) eq_refl)
      as [(el' & He' & Hv & _) _].
    exists el'. split; [exact He'|]. rewrite Hv. intros [H|[_ H]].
    + vm_compute in H. discriminate.
    + vm_compute in H. discriminate.
Defined.

Lemma animations_reset_rearms_the_reveal_witness :
  let w := settle (run [Init [0; 1; 2]%nat] Sample.brochure) in
  text_of 2 w = "40k"%string /\
  tween_starts 2 (trace w) = 1%nat /\
  tween_starts 2 (trace (Counters.animateCounter ViaAnimateAll 2 (Animations.reset w))) = 2%nat.
Proof.
  intros w. split; [vm_compute; reflexivity|]. split; [vm_compute; reflexivity|].
  destruct (animations_reset_rearms_the_reveal w 2
              (set_textContent "40k" (add_class "animated"
                 (Sample.block ({["stat-number"]} ∪ {["fade-in"]}) (Some "40") "40k" 300 350))))
    as (_ & _ & _ & _ & _ & Hm).
  - vm_compute. reflexivity.
  - destruct Hm as (el1 & _ & _ & _ & _ & _ & Hagain).
    + left. vm_compute. reflexivity.
    + rewrite (Hagain ViaAnimateAll 40 eq_refl). vm_compute. reflexivity.
Defined.

End MoreAnimationsSample.

(** ** The tween of the stat cards ([Animations.animateStatNumbers]) *)

Section StatTween.

Context `{R : Rounding} `{P : MathPow}.

Lemma min_le_l x y : (Js.min x y <= x)%Q.
Proof.
  unfold Js.min. destruct (Qle_bool x y) eqn:H; [apply Qle_refl|].
  destruct (Qlt_le_dec x y) as [Hlt|Hle]; [|exact Hle].
  apply Qlt_le_weak, Qle_bool_iff in Hlt. congruence.
Qed.

Lemma min_le_r x y : (Js.min x y <= y)%Q.
Proof.
  unfold Js.min. destruct (Qle_bool x y) eqn:H; [|apply Qle_refl].
  now apply Qle_bool_iff.
Qed.

Lemma min_glb x y z : (z <= x)%Q -> (z <= y)%Q -> (z <= Js.min x y)%Q.
Proof. intros Hx Hy. unfold Js.min. now destruct (Qle_bool x y). Qed.

Lemma min_mono x x' y : (x <= x')%Q -> (Js.min x y <= Js.min x' y)%Q.
Proof.
  intros H. apply min_glb.
  - apply Qle_trans with x; [apply min_le_l|exact H].
  - apply min_le_r.
Qed.

Lemma rnd_one : (rnd 1 == 1)%Q.
Proof. apply (rnd_int 1). vm_compute. discriminate. Qed.

Lemma rnd_unit x : (0 <= x)%Q -> (x <= 1)%Q -> (0 <= rnd x)%Q /\ (rnd x <= 1)%Q.
Proof.
  intros H0 H1. split.
  - rewrite <- rnd_zero. now apply rnd_mono.
  - rewrite <- rnd_one. now apply rnd_mono.
Qed.

Lemma elapsed_nonneg s t : (s <= t)%Q -> (0 <= Js.div (Js.sub t s) 1500)%Q.
Proof.
  intros H. unfold Js.div, Js.sub.
  assert (H1 : (0 <= rnd (t - s))%Q) by (rewrite <- rnd_zero; apply rnd_mono; lra).
  rewrite <- rnd_zero. apply rnd_mono. no_div. lra.
Qed.

Lemma progress_range s t :
  (s <= t)%Q -> (0 <= Animations.progress_at s t)%Q /\ (Animations.progress_at s t <= 1)%Q.
Proof.
  intros H. unfold Animations.progress_at. split; [|apply min_le_r].
  apply min_glb; [now apply elapsed_nonneg|lra].
Qed.

Lemma progress_mono s t t' :
  (t <= t')%Q -> (Animations.progress_at s t <= Animations.progress_at s t')%Q.
Proof.
  intros H. unfold Animations.progress_at. apply min_mono.
  unfold Js.div, Js.sub. apply rnd_mono.
  assert (H1 : (rnd (t - s) <= rnd (t' - s))%Q) by (apply rnd_mono; lra).
  no_div. lra.
Qed.

(** After 1500 milliseconds the progress is 1. *)
Lemma progress_end s t : (s + 1500 <= t)%Q -> (1 <= Animations.progress_at s t)%Q.
Proof.
  intros H. unfold Animations.progress_at. apply min_glb; [|lra].
  unfold Js.div, Js.sub.
  assert (H1 : (1500 <= rnd (t - s))%Q).
  { rewrite <- (rnd_int 1500) by (vm_compute; discriminate).
    apply rnd_mono. change (inject_Z 1500) with 1500%Q. lra. }
  rewrite <- rnd_one. apply rnd_mono. no_div. lra.
Qed.

Lemma progress_start t : (Animations.progress_at t t == 0)%Q.
Proof.
  unfold Animations.progress_at.
  assert (H : (Js.div (Js.sub t t) 1500 == 0)%Q).
  { unfold Js.div, Js.sub.
    assert (H1 : (rnd (t - t) == 0)%Q) by (rewrite <- rnd_zero; apply rnd_proper; ring).
    apply Qeq_trans with (rnd 0); [|apply rnd_zero].
    apply rnd_proper. rewrite H1. reflexivity. }
  unfold Js.min. destruct (Qle_bool _ 1) eqn:Hb; [exact H|].
  assert (Hle : (Js.div (Js.sub t t) 1500 <= 1)%Q) by (rewrite H; lra).
  apply Qle_bool_iff in Hle. congruence.
Qed.

Lemma easeOutQuart_range p :
  (0 <= p)%Q -> (p <= 1)%Q ->
  (0 <= Animations.easeOutQuart p)%Q /\ (Animations.easeOutQuart p <= 1)%Q.
Proof.
  intros H0 H1. unfold Animations.easeOutQuart, Js.sub.
  destruct (rnd_unit (1 - p)) as [Ha0 Ha1]; [lra|lra|].
  destruct (pow4_range (rnd (1 - p)) Ha0 Ha1) as [Hb0 Hb1].
  apply rnd_unit; lra.
Qed.

Lemma easeOutQuart_mono p p' :
  (0 <= p)%Q -> (p <= p')%Q -> (p' <= 1)%Q ->
  (Animations.easeOutQuart p <= Animations.easeOutQuart p')%Q.
Proof.
  intros H0 Hpp H1. unfold Animations.easeOutQuart, Js.sub.
  destruct (rnd_unit (1 - p)) as [Ha0 Ha1]; [lra|lra|].
  destruct (rnd_unit (1 - p')) as [Hb0 Hb1]; [lra|lra|].
  assert (Hr : (rnd (1 - p') <= rnd (1 - p))%Q) by (apply rnd_mono; lra).
  pose proof (pow4_mono _ _ Hb0 Hr Ha1) as Hpow.
  apply rnd_mono. lra.
Qed.

Lemma currentNumber_range numberValue p :
  0 <= numberValue <= 2 ^ 53 ->
  (0 <= p)%Q -> (p <= 1)%Q ->
  0 <= Animations.currentNumber numberValue p <= numberValue.
Proof.
  intros HN H0 H1. unfold Animations.currentNumber, Js.mul.
  destruct (easeOutQuart_range p H0 H1) as [He0 He1].
  assert (HNq : (0 <= inject_Z numberValue)%Q) by (rewrite <- (Zle_Qle 0); lia).
  assert (Hlo : (0 <= rnd (Animations.easeOutQuart p * inject_Z numberValue))%Q).
  { rewrite <- rnd_zero. apply rnd_mono. nra. }
  assert (Hhi : (rnd (Animations.easeOutQuart p * inject_Z numberValue) <= inject_Z numberValue)%Q).
  { rewrite <- (rnd_int numberValue) at 2 by lia. apply rnd_mono. nra. }
  split.
  - apply (Qfloor_resp_le 0) in Hlo. exact Hlo.
  - apply Qfloor_resp_le in Hhi. now rewrite Qfloor_Z in Hhi.
Qed.

Lemma currentNumber_mono numberValue p p' :
  0 <= numberValue ->
  (0 <= p)%Q -> (p <= p')%Q -> (p' <= 1)%Q ->
  Animations.currentNumber numberValue p <= Animations.currentNumber numberValue p'.
Proof.
  intros HN H0 Hpp H1. unfold Animations.currentNumber, Js.mul.
  apply Qfloor_resp_le, rnd_mono.
  pose proof (easeOutQuart_mono p p' H0 Hpp H1) as He.
  assert (HNq : (0 <= inject_Z numberValue)%Q) by (rewrite <- (Zle_Qle 0); lia).
  nra.
Qed.

(** *** One frame *)

Lemma step_running e orig numberValue s t (w : World) :
  Qeq_bool s 0 = false ->
  let st := {| ss_element := e; ss_originalText := orig;
               ss_numberValue := numberValue; ss_startTimestamp := Some s |} in
  let p := Animations.progress_at s t in
  let w1 := write_text e (Animations.stat_text orig numberValue
                            (Animations.currentNumber numberValue p)) w in
  Animations.step st t w =
  if Qlt_le_dec p 1 then (w1, Some st) else (write_text e orig w1, None).
Proof.
  intros Hs st p w1. unfold Animations.step, st.
  cbn [ss_element ss_originalText ss_numberValue ss_startTimestamp]. rewrite Hs.
  reflexivity.
Qed.

Lemma step_first e orig numberValue t (w : World) :
  let p := Animations.progress_at t t in
  let w1 := write_text e (Animations.stat_text orig numberValue
                            (Animations.currentNumber numberValue p)) w in
  Animations.step {| ss_element := e; ss_originalText := orig;
                     ss_numberValue := numberValue; ss_startTimestamp := None |} t w =
  (w1, Some {| ss_element := e; ss_originalText := orig;
               ss_numberValue := numberValue; ss_startTimestamp := Some t |}).
Proof.
  intros p w1. unfold Animations.step.
  cbn [ss_element ss_originalText ss_numberValue ss_startTimestamp].
  fold p. destruct (Qlt_le_dec p 1) as [Hlt|Hge]; [reflexivity|].
  unfold p in Hge. rewrite progress_start in Hge. lra.
Qed.

Lemma writes_to_write_text e s (w : World) :
  writes_to e (trace (write_text e s w)) = writes_to e (trace w) ++ [s].
Proof.
  expose. rewrite writes_to_app. cbn [writes_to].
  destruct (decide (e = e)); [reflexivity|congruence].
Qed.

(** *** The frames after the first *)

Lemma play_running e orig numberValue s :
  Qeq_bool s 0 = false -> 0 <= numberValue <= 2 ^ 53 ->
  let st := {| ss_element := e; ss_originalText := orig;
               ss_numberValue := numberValue; ss_startTimestamp := Some s |} in
  let render := Animations.stat_text orig numberValue in
  forall later lo (w : World),
    (s <= lo)%Q -> StronglySorted Qle (lo :: later) ->
    is_Some (elements w !! e) ->
    exists values,
      Forall (fun v => Animations.currentNumber numberValue (Animations.progress_at s lo) <= v
                       /\ v <= numberValue) values /\
      StronglySorted Z.le values /\
      is_Some (elements (Animations.play later st w).1 !! e) /\
      ((Animations.play later st w).2 = None /\
       writes_to e (trace (Animations.play later st w).1) =
         writes_to e (trace w) ++ map render values ++ [orig] /\
       text_of e (Animations.play later st w).1 = orig
       \/
       (Animations.play later st w).2 = Some st /\
       writes_to e (trace (Animations.play later st w).1) =
         writes_to e (trace w) ++ map render values /\
       length values = length later) /\
      ((exists t, In t later /\ (s + 1500 <= t)%Q) -> (Animations.play later st w).2 = None).
Proof.
  intros Hs HN st render later.
  induction later as [|t later IH]; intros lo w Hlo Hsorted Hsome.
  - exists []. cbn [Animations.play fst snd map length].
    split; [constructor|]. split; [constructor|]. split; [exact Hsome|]. split.
    + right. now rewrite app_nil_r.
    + intros (t & [] & _).
  - apply StronglySorted_inv in Hsorted as [Hsorted Hall].
    assert (Hlot : (lo <= t)%Q) by (apply Forall_inv in Hall; exact Hall).
    assert (Hst : (s <= t)%Q) by lra.
    destruct (progress_range s lo Hlo) as [Hplo0 Hplo1].
    destruct (progress_range s t Hst) as [Hp0 Hp1].
    pose proof (progress_mono s lo t Hlot) as Hpm.
    set (p := Animations.progress_at s t) in *.
    set (v := Animations.currentNumber numberValue p).
    assert (Hv : Animations.currentNumber numberValue (Animations.progress_at s lo) <= v
                 /\ v <= numberValue).
    { split; [apply currentNumber_mono; [lia|assumption..]|].
      apply currentNumber_range; assumption. }
    pose proof (step_running e orig numberValue s t w Hs) as Hstep.
    cbv zeta in Hstep. fold st p v in Hstep.
    set (w1 := write_text e (Animations.stat_text orig numberValue v) w) in *.
    cbn [Animations.play]. rewrite Hstep. clear Hstep.
    assert (Hsome1 : is_Some (elements w1 !! e)) by now apply is_Some_write_text.
    destruct (Qlt_le_dec p 1) as [Hlt|Hge].
    + destruct (IH t w1 Hst Hsorted Hsome1) as (values & Hbound & Hsort & Hsome2 & Hcases & Hend).
      exists (v :: values).
      split.
      { constructor; [exact Hv|]. eapply List.Forall_impl; [|exact Hbound].
        cbn. intros x [Hx1 Hx2]. fold p in Hx1. split; lia. }
      split.
      { constructor; [exact Hsort|]. eapply List.Forall_impl; [|exact Hbound].
        cbn. intros x [Hx1 _]. fold p in Hx1. fold v in Hx1. exact Hx1. }
      split; [exact Hsome2|]. split.
      * destruct Hcases as [(Hcb & Htr & Htext)|(Hcb & Htr & Hlen)]; [left|right].
        -- split; [exact Hcb|]. split; [|exact Htext].
           rewrite Htr. unfold w1. rewrite writes_to_write_text.
           cbn [map]. now rewrite <- !app_assoc.
        -- split; [exact Hcb|]. split; [|cbn [length]; now rewrite Hlen].
           rewrite Htr. unfold w1. rewrite writes_to_write_text.
           cbn [map]. now rewrite <- !app_assoc.
      * intros (t' & [<-|Hin] & Ht'); [|apply Hend; now exists t'].
        pose proof (progress_end s t Ht') as Hpe. fold p in Hpe. lra.
    + exists [v]. cbn [fst snd].
      split; [repeat constructor; apply Hv|]. split; [repeat constructor|].
      split; [now apply is_Some_write_text|]. split.
      * left. split; [reflexivity|]. split.
        -- rewrite writes_to_write_text. unfold w1. rewrite writes_to_write_text.
           cbn [map]. now rewrite <- !app_assoc.
        -- now apply text_of_write_text_same.
      * reflexivity.
Qed.

(** The tween ends at the first frame that comes 1500 milliseconds or more
    after the start; the last thing it writes is the original text. *)
Lemma play_ends e orig numberValue s :
  Qeq_bool s 0 = false ->
  let st := {| ss_element := e; ss_originalText := orig;
               ss_numberValue := numberValue; ss_startTimestamp := Some s |} in
  forall later (w : World),
    is_Some (elements w !! e) ->
    (exists t, In t later /\ (s + 1500 <= t)%Q) ->
    (Animations.play later st w).2 = None /\
    text_of e (Animations.play later st w).1 = orig /\
    exists before, writes_to e (trace (Animations.play later st w).1) = before ++ [orig].
Proof.
  intros Hs st later.
  induction later as [|t later IH]; intros w Hsome (t' & Hin & Ht'); [destruct Hin|].
  pose proof (step_running e orig numberValue s t w Hs) as Hstep.
  cbv zeta in Hstep. fold st in Hstep.
  cbn [Animations.play]. rewrite Hstep. clear Hstep.
  destruct (Qlt_le_dec (Animations.progress_at s t) 1) as [Hlt|Hge].
  - apply IH; [now apply is_Some_write_text|].
    destruct Hin as [<-|Hin]; [|now exists t'].
    pose proof (progress_end s t Ht'). lra.
  - cbn [fst snd]. split; [reflexivity|].
    split; [apply text_of_write_text_same; now apply is_Some_write_text|].
    eexists. apply writes_to_write_text.
Qed.

(** *** The whole tween *)

Lemma animateStatNumbers_start descendants e el numberValue (w : World) :
  querySelector_stat_number descendants w = Some e ->
  elements w !! e = Some el ->
  Js.parseInt (textContent el) = Some numberValue ->
  "animated" ∉ classList el ->
  Animations.animateStatNumbers descendants w =
  (write_text e "0" (set_elements (alter (add_class "animated") e (elements w)) w),
   Some {| ss_element := e; ss_originalText := textContent el;
           ss_numberValue := numberValue; ss_startTimestamp := None |}).
Proof.
  intros Hq He Hp Hm. unfold Animations.animateStatNumbers. rewrite Hq, He, Hp.
  destruct (decide ("animated" ∈ classList el)); [contradiction|reflexivity].
Qed.

Lemma positive_is_truthy t : (0 < t)%Q -> Qeq_bool t 0 = false.
Proof.
  intros Ht. destruct (Qeq_bool t 0) eqn:H; [|reflexivity].
  apply Qeq_bool_eq in H. lra.
Qed.

(** [Animations.animateStatNumbers] on a card whose number parses to
    [numberValue >= 0] and is not yet marked: the element is marked and shows
    "0"; then, with frames at timestamps that do not decrease, the first one
    positive, every frame writes an integer between 0 and [numberValue]
    followed by the original text without the first occurrence of the number;
    these integers never decrease; and the only other thing the tween may
    write, last, is the original text. *)
Theorem stat_tween_counts_up_within_bounds
    descendants e el numberValue t0 later (w : World) :
  querySelector_stat_number descendants w = Some e ->
  elements w !! e = Some el ->
  Js.parseInt (textContent el) = Some numberValue ->
  "animated" ∉ classList el ->
  0 <= numberValue <= 2 ^ 53 ->
  (0 < t0)%Q -> StronglySorted Qle (t0 :: later) ->
  let render := Animations.stat_text (textContent el) numberValue in
  exists w1 st values tail,
    Animations.animateStatNumbers descendants w = (w1, Some st) /\
    animated e w1 /\ text_of e w1 = "0"%string /\
    StronglySorted Z.le values /\
    Forall (fun v => 0 <= v <= numberValue) values /\
    (tail = [] \/ tail = [textContent el]) /\
    writes_to e (trace (Animations.play (t0 :: later) st w1).1) =
      writes_to e (trace w) ++ ["0"%string] ++ map render values ++ tail.
Proof.
  intros Hq He Hp Hm HN Ht0 Hsorted render.
  rewrite (animateStatNumbers_start descendants e el numberValue w Hq He Hp Hm).
  set (w1 := write_text e "0" (set_elements (alter (add_class "animated") e (elements w)) w)).
  assert (Hsome1 : is_Some (elements w1 !! e)).
  { unfold w1. apply is_Some_write_text. cbn [elements set_elements].
    rewrite lookup_alter_eq, He. now eexists. }
  assert (Hw1 : writes_to e (trace w1) = writes_to e (trace w) ++ ["0"%string])
    by (unfold w1; rewrite writes_to_write_text; reflexivity).
  pose proof (step_first e (textContent el) numberValue t0 w1) as Hstep. cbv zeta in Hstep.
  destruct (progress_range t0 t0 (Qle_refl t0)) as [Hp0 Hp1].
  set (v0 := Animations.currentNumber numberValue (Animations.progress_at t0 t0)) in *.
  set (w2 := write_text e (Animations.stat_text (textContent el) numberValue v0) w1) in *.
  assert (Hv0 : 0 <= v0 <= numberValue) by (apply currentNumber_range; assumption).
  destruct (play_running e (textContent el) numberValue t0 (positive_is_truthy t0 Ht0) HN
              later t0 w2 (Qle_refl t0) Hsorted) as (values & Hbound & Hsort & _ & Hcases & _).
  { unfold w2. now apply is_Some_write_text. }
  fold v0 in Hbound.
  assert (Hw2 : writes_to e (trace w2) =
                writes_to e (trace w) ++ ["0"%string] ++ [render v0]).
  { unfold w2. rewrite writes_to_write_text, Hw1. now rewrite <- app_assoc. }
  eexists w1, _, (v0 :: values),
    (match (Animations.play (t0 :: later) _ w1).2 with
     | None => [textContent el]
     | Some _ => []
     end).
  split; [reflexivity|]. split.
  { exists (set_textContent "0" (add_class "animated" el)). split.
    - unfold w1. expose. now rewrite !lookup_alter_eq, He.
    - apply elem_of_add_class. now left. }
  split.
  { unfold w1. apply text_of_write_text_same. cbn [elements set_elements].
    rewrite lookup_alter_eq, He. now eexists. }
  split.
  { constructor; [exact Hsort|]. eapply List.Forall_impl; [|exact Hbound]. cbn. tauto. }
  split.
  { constructor; [exact Hv0|]. eapply List.Forall_impl; [|exact Hbound]. cbn. lia. }
  cbn [Animations.play]. rewrite Hstep.
  destruct Hcases as [(Hcb & Htr & _)|(Hcb & Htr & _)]; rewrite Hcb.
  - split; [now right|]. rewrite Htr, Hw2. cbn [map]. now rewrite <- !app_assoc.
  - split; [now left|]. rewrite Htr, Hw2. cbn [map]. now rewrite <- !app_assoc, app_nil_r.
Qed.

(** The tween of a stat card ends: as soon as a frame comes 1500 milliseconds
    or more after the first one (whose timestamp is positive), [step] asks for
    no further frame, and the element shows its original text again, which is
    also the last text written to it. *)
Theorem stat_tween_ends_on_the_original_text
    descendants e el numberValue t0 later (w : World) :
  querySelector_stat_number descendants w = Some e ->
  elements w !! e = Some el ->
  Js.parseInt (textContent el) = Some numberValue ->
  "animated" ∉ classList el ->
  (0 < t0)%Q ->
  (exists t, In t later /\ (t0 + 1500 <= t)%Q) ->
  exists w1 st,
    Animations.animateStatNumbers descendants w = (w1, Some st) /\
    (Animations.play (t0 :: later) st w1).2 = None /\
    text_of e (Animations.play (t0 :: later) st w1).1 = textContent el /\
    exists before,
      writes_to e (trace (Animations.play (t0 :: later) st w1).1) = before ++ [textContent el].
Proof.
  intros Hq He Hp Hm Ht0 Hlate.
  rewrite (animateStatNumbers_start descendants e el numberValue w Hq He Hp Hm).
  set (w1 := write_text e "0" (set_elements (alter (add_class "animated") e (elements w)) w)).
  assert (Hsome1 : is_Some (elements w1 !! e)).
  { unfold w1. apply is_Some_write_text. cbn [elements set_elements].
    rewrite lookup_alter_eq, He. now eexists. }
  pose proof (step_first e (textContent el) numberValue t0 w1) as Hstep. cbv zeta in Hstep.
  eexists w1, _. split; [reflexivity|].
  cbn [Animations.play]. rewrite Hstep.
  apply (play_ends e (textContent el) numberValue t0 (positive_is_truthy t0 Ht0));
    [now apply is_Some_write_text|exact Hlate].
Qed.

(** *** The marker shared with the counters *)

Lemma find_stat_number_ext descendants (w w' : World) :
  (forall x, (match elements w' !! x with
              | Some el => bool_decide ("stat-number" ∈ classList el)
              | None => false
              end) =
             (match elements w !! x with
              | Some el => bool_decide ("stat-number" ∈ classList el)
              | None => false
              end)) ->
  querySelector_stat_number descendants w' = querySelector_stat_number descendants w.
Proof.
  intros H. unfold querySelector_stat_number.
  induction descendants as [|x l IH]; [reflexivity|].
  cbn [List.find]. now rewrite H, IH.
Qed.

(** [Animations.animateStatNumbers] and [Counters.animateCounter] test and set
    the same class on the same element, so the one that comes first keeps the
    other from starting: after the stat tween has started, [animateCounter]
    on the number element changes nothing, and after [animateCounter] has
    started its tween, [animateStatNumbers] on the card changes nothing and
    asks for no animation frame. *)
Theorem stat_tween_and_counter_tween_exclude descendants e el (w : World) :
  querySelector_stat_number descendants w = Some e ->
  elements w !! e = Some el ->
  "animated" ∉ classList el ->
  (forall numberValue via,
     Js.parseInt (textContent el) = Some numberValue ->
     exists w1 st,
       Animations.animateStatNumbers descendants w = (w1, Some st) /\
       Counters.animateCounter via e w1 = w1) /\
  (forall target via,
     Js.parseInt_attr (data_count el) = Some target ->
     animated e (Counters.animateCounter via e w) /\
     Animations.animateStatNumbers descendants (Counters.animateCounter via e w) =
     (Counters.animateCounter via e w, None)).
Proof.
  intros Hq He Hm. split.
  - intros numberValue via Hp.
    rewrite (animateStatNumbers_start descendants e el numberValue w Hq He Hp Hm).
    eexists _, _. split; [reflexivity|].
    apply animateCounter_marked with (set_textContent "0" (add_class "animated" el)).
    + expose. now rewrite !lookup_alter_eq, He.
    + apply elem_of_add_class. now left.
  - intros target via Hp.
    pose proof (animateCounter_sets_marker via e w el target He Hm Hp) as Han.
    split; [exact Han|].
    set (w' := Counters.animateCounter via e w) in *.
    assert (Hels : exists s, elements w' =
              alter (set_textContent s) e (alter (add_class "animated") e (elements w))).
    { unfold w'. rewrite (animateCounter_start via e w el target He Hm Hp).
      destruct (updateCounter_elements
                  (tween_at e (Js.strip_digits (textContent el)) target 0) (mark via e w))
        as [s Hs].
      exists s. exact Hs. }
    destruct Hels as [s Hels].
    assert (Hq' : querySelector_stat_number descendants w' = Some e).
    { rewrite <- Hq. apply find_stat_number_ext. intros x. rewrite Hels.
      destruct (decide (x = e)) as [->|Hne].
      - rewrite !lookup_alter_eq, He. cbn [fmap option_fmap option_map].
        apply bool_decide_ext. cbn [set_textContent classList].
        rewrite elem_of_add_class. split; [|tauto]. intros [H|H]; [discriminate H|exact H].
      - rewrite !lookup_alter_ne by congruence. reflexivity. }
    destruct Han as (el' & He' & Hm').
    unfold Animations.animateStatNumbers. rewrite Hq', He'.
    destruct (Js.parseInt (textContent el')); [|reflexivity].
    destruct (decide ("animated" ∈ classList el')); [reflexivity|contradiction].
Qed.

End StatTween.

Section StatTweenSample.

#[local] Existing Instance exact_arithmetic.
#[local] Existing Instance exact_pow.

Lemma four_frames_sorted : StronglySorted Qle [16; 516; 1016; 1516]%Q.
Proof. repeat constructor; vm_compute; discriminate. Qed.

Lemma stat_tween_counts_up_within_bounds_witness :
  exists w1 st,
    Animations.animateStatNumbers [0%nat] (Sample.landing true) = (w1, Some st) /\
    text_of 0 w1 = "0"%string /\
    writes_to 0 (trace (Animations.play [16; 516; 1016]%Q st w1).1) =
      ["0"; "0+"; "1203+"; "1481+"]%string.
Proof.
  destruct (stat_tween_counts_up_within_bounds [0%nat] 0 (Sample.stat "1500" "1500+" 100 150)
              1500 16 [516; 1016; 1516]%Q (Sample.landing true) eq_refl eq_refl eq_refl)
    as (w1 & st & values & tail & Hstart & _ & Htext & _).
  - vm_compute. intros H. discriminate H.
  - split; [discriminate|]. apply Z.leb_le. reflexivity.
  - reflexivity.
  - exact four_frames_sorted.
  - exists w1, st. split; [exact Hstart|]. split; [exact Htext|].
    injection Hstart as <- <-. vm_compute. reflexivity.
Defined.

Lemma stat_tween_ends_on_the_original_text_witness :
  exists w1 st,
    Animations.animateStatNumbers [0%nat] (Sample.landing true) = (w1, Some st) /\
    text_of 0 (Animations.play [16; 516; 1016; 1516]%Q st w1).1 = "1500+"%string.
Proof.
  destruct (stat_tween_ends_on_the_original_text [0%nat] 0 (Sample.stat "1500" "1500+" 100 150)
              1500 16 [516; 1016; 1516]%Q (Sample.landing true) eq_refl eq_refl eq_refl)
    as (w1 & st & Hstart & _ & Htext & _).
  - vm_compute. intros H. discriminate H.
  - reflexivity.
  - exists 1516%Q. split; [cbn; tauto|]. vm_compute. discriminate.
  - exists w1, st. split; [exact Hstart|exact Htext].
Defined.

Lemma stat_tween_and_counter_tween_exclude_witness :
  let w := Sample.landing true in
  tween_starts 0 (trace (Counters.animateCounter ViaAnimateAll 0
                           (Animations.animateStatNumbers [0%nat] w).1)) = 0%nat /\
  Animations.animateStatNumbers [0%nat] (Counters.animateCounter ViaProbe 0 w) =
  (Counters.animateCounter ViaProbe 0 w, None).
Proof.
  intros w.
  destruct (stat_tween_and_counter_tween_exclude [0%nat] 0
              (Sample.stat "1500" "1500+" 100 150) w eq_refl eq_refl) as [Hfirst Hsecond].
  - vm_compute. intros H. discriminate H.
  - split.
    + destruct (Hfirst 1500 ViaAnimateAll eq_refl) as (w1 & st & Hstart & Hsame).
      rewrite Hstart. cbn [fst]. rewrite Hsame.
      injection Hstart as <- _. reflexivity.
    + apply (Hsecond 1500 ViaProbe eq_refl).
Defined.

End StatTweenSample.

(** ** Easing ([Helpers.easing]) *)

Section Easing.

Context `{R : Rounding}.

#[local] Instance rnd_Proper : Proper (Qeq ==> Qeq) rnd.
Proof. intros x y H. now apply rnd_proper. Qed.

Lemma rnd_integer x n : (x == inject_Z n)%Q -> Z.abs n <= 2 ^ 53 -> (rnd x == inject_Z n)%Q.
Proof. intros Hx Hn. rewrite Hx. now apply rnd_int. Qed.

(** Rounds every constant of the goal that is an integer. *)
Ltac round_constants :=
  repeat match goal with
  | |- context [rnd ?x] =>
      lazymatch x with context [rnd _] => fail | _ => idtac end;
      let n := eval vm_compute in (Qfloor x) in
      rewrite (rnd_integer x n) by (vm_compute; first [reflexivity|discriminate])
  end.

Ltac table_entry H :=
  unfold Helpers.easingFunctions in H;
  repeat match type of H with
  | (if ?b then _ else _) = _ => destruct b
  end;
  try discriminate H; injection H as <-.

Lemma easing_function_at_0 name f p :
  Helpers.easingFunctions name = Some f -> (p == 0)%Q -> (f p == 0)%Q.
Proof.
  intros H Hp. table_entry H; cbv beta zeta; unfold Helpers.easeInOutCubic;
    try (destruct (Qlt_le_dec p (1 # 2)); [|lra]);
    unfold Js.add, Js.sub, Js.mul; rewrite ?Hp; round_constants;
    first [exact Hp | vm_compute; reflexivity].
Qed.

Lemma easing_function_at_1 name f p :
  Helpers.easingFunctions name = Some f -> (p == 1)%Q -> (f p == 1)%Q.
Proof.
  intros H Hp. table_entry H; cbv beta zeta; unfold Helpers.easeInOutCubic;
    try (destruct (Qlt_le_dec p (1 # 2)); [lra|]);
    unfold Js.add, Js.sub, Js.mul; rewrite ?Hp; round_constants;
    first [exact Hp | vm_compute; reflexivity].
Qed.

Lemma positive_duration d : (0 < d)%Q -> Qeq_bool d 0 = false.
Proof.
  intros Hd. destruct (Qeq_bool d 0) eqn:H; [|reflexivity].
  apply Qeq_bool_eq in H. lra.
Qed.

Lemma quotient_nonneg t d : (0 < d)%Q -> (0 <= t)%Q -> (0 <= Js.div t d)%Q.
Proof.
  intros Hd Ht. unfold Js.div. rewrite <- rnd_zero. apply rnd_mono.
  apply Qle_shift_div_l; [exact Hd|lra].
Qed.

Lemma quotient_late t d : (0 < d)%Q -> (d <= t)%Q -> (1 <= Js.div t d)%Q.
Proof.
  intros Hd Ht. unfold Js.div. rewrite <- rnd_one. apply rnd_mono.
  apply Qle_shift_div_l; [exact Hd|lra].
Qed.

Lemma progress_at_0 d : (0 < d)%Q -> (Js.min (Js.div 0 d) 1 == 0)%Q.
Proof.
  intros Hd.
  assert (H : (Js.div 0 d == 0)%Q).
  { unfold Js.div. rewrite <- rnd_zero at 2. apply rnd_proper. field. lra. }
  unfold Js.min. destruct (Qle_bool _ 1) eqn:Hb; [exact H|].
  assert (Hle : (Js.div 0 d <= 1)%Q) by (rewrite H; lra).
  apply Qle_bool_iff in Hle. congruence.
Qed.

Lemma progress_late t d : (0 < d)%Q -> (d <= t)%Q -> (Js.min (Js.div t d) 1 == 1)%Q.
Proof.
  intros Hd Ht. pose proof (quotient_late t d Hd Ht) as H.
  unfold Js.min. destruct (Qle_bool _ 1) eqn:Hb; [|reflexivity].
  apply Qle_bool_iff in Hb. lra.
Qed.

Lemma progress_unit t d :
  (0 < d)%Q -> (0 <= t)%Q ->
  (0 <= Js.min (Js.div t d) 1)%Q /\ (Js.min (Js.div t d) 1 <= 1)%Q.
Proof.
  intros Hd Ht. split; [|apply min_le_r].
  apply min_glb; [now apply quotient_nonneg|lra].
Qed.

(** Which function [Helpers.easing] applies. *)
Lemma easing_resolved t b c d type :
  let name := default "easeInOutCubic"%string type in
  existsb (String.eqb name) Helpers.Object_prototype_keys = false ->
  let f := match Helpers.easingFunctions name with
           | Some f => f
           | None => Helpers.easeInOutCubic
           end in
  (exists name', Helpers.easingFunctions name' = Some f) /\
  Helpers.easing t b c d type =
  if Qeq_bool d 0 then None
  else Some (Js.add b (Js.mul c (f (Js.min (Js.div t d) 1)))).
Proof.
  intros name Hown f. unfold Helpers.easing. cbv zeta. fold name. rewrite Hown.
  unfold f. destruct (Helpers.easingFunctions name) as [g|] eqn:Hg.
  - split; [now exists name|reflexivity].
  - split; [now exists "easeInOutCubic"%string|reflexivity].
Qed.

Lemma progress_early t d : (0 < d)%Q -> (t == 0)%Q -> (Js.min (Js.div t d) 1 == 0)%Q.
Proof.
  intros Hd Ht.
  assert (H : (Js.div t d == 0)%Q).
  { unfold Js.div. apply Qeq_trans with (rnd 0); [|apply rnd_zero].
    apply rnd_proper. rewrite Ht. field. lra. }
  unfold Js.min. destruct (Qle_bool _ 1) eqn:Hb; [exact H|].
  assert (Hle : (Js.div t d <= 1)%Q) by (rewrite H; lra).
  apply Qle_bool_iff in Hle. congruence.
Qed.

Lemma easing_at_start t b c d type :
  (0 < d)%Q ->
  existsb (String.eqb (default "easeInOutCubic"%string type)) Helpers.Object_prototype_keys = false ->
  (rnd b == b)%Q -> (t == 0)%Q ->
  exists r, Helpers.easing t b c d type = Some r /\ (r == b)%Q.
Proof.
  intros Hd Hown Hb Ht.
  destruct (easing_resolved t b c d type Hown) as [[name Hf] ->].
  rewrite (positive_duration d Hd). eexists. split; [reflexivity|].
  unfold Js.add, Js.mul.
  rewrite (easing_function_at_0 name _ _ Hf (progress_early t d Hd Ht)).
  rewrite Qmult_0_r, rnd_zero, Qplus_0_r. exact Hb.
Qed.

Lemma easing_at_end t b c d type :
  (0 < d)%Q ->
  existsb (String.eqb (default "easeInOutCubic"%string type)) Helpers.Object_prototype_keys = false ->
  (rnd c == c)%Q -> (d <= t)%Q ->
  exists r, Helpers.easing t b c d type = Some r /\ (r == Js.add b c)%Q.
Proof.
  intros Hd Hown Hc Ht.
  destruct (easing_resolved t b c d type Hown) as [[name Hf] ->].
  rewrite (positive_duration d Hd). eexists. split; [reflexivity|].
  unfold Js.add, Js.mul.
  rewrite (easing_function_at_1 name _ _ Hf (progress_late t d Hd Ht)).
  now rewrite Qmult_1_r, Hc.
Qed.

Lemma easing_is_a_number t b c d type :
  (0 < d)%Q ->
  existsb (String.eqb (default "easeInOutCubic"%string type)) Helpers.Object_prototype_keys = false ->
  is_Some (Helpers.easing t b c d type).
Proof.
  intros Hd Hown. destruct (easing_resolved t b c d type Hown) as [_ ->].
  rewrite (positive_duration d Hd). now eexists.
Qed.

(** [Helpers.easing] for a positive duration, numbers [b] and [c], and a
    [type] that is no method of [Object.prototype] (one of the thirteen names
    of the table, any other name, or none): at time 0 the result is [b], and
    from time [d] on it is [b + c], whatever the easing function. *)
Theorem easing_starts_at_b_and_ends_at_b_plus_c t b c d type :
  (0 < d)%Q ->
  existsb (String.eqb (default "easeInOutCubic"%string type)) Helpers.Object_prototype_keys = false ->
  (rnd b == b)%Q -> (rnd c == c)%Q ->
  (exists r, Helpers.easing 0 b c d type = Some r /\ (r == b)%Q) /\
  ((d <= t)%Q -> exists r, Helpers.easing t b c d type = Some r /\ (r == Js.add b c)%Q).
Proof.
  intros Hd Hown Hb Hc. split.
  - apply easing_at_start; [assumption..|reflexivity].
  - intros Ht. now apply easing_at_end.
Qed.

(** *** The default easing stays between its ends *)

Lemma rnd_between x lo hi :
  Z.abs lo <= 2 ^ 53 -> Z.abs hi <= 2 ^ 53 ->
  (inject_Z lo <= x)%Q -> (x <= inject_Z hi)%Q ->
  (inject_Z lo <= rnd x)%Q /\ (rnd x <= inject_Z hi)%Q.
Proof.
  intros Hlo Hhi H1 H2. split.
  - rewrite <- (rnd_int lo Hlo). now apply rnd_mono.
  - rewrite <- (rnd_int hi Hhi). now apply rnd_mono.
Qed.

(** Bounds the rounded term [x] by the integers [lo] and [hi]. *)
Ltac bound x lo hi H :=
  assert (H : (inject_Z lo <= rnd x)%Q /\ (rnd x <= inject_Z hi)%Q)
    by (apply rnd_between; [vm_compute; discriminate|vm_compute; discriminate
                           |unfold inject_Z; nra|unfold inject_Z; nra]);
  unfold inject_Z in H.

Lemma easeInOutCubic_unit p :
  (0 <= p)%Q -> (p <= 1)%Q ->
  (0 <= Helpers.easeInOutCubic p)%Q /\ (Helpers.easeInOutCubic p <= 1)%Q.
Proof.
  intros H0 H1. unfold Helpers.easeInOutCubic.
  destruct (Qlt_le_dec p (1 # 2)) as [Hlt|Hge]; unfold Js.add, Js.sub, Js.mul.
  - bound (4 * p)%Q 0 2 Ha.
    set (a := rnd (4 * p)) in *.
    bound (a * p)%Q 0 1 Hb.
    set (b := rnd (a * p)) in *.
    bound (b * p)%Q 0 1 Hc. exact Hc.
  - bound (p - 1)%Q (-1) 0 Ha.
    set (a := rnd (p - 1)) in *.
    bound (2 * p)%Q 1 2 Hb.
    set (b := rnd (2 * p)) in *.
    bound (b - 2)%Q (-1) 0 Hm.
    set (m := rnd (b - 2)) in *.
    bound (a * m)%Q 0 1 Hx.
    set (x := rnd (a * m)) in *.
    bound (x * m)%Q (-1) 0 Hy.
    set (y := rnd (x * m)) in *.
    bound (y + 1)%Q 0 1 Hz. exact Hz.
Qed.

Lemma default_easing_between t b c d type :
  (0 < d)%Q -> (0 <= t)%Q ->
  (rnd b == b)%Q -> (rnd c == c)%Q ->
  let name := default "easeInOutCubic"%string type in
  name = "easeInOutCubic"%string \/
  (Helpers.easingFunctions name = None /\
   existsb (String.eqb name) Helpers.Object_prototype_keys = false) ->
  exists r,
    Helpers.easing t b c d type = Some r /\
    ((0 <= c)%Q -> (b <= r)%Q /\ (r <= Js.add b c)%Q) /\
    ((c <= 0)%Q -> (Js.add b c <= r)%Q /\ (r <= b)%Q).
Proof.
  intros Hd Ht Hb Hc name Hname.
  assert (Hown : existsb (String.eqb name) Helpers.Object_prototype_keys = false).
  { destruct Hname as [->|[_ H]]; [reflexivity|exact H]. }
  destruct (easing_resolved t b c d type Hown) as [_ ->]. fold name.
  assert (Hfe : match Helpers.easingFunctions name with
                | Some f => f
                | None => Helpers.easeInOutCubic
                end = Helpers.easeInOutCubic).
  { destruct Hname as [->|[-> _]]; reflexivity. }
  rewrite Hfe. clear Hfe.
  rewrite (positive_duration d Hd). eexists. split; [reflexivity|].
  destruct (progress_unit t d Hd Ht) as [Hp0 Hp1].
  destruct (easeInOutCubic_unit _ Hp0 Hp1) as [He0 He1].
  set (e := Helpers.easeInOutCubic (Js.min (Js.div t d) 1)) in *.
  unfold Js.add, Js.mul. split.
  - intros Hc0.
    assert (Hlo : (0 <= rnd (c * e))%Q) by (rewrite <- rnd_zero; apply rnd_mono; nra).
    assert (Hhi : (rnd (c * e) <= c)%Q) by (rewrite <- Hc at 2; apply rnd_mono; nra).
    split; [rewrite <- Hb at 1|]; apply rnd_mono; lra.
  - intros Hc0.
    assert (Hhi : (rnd (c * e) <= 0)%Q) by (rewrite <- rnd_zero; apply rnd_mono; nra).
    assert (Hlo : (c <= rnd (c * e))%Q) by (rewrite <- Hc at 1; apply rnd_mono; nra).
    split; [|rewrite <- Hb at 2]; apply rnd_mono; lra.
Qed.

(** [Helpers.easing] with the default easing ([type] left out, named
    [easeInOutCubic], or a name that the table does not have), a positive
    duration and a time that is not negative: the result lies between [b] and
    [b + c]. *)
Theorem default_easing_stays_between_its_ends t b c d type :
  (0 < d)%Q -> (0 <= t)%Q ->
  (rnd b == b)%Q -> (rnd c == c)%Q ->
  let name := default "easeInOutCubic"%string type in
  name = "easeInOutCubic"%string \/
  (Helpers.easingFunctions name = None /\
   existsb (String.eqb name) Helpers.Object_prototype_keys = false) ->
  exists r,
    Helpers.easing t b c d type = Some r /\
    ((0 <= c)%Q -> (b <= r)%Q /\ (r <= Js.add b c)%Q) /\
    ((c <= 0)%Q -> (Js.add b c <= r)%Q /\ (r <= b)%Q).
Proof. intros Hd Ht Hb Hc name Hname. now apply default_easing_between. Qed.

End Easing.

(** ** Scrolling to a place ([Helpers.scrollTo], [SmoothScroll]) *)

Section Scrolling.

Context `{R : Rounding}.

Lemma elapsed_zero t : (Js.sub t t == 0)%Q.
Proof.
  unfold Js.sub. apply Qeq_trans with (rnd 0); [|apply rnd_zero].
  apply rnd_proper. ring.
Qed.

Lemma elapsed_late s d t : (rnd d == d)%Q -> (s + d <= t)%Q -> (d <= Js.sub t s)%Q.
Proof.
  intros Hd Ht. unfold Js.sub. rewrite <- Hd at 1. apply rnd_mono. lra.
Qed.


(** The frames of [Helpers.scrollTo] after the first: the clock runs from
    [s]. *)
Lemma helpers_scroll_running b c d type s :
  (0 < d)%Q -> (rnd d == d)%Q -> (rnd c == c)%Q ->
  existsb (String.eqb (default "easeInOutCubic"%string type)) Helpers.Object_prototype_keys = false ->
  let st := {| sc_startPosition := b; sc_distance := c; sc_duration := d;
               sc_easing := type; sc_startTime := Some s |} in
  forall later,
    (exists t, In t later /\ (s + d <= t)%Q) ->
    exists runs r,
      scroll_frames Helpers.animation later st = (runs ++ [Some r], None) /\
      Forall (fun run => is_Some run) runs /\
      (r == Js.add b c)%Q.
Proof.
  intros Hd Hdd Hc Hown st later.
  induction later as [|t later IH]; intros (t' & Hin & Ht'); [destruct Hin|].
  cbn [scroll_frames]. unfold Helpers.animation at 1.
  cbn [st sc_startPosition sc_distance sc_duration sc_easing sc_startTime default from_option id].
  unfold id.
  destruct (Qlt_le_dec (Js.sub t s) d) as [Hlt|Hge].
  - assert (Hlater : exists t', In t' later /\ (s + d <= t')%Q).
    { destruct Hin as [<-|Hin]; [|now exists t'].
      pose proof (elapsed_late s d t Hdd Ht'). lra. }
    destruct (IH Hlater) as (runs & r & Hframes & Hall & Hr).
    change (set_startTime s st) with st. rewrite Hframes.
    exists (Helpers.easing (Js.sub t s) b c d type :: runs), r.
    split; [reflexivity|]. split; [|exact Hr].
    constructor; [now apply easing_is_a_number|exact Hall].
  - destruct (easing_at_end (Js.sub t s) b c d type Hd Hown Hc Hge) as (r & Hrun & Hr).
    exists [], r. rewrite Hrun. split; [reflexivity|]. split; [constructor|exact Hr].
Qed.

(** All the frames of a scroll that [Helpers.scrollTo] starts. *)
Lemma helpers_scroll_frames b c d type t0 later :
  (0 < d)%Q -> (rnd d == d)%Q -> (rnd b == b)%Q -> (rnd c == c)%Q ->
  existsb (String.eqb (default "easeInOutCubic"%string type)) Helpers.Object_prototype_keys = false ->
  (exists t, In t later /\ (t0 + d <= t)%Q) ->
  exists first runs last,
    scroll_frames Helpers.animation (t0 :: later)
      {| sc_startPosition := b; sc_distance := c; sc_duration := d;
         sc_easing := type; sc_startTime := None |} =
      (Some first :: runs ++ [Some last], None) /\
    Forall (fun run => is_Some run) runs /\
    (first == b)%Q /\ (last == Js.add b c)%Q.
Proof.
  intros Hd Hdd Hb Hc Hown Hlate.
  destruct (easing_at_start (Js.sub t0 t0) b c d type Hd Hown Hb (elapsed_zero t0))
    as (first & Hfirst & Hfirst_eq).
  destruct (helpers_scroll_running b c d type t0 Hd Hdd Hc Hown later Hlate)
    as (runs & last & Hframes & Hall & Hlast).
  exists first, runs, last.
  split; [|split; [exact Hall|split; [exact Hfirst_eq|exact Hlast]]].
  cbn [scroll_frames]. unfold Helpers.animation at 1.
  cbn [sc_startPosition sc_distance sc_duration sc_easing sc_startTime default from_option id].
  rewrite Hfirst.
  destruct (Qlt_le_dec (Js.sub t0 t0) d) as [Hlt|Hge];
    [|pose proof (elapsed_zero t0); lra].
  unfold set_startTime.
  cbn [sc_startPosition sc_distance sc_duration sc_easing sc_startTime].
  now rewrite Hframes.
Qed.

(** [Helpers.scrollTo] on an element that exists, with a positive duration
    (800 if none is given) and an easing name that is no method of
    [Object.prototype]: the first frame scrolls to where the window is; every
    frame gives a number to [window.scrollTo]; and the first frame that comes
    [duration] milliseconds or more after the first one scrolls to the start
    position plus the distance and asks for no further frame. *)
Theorem helpers_scroll_reaches_its_target top pageYOffset options t0 later :
  let duration := default 800%Q (opt_duration options) in
  (0 < duration)%Q -> (rnd duration == duration)%Q ->
  (rnd pageYOffset == pageYOffset)%Q ->
  existsb (String.eqb (default "easeInOutCubic"%string (opt_easing options)))
    Helpers.Object_prototype_keys = false ->
  (exists t, In t later /\ (t0 + duration <= t)%Q) ->
  exists st first runs last,
    Helpers.scrollTo (Some top) pageYOffset options = Some st /\
    sc_distance st =
      Js.sub (Js.sub (Js.add top pageYOffset) pageYOffset) (default 80%Q (opt_offset options)) /\
    scroll_frames Helpers.animation (t0 :: later) st =
      (Some first :: runs ++ [Some last], None) /\
    Forall (fun run => is_Some run) runs /\
    (first == pageYOffset)%Q /\
    (last == Js.add pageYOffset (sc_distance st))%Q.
Proof.
  intros duration Hd Hdd Hy Hown Hlate.
  set (distance := Js.sub (Js.sub (Js.add top pageYOffset) pageYOffset)
                     (default 80%Q (opt_offset options))).
  assert (Hc : (rnd distance == distance)%Q) by apply rnd_idem.
  destruct (helpers_scroll_frames pageYOffset distance duration
              (Some (default "easeInOutCubic"%string (opt_easing options))) t0 later
              Hd Hdd Hy Hc Hown Hlate) as (first & runs & last & Hframes & Hrest).
  eexists _, first, runs, last.
  split; [reflexivity|]. split; [reflexivity|]. split; [exact Hframes|exact Hrest].
Qed.

(** *** The scroll stays between its ends *)



(** *** The two implementations *)

Lemma same_run_refl a : same_run a a.
Proof. destruct a; cbn; [reflexivity|exact I]. Qed.

(** One frame of [SmoothScroll] scrolls where one frame of [Helpers.scrollTo]
    with the default easing scrolls, and asks for a next frame when that one
    does. *)
Lemma animation_agrees b c d type type' start currentTime :
  default "easeInOutCubic"%string type = "easeInOutCubic"%string ->
  let st := {| sc_startPosition := b; sc_distance := c; sc_duration := d;
               sc_easing := type; sc_startTime := start |} in
  let st' := {| sc_startPosition := b; sc_distance := c; sc_duration := d;
                sc_easing := type'; sc_startTime := start |} in
  same_run (SmoothScroll.animation st' currentTime).1 (Helpers.animation st currentTime).1 /\
  match (SmoothScroll.animation st' currentTime).2, (Helpers.animation st currentTime).2 with
  | Some next', Some next =>
      exists s, next = {| sc_startPosition := b; sc_distance := c; sc_duration := d;
                          sc_easing := type; sc_startTime := Some s |} /\
                next' = {| sc_startPosition := b; sc_distance := c; sc_duration := d;
                           sc_easing := type'; sc_startTime := Some s |}
  | None, None => True
  | _, _ => False
  end.
Proof.
  intros Htype st st'. unfold SmoothScroll.animation, Helpers.animation.
  cbn [st st' sc_startPosition sc_distance sc_duration sc_easing sc_startTime fst snd].
  set (startTime := default currentTime start).
  split.
  - unfold Helpers.easing. cbv zeta. rewrite Htype.
    change (Helpers.easingFunctions "easeInOutCubic") with (Some Helpers.easeInOutCubic).
    cbv iota beta.
    destruct (Qeq_bool d 0); cbn [same_run]; [exact I|].
    unfold Js.add, Js.mul. apply rnd_proper. rewrite Qplus_comm.
    apply Qplus_comp; [reflexivity|]. apply rnd_proper. apply Qmult_comm.
  - destruct (Qlt_le_dec (Js.sub currentTime startTime) d); [|exact I].
    exists startTime. split; reflexivity.
Qed.

Lemma frames_agree b c d type type' :
  default "easeInOutCubic"%string type = "easeInOutCubic"%string ->
  forall timestamps start,
    let st := {| sc_startPosition := b; sc_distance := c; sc_duration := d;
                 sc_easing := type; sc_startTime := start |} in
    let st' := {| sc_startPosition := b; sc_distance := c; sc_duration := d;
                  sc_easing := type'; sc_startTime := start |} in
    Forall2 same_run (scroll_frames SmoothScroll.animation timestamps st').1
                     (scroll_frames Helpers.animation timestamps st).1 /\
    ((scroll_frames SmoothScroll.animation timestamps st').2 = None <->
     (scroll_frames Helpers.animation timestamps st).2 = None).
Proof.
  intros Htype timestamps.
  induction timestamps as [|t later IH]; intros start st st'.
  - cbn. split; [constructor|]. split; discriminate.
  - cbn [scroll_frames].
    destruct (animation_agrees b c d type type' start t Htype) as [Hrun Hnext].
    fold st st' in Hrun, Hnext.
    destruct (SmoothScroll.animation st' t) as [run' [next'|]];
      destruct (Helpers.animation st t) as [run [next|]]; cbn [fst snd] in *;
      try contradiction.
    + destruct Hnext as (s & -> & ->).
      destruct (IH (Some s)) as [Hruns Hstop]. cbv zeta in Hruns, Hstop.
      destruct (scroll_frames SmoothScroll.animation later _) as [runs' rest'].
      destruct (scroll_frames Helpers.animation later _) as [runs rest].
      cbn [fst snd] in *. split; [now constructor|exact Hstop].
    + split; [repeat constructor; exact Hrun|tauto].
Qed.

(** [SmoothScroll.scrollToElement] scrolls as [Helpers.scrollTo] without
    options does: frame by frame the two give the same position to
    [window.scrollTo], and they stop at the same frame. *)
Theorem smooth_scroll_is_helpers_scroll top pageYOffset timestamps :
  exists st,
    Helpers.scrollTo (Some top) pageYOffset no_options = Some st /\
    Forall2 same_run
      (scroll_frames SmoothScroll.animation timestamps
         (SmoothScroll.scrollToElement top pageYOffset)).1
      (scroll_frames Helpers.animation timestamps st).1 /\
    ((scroll_frames SmoothScroll.animation timestamps
        (SmoothScroll.scrollToElement top pageYOffset)).2 = None <->
     (scroll_frames Helpers.animation timestamps st).2 = None).
Proof.
  eexists. split; [reflexivity|].
  apply (frames_agree pageYOffset
           (Js.sub (Js.sub (Js.add top pageYOffset) pageYOffset) 80) 800
           (Some "easeInOutCubic"%string) None eq_refl timestamps None).
Qed.

Lemma same_run_number a r : same_run a (Some r) -> exists r', a = Some r' /\ (r' == r)%Q.
Proof. destruct a as [r'|]; cbn; [|contradiction]. intros H. now exists r'. Qed.

Lemma same_run_numbers l' l :
  Forall2 same_run l' l -> Forall (fun run => is_Some run) l -> Forall (fun run => is_Some run) l'.
Proof.
  induction 1 as [|a b l' l Hab _ IH]; intros Hall; [constructor|].
  apply Forall_cons in Hall as [[r ->] Hall].
  destruct (same_run_number a r Hab) as (r' & -> & _).
  constructor; [now eexists|now apply IH].
Qed.

(** [SmoothScroll.scrollToPosition] with a positive duration (800 if none is
    given): the first frame scrolls to where the window is, every frame gives
    a number to [window.scrollTo], and the first frame that comes [duration]
    milliseconds or more after the first one scrolls to the start position
    plus [position - startPosition] and asks for no further frame. *)
Theorem smooth_scroll_reaches_the_position position duration pageYOffset t0 later :
  let d := default 800%Q duration in
  (0 < d)%Q -> (rnd d == d)%Q -> (rnd pageYOffset == pageYOffset)%Q ->
  (exists t, In t later /\ (t0 + d <= t)%Q) ->
  exists first runs last,
    scroll_frames SmoothScroll.animation (t0 :: later)
      (SmoothScroll.scrollToPosition position duration pageYOffset) =
      (Some first :: runs ++ [Some last], None) /\
    Forall (fun run => is_Some run) runs /\
    (first == pageYOffset)%Q /\
    (last == Js.add pageYOffset (Js.sub position pageYOffset))%Q.
Proof.
  intros d Hd Hdd Hy Hlate.
  set (c := Js.sub position pageYOffset).
  assert (Hc : (rnd c == c)%Q) by apply rnd_idem.
  destruct (helpers_scroll_frames pageYOffset c d None t0 later Hd Hdd Hy Hc eq_refl Hlate)
    as (first & runs & last & Hframes & Hall & Hfirst & Hlast).
  destruct (frames_agree pageYOffset c d None None eq_refl (t0 :: later) None)
    as [Hruns Hstop].
  cbv zeta in Hruns, Hstop. rewrite Hframes in Hruns, Hstop. cbn [fst snd] in Hruns, Hstop.
  unfold SmoothScroll.scrollToPosition. fold c d.
  destruct (scroll_frames SmoothScroll.animation (t0 :: later) _) as [runs' rest'].
  cbn [fst snd] in Hruns, Hstop.
  assert (Hrest : rest' = None) by now apply Hstop.
  apply Forall2_cons_inv_r in Hruns as (a & l' & Ha & Hl' & ->).
  apply Forall2_app_inv_r in Hl' as (m' & z' & Hm' & Hz' & ->).
  apply Forall2_cons_inv_r in Hz' as (z & n' & Hz & Hn' & ->).
  apply Forall2_nil_inv_r in Hn' as ->.
  destruct (same_run_number a first Ha) as (first' & -> & Hf).
  destruct (same_run_number z last Hz) as (last' & -> & Hl).
  exists first', m', last'. rewrite Hrest.
  split; [reflexivity|]. split; [now apply (same_run_numbers m' runs)|].
  split; [now rewrite Hf|now rewrite Hl].
Qed.

End Scrolling.

Section ScrollingSample.

#[local] Existing Instance exact_arithmetic.

Lemma easing_starts_at_b_and_ends_at_b_plus_c_witness :
  (exists r, Helpers.easing 0 100 400 800 (Some "easeOutQuad"%string) = Some r /\ (r == 100)%Q) /\
  (exists r, Helpers.easing 1000 100 400 800 (Some "easeOutQuad"%string) = Some r /\ (r == 500)%Q).
Proof.
  destruct (easing_starts_at_b_and_ends_at_b_plus_c 1000 100 400 800
              (Some "easeOutQuad"%string)) as [H0 H1];
    [reflexivity|reflexivity|reflexivity|reflexivity|].
  split; [exact H0|]. apply H1. vm_compute. discriminate.
Defined.

Lemma default_easing_stays_between_its_ends_witness :
  exists r, Helpers.easing 400 100 400 800 None = Some r /\ (100 <= r)%Q /\ (r <= 500)%Q.
Proof.
  destruct (default_easing_stays_between_its_ends 400 100 400 800 None)
    as (r & Hr & Hup & _);
    [reflexivity|vm_compute; discriminate|reflexivity|reflexivity|now left|].
  exists r. split; [exact Hr|]. apply Hup. vm_compute. discriminate.
Defined.

Lemma helpers_scroll_reaches_its_target_witness :
  exists st first runs last,
    Helpers.scrollTo (Some 900%Q) 300 no_options = Some st /\
    scroll_frames Helpers.animation [16; 416; 816; 832]%Q st =
      (Some first :: runs ++ [Some last], None) /\
    (first == 300)%Q /\ (last == 1120)%Q.
Proof.
  destruct (helpers_scroll_reaches_its_target 900 300 no_options 16 [416; 816; 832]%Q)
    as (st & first & runs & last & Hst & Hdist & Hframes & _ & Hfirst & Hlast);
    [reflexivity|reflexivity|reflexivity|reflexivity| |].
  - exists 816%Q. split; [cbn; tauto|]. vm_compute. discriminate.
  - exists st, first, runs, last. split; [exact Hst|]. split; [exact Hframes|].
    split; [exact Hfirst|]. rewrite Hlast, Hdist. vm_compute. reflexivity.
Defined.


Lemma smooth_scroll_reaches_the_position_witness :
  exists first runs last,
    scroll_frames SmoothScroll.animation [16; 416; 816]%Q
      (SmoothScroll.scrollToPosition 1200 None 300) =
      (Some first :: runs ++ [Some last], None) /\
    (first == 300)%Q /\ (last == 1200)%Q.
Proof.
  destruct (smooth_scroll_reaches_the_position 1200 None 300 16 [416; 816]%Q)
    as (first & runs & last & Hframes & _ & Hfirst & Hlast);
    [reflexivity|reflexivity|reflexivity| |].
  - exists 816%Q. split; [cbn; tauto|]. vm_compute. discriminate.
  - exists first, runs, last. split; [exact Hframes|]. split; [exact Hfirst|].
    rewrite Hlast. vm_compute. reflexivity.
Defined.

End ScrollingSample.

(** ** [Helpers.debounce] *)

Section Debounce.

Context {A : Type}.

Implicit Types (d : Helpers.Debounced A) (events : list (DebounceEvent A)).

Lemma debounce_run_app events1 events2 d :
  debounce_run (events1 ++ events2) d = debounce_run events2 (debounce_run events1 d).
Proof. unfold debounce_run. apply foldl_app. Qed.

Lemma debounced_calls_app events1 events2 :
  debounced_calls (events1 ++ events2) = debounced_calls events1 ++ debounced_calls events2.
Proof. unfold debounced_calls. apply omap_app. Qed.

(** What holds of a debounced function after any calls and timers: no timer
    is pending, or exactly the one that [timeout] names, and it holds the
    arguments of the last call; what [func] was called with, followed by what
    the pending timer holds, is a part of the calls, in their order. *)
Lemma debounce_invariant fresh events :
  let d := debounce_run events (Helpers.debounce fresh) in
  (Helpers.db_pending d = ∅ /\ Helpers.db_invoked d `sublist_of` debounced_calls events) \/
  (exists id a,
     Helpers.db_timeout d = Some id /\ Helpers.db_pending d = ({[id := a]} : gmap nat A) /\
     last (debounced_calls events) = Some a /\
     exists earlier, debounced_calls events = earlier ++ [a] /\
                     Helpers.db_invoked d `sublist_of` earlier).
Proof.
  induction events as [|ev events IH] using rev_ind.
  - left. split; [reflexivity|]. cbn. constructor.
  - cbv zeta in *. rewrite debounce_run_app, debounced_calls_app.
    set (d := debounce_run events (Helpers.debounce fresh)) in *.
    destruct ev as [args|id']; cbn [debounce_run foldl debounce_step debounced_calls omap].
    + right. exists (Helpers.db_fresh d), args.
      unfold Helpers.executedFunction. cbn [Helpers.db_timeout Helpers.db_pending Helpers.db_invoked].
      split; [reflexivity|]. split.
      { destruct IH as [[Hp _]|(id & a & Ht & Hp & _)].
        - rewrite Hp. destruct (Helpers.db_timeout d); cbn [Helpers.clearTimeout];
            [now rewrite delete_empty|reflexivity].
        - rewrite Ht, Hp. cbn [Helpers.clearTimeout]. now rewrite delete_singleton_eq. }
      split; [apply last_snoc|].
      exists (debounced_calls events). split; [reflexivity|].
      destruct IH as [[_ Hs]|(id & a & _ & _ & _ & earlier & -> & Hs)]; [exact Hs|].
      now apply sublist_inserts_r.
    + rewrite app_nil_r. unfold Helpers.debounce_expire.
      destruct IH as [[Hp Hs]|(id & a & Ht & Hp & Hl & earlier & He & Hs)].
      * rewrite Hp, lookup_empty. left. now split.
      * rewrite Hp. destruct (decide (id' = id)) as [->|Hne].
        -- rewrite lookup_singleton_eq. left.
           unfold Helpers.later.
           cbn [Helpers.db_timeout Helpers.db_pending Helpers.db_invoked]. rewrite Ht.
           cbn [Helpers.clearTimeout]. rewrite delete_singleton_eq, delete_empty.
           split; [reflexivity|]. rewrite He. now apply sublist_app.
        -- rewrite lookup_singleton_ne by congruence. right.
           exists id, a. split; [exact Ht|]. split; [exact Hp|]. split; [exact Hl|].
           now exists earlier.
Qed.

(** [Helpers.debounce]: whatever calls and timers there have been, the
    debounced function keeps at most one timer pending, and what it has called
    [func] with is a part of what it was itself called with, in that order
    and never more often. *)
Theorem debounce_keeps_at_most_one_timer fresh events :
  let d := debounce_run events (Helpers.debounce fresh) in
  (size (Helpers.db_pending d) <= 1)%nat /\
  Helpers.db_invoked d `sublist_of` debounced_calls events /\
  (length (Helpers.db_invoked d) + size (Helpers.db_pending d) <= length (debounced_calls events))%nat.
Proof.
  intros d.
  destruct (debounce_invariant fresh events) as [[Hp Hs]|(id & a & _ & Hp & _ & earlier & He & Hs)];
    fold d in Hp, Hs.
  - rewrite Hp, map_size_empty. split; [lia|]. split; [exact Hs|].
    apply sublist_length in Hs. lia.
  - rewrite Hp, map_size_singleton. split; [lia|]. split.
    + rewrite He. now apply sublist_inserts_r.
    + rewrite He, length_app. apply sublist_length in Hs. cbn. lia.
Qed.

Lemma calls_invoke_nothing l d :
  Helpers.db_invoked (debounce_run (map DebouncedCall l) d) = Helpers.db_invoked d.
Proof.
  unfold debounce_run. revert d.
  induction l as [|x l IH]; intros d; cbn [map foldl]; [reflexivity|].
  now rewrite IH.
Qed.

Lemma debounced_calls_map (l : list A) : debounced_calls (map DebouncedCall l) = l.
Proof.
  unfold debounced_calls. induction l as [|x l IH]; [reflexivity|]. simpl. now f_equal.
Qed.

(** [Helpers.debounce]: after any history, a burst of calls that ends with the
    arguments [a] calls [func] not once; it leaves one timer pending, the one
    that [timeout] names; when that timer expires [func] is called once, with
    [a], and no timer is left; the expiry of any other timer does nothing. *)
Theorem debounce_runs_the_last_call_of_a_burst fresh history burst a :
  let d0 := debounce_run history (Helpers.debounce fresh) in
  let d := debounce_run (map DebouncedCall (burst ++ [a])) d0 in
  Helpers.db_invoked d = Helpers.db_invoked d0 /\
  exists id,
    Helpers.db_timeout d = Some id /\
    Helpers.db_pending d = ({[id := a]} : gmap nat A) /\
    Helpers.db_invoked (Helpers.debounce_expire id d) = Helpers.db_invoked d0 ++ [a] /\
    Helpers.db_pending (Helpers.debounce_expire id d) = ∅ /\
    forall id', id' <> id -> Helpers.debounce_expire id' d = d.
Proof.
  intros d0 d.
  assert (Hinv : Helpers.db_invoked d = Helpers.db_invoked d0)
    by apply calls_invoke_nothing.
  split; [exact Hinv|].
  pose proof (debounce_invariant fresh (history ++ map DebouncedCall (burst ++ [a]))) as H.
  cbv zeta in H. rewrite debounce_run_app in H. fold d0 d in H.
  rewrite debounced_calls_app in H.
  rewrite debounced_calls_map, app_assoc in H.
  destruct H as [[Hp _]|(id & a' & Ht & Hp & Hl & _)].
  - exfalso. unfold d in Hp. rewrite map_app, debounce_run_app in Hp.
    cbn [map debounce_run foldl debounce_step] in Hp.
    unfold Helpers.executedFunction in Hp. cbn [Helpers.db_pending] in Hp.
    apply (insert_non_empty _ _ _ Hp).
  - rewrite last_snoc in Hl. injection Hl as <-.
    exists id. split; [exact Ht|]. split; [exact Hp|].
    unfold Helpers.debounce_expire. rewrite Hp, lookup_singleton_eq.
    unfold Helpers.later. cbn [Helpers.db_timeout Helpers.db_pending Helpers.db_invoked].
    rewrite Hinv, Ht. cbn [Helpers.clearTimeout].
    rewrite delete_singleton_eq, delete_empty.
    split; [reflexivity|]. split; [reflexivity|].
    intros id' Hne. now rewrite lookup_singleton_ne by congruence.
Qed.

End Debounce.

(** ** [Helpers.throttle] *)

Section Throttle.

Context {A : Type}.

Implicit Types (t : Helpers.Throttled A) (events : list (ThrottleEvent A)).

Lemma throttle_run_app events1 events2 t :
  throttle_run (events1 ++ events2) t = throttle_run events2 (throttle_run events1 t).
Proof. unfold throttle_run. apply foldl_app. Qed.

Lemma throttle_timers_app events1 events2 :
  throttle_timers (events1 ++ events2) =
  (throttle_timers events1 + throttle_timers events2)%nat.
Proof. unfold throttle_timers. now rewrite List.filter_app, length_app. Qed.

Lemma throttle_throws_app events1 events2 :
  throttle_throws (events1 ++ events2) =
  (throttle_throws events1 + throttle_throws events2)%nat.
Proof. unfold throttle_throws. now rewrite List.filter_app, length_app. Qed.

(** What holds of a throttled function after any calls and timers: it is
    closed with one timer pending, or open with none; and [func] was called
    at most once per timer that expired and per call that threw, and once
    more while it is closed. *)
Lemma throttle_invariant fresh events :
  let t := throttle_run events (Helpers.throttle fresh) in
  (Helpers.th_inThrottle t = false /\ Helpers.th_pending t = ∅ /\
   (length (Helpers.th_invoked t) <= throttle_timers events + throttle_throws events)%nat) \/
  (Helpers.th_inThrottle t = true /\ (exists id, Helpers.th_pending t = {[id]}) /\
   (length (Helpers.th_invoked t) <= 1 + throttle_timers events + throttle_throws events)%nat).
Proof.
  induction events as [|ev events IH] using rev_ind.
  - left. cbn. repeat split; lia.
  - cbv zeta in *. rewrite throttle_run_app, throttle_timers_app, throttle_throws_app.
    set (t := throttle_run events (Helpers.throttle fresh)) in *.
    destruct ev as [args throws|id']; cbn [throttle_run foldl throttle_step].
    + unfold Helpers.throttled.
      destruct IH as [(Hopen & Hp & Hn)|(Hclosed & Hp & Hn)].
      * rewrite Hopen. destruct throws;
          cbn [Helpers.th_inThrottle Helpers.th_pending Helpers.th_invoked].
        -- left. split; [reflexivity|]. split; [exact Hp|].
           rewrite length_app. cbn. lia.
        -- right. split; [reflexivity|]. split.
           { exists (Helpers.th_fresh t). rewrite Hp. apply (right_id_L ∅ (∪)). }
           rewrite length_app. cbn. lia.
      * rewrite Hclosed. right. split; [exact Hclosed|]. split; [exact Hp|].
        destruct throws; cbn; lia.
    + unfold Helpers.throttle_expire.
      destruct (decide (id' ∈ Helpers.th_pending t)) as [Hin|Hout].
      * left. cbn [Helpers.th_inThrottle Helpers.th_pending Helpers.th_invoked].
        split; [reflexivity|].
        destruct IH as [(_ & Hp & _)|(_ & [id Hp] & Hn)].
        { rewrite Hp in Hin. now apply not_elem_of_empty in Hin. }
        rewrite Hp in Hin |- *. apply elem_of_singleton in Hin as ->.
        split; [apply difference_diag_L|]. cbn. lia.
      * destruct IH as [(Hopen & Hp & Hn)|(Hclosed & Hp & Hn)]; [left|right];
          repeat split; try assumption; cbn; lia.
Qed.

(** [Helpers.throttle]: whatever calls and timers there have been, the
    throttled function is closed exactly while one timer of its own is
    pending, and it has called [func] at most once more than timers have
    expired and calls have thrown. *)
Theorem throttle_passes_one_call_per_window fresh events :
  let t := throttle_run events (Helpers.throttle fresh) in
  (Helpers.th_inThrottle t = true <-> exists id, Helpers.th_pending t = {[id]}) /\
  (Helpers.th_inThrottle t = false <-> Helpers.th_pending t = ∅) /\
  (length (Helpers.th_invoked t) <= 1 + throttle_timers events + throttle_throws events)%nat.
Proof.
  intros t.
  destruct (throttle_invariant fresh events) as [(Hopen & Hp & Hn)|(Hclosed & [id Hp] & Hn)];
    fold t in Hopen || fold t in Hclosed; fold t in Hp, Hn.
  - split; [|split; [|lia]].
    + split; [congruence|]. intros [id Hid]. rewrite Hp in Hid.
      exfalso. assert (H : id ∈ (∅ : gset nat)) by (rewrite Hid; now apply elem_of_singleton).
      now apply not_elem_of_empty in H.
    + tauto.
  - split; [|split; [|exact Hn]].
    + split; [now exists id|tauto].
    + split; [congruence|]. intros He. rewrite Hp in He.
      exfalso. assert (H : id ∈ (∅ : gset nat)) by (rewrite <- He; now apply elem_of_singleton).
      now apply not_elem_of_empty in H.
Qed.

Lemma closed_drops_calls t (calls : list (A * bool)) :
  Helpers.th_inThrottle t = true ->
  throttle_run (map (fun c => ThrottledCall c.1 c.2) calls) t = t.
Proof.
  intros Hclosed. unfold throttle_run.
  induction calls as [|c calls IH]; [reflexivity|].
  cbn [map foldl throttle_step fst snd].
  assert (Hc : Helpers.throttled c.1 c.2 t = t) by (unfold Helpers.throttled; now rewrite Hclosed).
  now rewrite Hc.
Qed.

(** [Helpers.throttle]: a call that finds the function open calls [func] at
    once with its arguments and closes the function; the calls that follow
    before the timer expires are dropped for good; after the timer has expired
    the next call calls [func] again. A call in which [func] throws leaves the
    function open, so the next call calls [func] as well. *)
Theorem throttle_lets_the_first_call_through fresh history a b (calls : list (A * bool)) :
  let t0 := throttle_run history (Helpers.throttle fresh) in
  Helpers.th_inThrottle t0 = false ->
  let burst := ThrottledCall a false :: map (fun c => ThrottledCall c.1 c.2) calls in
  let t1 := throttle_run burst t0 in
  Helpers.th_invoked t1 = Helpers.th_invoked t0 ++ [a] /\
  Helpers.th_pending t1 = {[Helpers.th_fresh t0]} /\
  Helpers.th_invoked (throttle_run [ThrottleTimer (Helpers.th_fresh t0)] t1) =
    Helpers.th_invoked t0 ++ [a] /\
  Helpers.th_invoked
    (throttle_run [ThrottleTimer (Helpers.th_fresh t0); ThrottledCall b false] t1) =
    Helpers.th_invoked t0 ++ [a; b] /\
  Helpers.th_invoked (throttle_run [ThrottledCall a true; ThrottledCall b false] t0) =
    Helpers.th_invoked t0 ++ [a; b].
Proof.
  intros t0 Hopen burst t1.
  assert (Hp : Helpers.th_pending t0 = ∅).
  { destruct (throttle_invariant fresh history) as [(_ & Hp & _)|(Hclosed & _)];
      [exact Hp|]. fold t0 in Hclosed. congruence. }
  assert (Ht1 : t1 = {| Helpers.th_inThrottle := true;
                        Helpers.th_pending := {[Helpers.th_fresh t0]};
                        Helpers.th_fresh := S (Helpers.th_fresh t0);
                        Helpers.th_invoked := Helpers.th_invoked t0 ++ [a] |}).
  { unfold t1, burst. unfold throttle_run at 1. cbn [foldl throttle_step].
    fold (throttle_run (map (fun c : A * bool => ThrottledCall c.1 c.2) calls)).
    unfold Helpers.throttled at 1. rewrite Hopen, Hp, (right_id_L ∅ (∪)).
    now apply closed_drops_calls. }
  rewrite Ht1. cbn [Helpers.th_invoked Helpers.th_pending].
  split; [reflexivity|]. split; [reflexivity|].
  cbn [throttle_run foldl throttle_step]. unfold Helpers.throttle_expire.
  cbn [Helpers.th_pending].
  destruct (decide (Helpers.th_fresh t0 ∈ ({[Helpers.th_fresh t0]} : gset nat))) as [_|Hn];
    [|exfalso; apply Hn; now apply elem_of_singleton].
  split; [reflexivity|]. split.
  - unfold Helpers.throttled. cbn [Helpers.th_inThrottle Helpers.th_invoked].
    now rewrite <- app_assoc.
  - unfold Helpers.throttled. rewrite Hopen. cbn [Helpers.th_inThrottle Helpers.th_invoked].
    now rewrite <- app_assoc.
Qed.

End Throttle.

Lemma throttle_lets_the_first_call_through_witness :
  let t := throttle_run
             [ThrottledCall "a" false; ThrottledCall "b" false; ThrottledCall "c" false;
              ThrottleTimer 7; ThrottledCall "d" false]%string
             (Helpers.throttle 7) in
  Helpers.th_invoked t = ["a"; "d"]%string.
Proof.
  destruct (throttle_lets_the_first_call_through 7 [] "a"%string "d"%string
              [("b"%string, false); ("c"%string, false)] eq_refl)
    as (_ & _ & _ & H & _).
  exact H.
Defined.

(** ** Notifications *)

Section Toasting.

Implicit Types (s : Toasts) (n m : nat).

Lemma parentNode_In n s : Notifications.parentNode n s = true <-> In n (Notifications.getAll s).
Proof.
  unfold Notifications.parentNode, Notifications.getAll.
  destruct (container s) as [children|].
  - rewrite bool_decide_eq_true. apply list_elem_of_In.
  - split; [discriminate|intros []].
Qed.

Lemma hide_getAll o s : Notifications.getAll (Notifications.hide o s) = Notifications.getAll s.
Proof.
  unfold Notifications.hide. destruct o as [n|]; [|reflexivity].
  now destruct (Notifications.parentNode n s).
Qed.

Lemma hide_timers n s :
  toast_timers (Notifications.hide (Some n) s) =
  toast_timers s ++ (if Notifications.parentNode n s then [RemoveToast n] else []).
Proof.
  unfold Notifications.hide. destruct (Notifications.parentNode n s); [reflexivity|].
  now rewrite app_nil_r.
Qed.

Lemma hide_duration o s m :
  n_duration <$> toasts (Notifications.hide o s) !! m = n_duration <$> toasts s !! m.
Proof.
  unfold Notifications.hide. destruct o as [n|]; [|reflexivity].
  destruct (Notifications.parentNode n s); [|reflexivity].
  cbn [toasts Notifications.set_toasts Notifications.set_toast_timers].
  destruct (decide (n = m)) as [->|Hne].
  - rewrite lookup_alter_eq. now destruct (toasts s !! m).
  - now rewrite lookup_alter_ne.
Qed.

Lemma filter_other n (l : list nat) :
  ~ In n l -> List.filter (fun c => negb (Nat.eqb c n)) l = l.
Proof.
  induction l as [|x l IH]; [reflexivity|]. intros Hn. cbn [List.filter].
  destruct (Nat.eqb_spec x n) as [->|Hne]; [exfalso; apply Hn; now left|].
  cbn [negb]. rewrite IH; [reflexivity|]. intros H. apply Hn. now right.
Qed.

Lemma removeToast_getAll n s :
  Notifications.getAll (Notifications.removeToast n s) =
  List.filter (fun c => negb (Nat.eqb c n)) (Notifications.getAll s).
Proof.
  unfold Notifications.removeToast.
  destruct (Notifications.parentNode n s) eqn:Hp.
  - unfold Notifications.getAll. cbn [container Notifications.set_container].
    now destruct (container s).
  - symmetry. apply filter_other. intros Hin. apply parentNode_In in Hin. congruence.
Qed.

Lemma In_filter_other n m (l : list nat) :
  In m (List.filter (fun c => negb (Nat.eqb c n)) l) <-> In m l /\ m <> n.
Proof.
  rewrite List.filter_In. destruct (Nat.eqb_spec m n); cbn; intuition congruence.
Qed.

Lemma In_delete {B} (x y : B) (l : list B) i :
  l !! i = Some y -> In x l -> x <> y -> In x (delete i l).
Proof.
  intros Hi Hin Hne. rewrite <- (take_drop_middle l i y Hi) in Hin.
  rewrite delete_take_drop. apply in_app_iff. apply in_app_iff in Hin as [H|[H|H]].
  - now left.
  - congruence.
  - now right.
Qed.

Lemma In_delete_inv {B} (x : B) (l : list B) i : In x (delete i l) -> In x l.
Proof.
  rewrite <- !list_elem_of_In. apply list_elem_of_delete_inv.
Qed.

(** An expired timer: a notification that stays shown while a timer is
    pending for it still has such a timer. *)
Lemma expire_will_go i n s :
  (In n (Notifications.getAll s) -> will_go n s) ->
  In n (Notifications.getAll (Notifications.expire i s)) ->
  will_go n (Notifications.expire i s).
Proof.
  intros Hw. unfold Notifications.expire.
  destruct (toast_timers s !! i) as [timer|] eqn:Hi; [|exact Hw].
  set (s1 := Notifications.set_toast_timers (delete i (toast_timers s)) s).
  assert (Hall1 : Notifications.getAll s1 = Notifications.getAll s) by reflexivity.
  assert (Hp1 : forall m, Notifications.parentNode m s1 = Notifications.parentNode m s)
    by reflexivity.
  destruct timer as [m|m].
  - rewrite hide_getAll, Hall1. intros Hin. unfold will_go. rewrite hide_timers.
    change (toast_timers s1) with (delete i (toast_timers s)).
    destruct (Hw Hin) as [H|H].
    + destruct (decide (m = n)) as [->|Hne].
      * right. rewrite Hp1. apply parentNode_In in Hin. rewrite Hin.
        apply in_app_iff. right. now left.
      * left. apply in_app_iff. left.
        apply In_delete with (AutoHide m); [exact Hi|exact H|congruence].
    + right. apply in_app_iff. left.
      apply In_delete with (AutoHide m); [exact Hi|exact H|discriminate].
  - rewrite removeToast_getAll, Hall1. intros Hin.
    apply In_filter_other in Hin as [Hin Hne].
    unfold will_go, Notifications.removeToast.
    assert (Ht : toast_timers (if Notifications.parentNode m s1
                               then Notifications.set_container
                                      (option_map (List.filter (fun c => negb (Nat.eqb c m)))
                                         (container s1)) s1
                               else s1) = delete i (toast_timers s))
      by (now destruct (Notifications.parentNode m s1)).
    rewrite Ht.
    destruct (Hw Hin) as [H|H]; [left|right];
      (apply In_delete with (RemoveToast m); [exact Hi|exact H|congruence]).
Qed.

Lemma expire_duration i s m :
  n_duration <$> toasts (Notifications.expire i s) !! m = n_duration <$> toasts s !! m.
Proof.
  unfold Notifications.expire. destruct (toast_timers s !! i) as [[n|n]|]; [| |reflexivity].
  - now rewrite hide_duration.
  - unfold Notifications.removeToast. now destruct (Notifications.parentNode n _).
Qed.

Lemma persistent_duration n s s' :
  n_duration <$> toasts s' !! n = n_duration <$> toasts s !! n ->
  persistent n s -> persistent n s'.
Proof.
  intros H (t & Ht & Hd). rewrite Ht in H. cbn in H.
  destruct (toasts s' !! n) as [t'|] eqn:Ht'; [|discriminate].
  exists t'. split; [exact Ht'|]. cbn in H. injection H as ->. exact Hd.
Qed.

(** *** The timers run out *)

Lemma expire_work cb rest s :
  toast_timers s = cb :: rest ->
  (S (toast_work (toast_timers (Notifications.expire 0 s))) <= toast_work (toast_timers s))%nat.
Proof.
  intros Ht. unfold Notifications.expire. rewrite Ht.
  cbn [lookup list_lookup delete list_delete].
  destruct cb as [n|n].
  - rewrite hide_timers. cbn [toast_timers Notifications.set_toast_timers].
    unfold toast_work. rewrite map_app, list_sum_app.
    destruct (Notifications.parentNode n _); cbn [map]; unfold list_sum; cbn [foldr]; lia.
  - unfold Notifications.removeToast.
    destruct (Notifications.parentNode n _);
      cbn [toast_timers Notifications.set_toast_timers Notifications.set_container];
      unfold toast_work; cbn [map]; unfold list_sum; cbn [foldr]; lia.
Qed.

Lemma drain_empties_toasts k :
  forall s, (toast_work (toast_timers s) <= k)%nat -> toast_timers (toast_drain k s) = [].
Proof.
  induction k as [|k IH]; intros s Hk.
  - cbn [toast_drain]. destruct (toast_timers s) as [|cb rest] eqn:Ht; [reflexivity|].
    pose proof (expire_work cb rest s Ht) as H. rewrite Ht in H. lia.
  - cbn [toast_drain]. destruct (toast_timers s) as [|cb rest] eqn:Ht; [exact Ht|].
    apply IH. pose proof (expire_work cb rest s Ht) as H. rewrite Ht in H. lia.
Qed.

Lemma settle_empties_toasts s : toast_timers (toast_settle s) = [].
Proof. unfold toast_settle. now apply drain_empties_toasts. Qed.

Lemma drain_keeps k (Q : Toasts -> Prop) :
  (forall i s, Q s -> Q (Notifications.expire i s)) ->
  forall s, Q s -> Q (toast_drain k s).
Proof.
  intros Hstep. induction k as [|k IH]; intros s H; [exact H|].
  cbn [toast_drain]. destruct (toast_timers s); [exact H|]. now apply IH, Hstep.
Qed.

(** A notification on show is one that stays, or a timer is pending for it. *)
Lemma accounted_expire i s :
  (forall n, In n (Notifications.getAll s) -> persistent n s \/ will_go n s) ->
  forall n, In n (Notifications.getAll (Notifications.expire i s)) ->
            persistent n (Notifications.expire i s) \/ will_go n (Notifications.expire i s).
Proof.
  intros H n Hin.
  assert (Hbefore : In n (Notifications.getAll s)).
  { unfold Notifications.expire in Hin.
    destruct (toast_timers s !! i) as [[m|m]|]; [| |exact Hin].
    - now rewrite hide_getAll in Hin.
    - rewrite removeToast_getAll in Hin. now apply In_filter_other in Hin as [Hin _]. }
  destruct (H n Hbefore) as [Hp|Hw].
  - left. apply persistent_duration with s; [apply expire_duration|exact Hp].
  - right. apply expire_will_go; [intros _; exact Hw|exact Hin].
Qed.

(** *** What the calls do to the page *)

Lemma show_getAll message type duration s :
  Notifications.getAll (Notifications.show message type duration s).1 =
  Notifications.getAll s ++ [(Notifications.show message type duration s).2].
Proof.
  destruct s as [[children|] made_so_far timers st];
    unfold Notifications.show, Notifications.getAll, Notifications.createContainer;
    cbn [fst snd]; destruct (Qlt_le_dec 0 (default 5000%Q duration)); reflexivity.
Qed.

Lemma show_timers message type duration s :
  toast_timers (Notifications.show message type duration s).1 =
  toast_timers s ++
  (if Qlt_le_dec 0 (default 5000%Q duration)
   then [AutoHide (Notifications.show message type duration s).2] else []).
Proof.
  destruct s as [[children|] made_so_far timers st];
    unfold Notifications.show, Notifications.createContainer;
    cbn [fst snd]; destruct (Qlt_le_dec 0 (default 5000%Q duration));
    cbn [toast_timers]; rewrite ?app_nil_r; reflexivity.
Qed.

Lemma show_toasts message type duration s :
  toasts (Notifications.show message type duration s).1 =
  <[(Notifications.show message type duration s).2 :=
      {| n_className := "notification notification-" ++ default "info"%string type;
         n_message := message;
         n_duration := default 5000%Q duration;
         n_animation := "" |}]> (toasts s).
Proof.
  destruct s as [[children|] made_so_far timers st];
    unfold Notifications.show, Notifications.createContainer;
    cbn [fst snd]; destruct (Qlt_le_dec 0 (default 5000%Q duration)); reflexivity.
Qed.

Lemma show_new message type duration s :
  ~ made (Notifications.show message type duration s).2 s.
Proof.
  unfold made, Notifications.show. cbn [snd]. intros H.
  apply (elem_of_dom (D := gset nat)) in H. revert H. apply is_fresh.
Qed.

Lemma show_other message type duration s m :
  made m s ->
  toasts (Notifications.show message type duration s).1 !! m = toasts s !! m.
Proof.
  intros Hm. rewrite show_toasts. apply lookup_insert_ne. intros <-.
  now apply show_new in Hm.
Qed.

Lemma made_duration m s s' :
  n_duration <$> toasts s' !! m = n_duration <$> toasts s !! m -> made m s -> made m s'.
Proof.
  unfold made. intros H [t Ht]. rewrite Ht in H.
  destruct (toasts s' !! m); [eauto|discriminate].
Qed.

Lemma hideAll_keeps (Q : Toasts -> Prop) :
  (forall n s, Q s -> Q (Notifications.hide (Some n) s)) ->
  forall s, Q s -> Q (Notifications.hideAll s).
Proof.
  intros Hstep s H. unfold Notifications.hideAll.
  destruct (container s) as [children|]; [|exact H].
  revert s H. induction children as [|n l IH]; intros s H; [exact H|].
  cbn [foldl]. now apply IH, Hstep.
Qed.

Lemma clear_getAll s : Notifications.getAll (Notifications.clear s) = [].
Proof.
  unfold Notifications.clear, Notifications.getAll.
  destruct (container s) eqn:Hc; [reflexivity|now rewrite Hc].
Qed.

Lemma expire_getAll i s n :
  In n (Notifications.getAll (Notifications.expire i s)) -> In n (Notifications.getAll s).
Proof.
  unfold Notifications.expire.
  destruct (toast_timers s !! i) as [[m|m]|]; [| |trivial].
  - now rewrite hide_getAll.
  - rewrite removeToast_getAll. intros H. now apply In_filter_other in H as [H _].
Qed.

(** The timers after one of them has expired: the others, and the removal
    that an automatic hide sets. *)
Lemma expire_timers i s x :
  In x (toast_timers (Notifications.expire i s)) ->
  In x (toast_timers s) \/
  exists m, x = RemoveToast m /\ toast_timers s !! i = Some (AutoHide m).
Proof.
  unfold Notifications.expire.
  destruct (toast_timers s !! i) as [[m|m]|] eqn:Hi; [| |now left].
  - rewrite hide_timers. cbn [toast_timers Notifications.set_toast_timers].
    intros H. apply in_app_iff in H as [H|H].
    + left. now apply In_delete_inv in H.
    + destruct (Notifications.parentNode m _); [|destruct H].
      destruct H as [<-|[]]. right. now exists m.
  - unfold Notifications.removeToast.
    destruct (Notifications.parentNode m _);
      cbn [toast_timers Notifications.set_toast_timers Notifications.set_container];
      intros H; left; now apply In_delete_inv in H.
Qed.

(** *** The pages that the module makes *)

Lemma accounted_hide n s : accounted s -> accounted (Notifications.hide (Some n) s).
Proof.
  intros (Hi & Hii & Hiii). repeat split.
  - intros m Hin. rewrite hide_getAll in Hin. destruct (Hi m Hin) as [Hp|Hw].
    + left. apply persistent_duration with s; [apply hide_duration|exact Hp].
    + right. unfold will_go in *. rewrite hide_timers, !in_app_iff. tauto.
  - intros m Hin. rewrite hide_getAll in Hin.
    apply made_duration with s; [apply hide_duration|now apply Hii].
  - intros timer Hin. apply made_duration with s; [apply hide_duration|].
    rewrite hide_timers in Hin. apply in_app_iff in Hin as [Hin|Hin]; [now apply Hiii|].
    destruct (Notifications.parentNode n s) eqn:Hp; [|destruct Hin].
    destruct Hin as [<-|[]]. cbn [timer_toast]. now apply Hii, parentNode_In.
Qed.

Lemma accounted_show message type duration s :
  accounted s -> accounted (Notifications.show message type duration s).1.
Proof.
  intros (Hi & Hii & Hiii).
  set (r := Notifications.show message type duration s).
  assert (Hnew : made r.2 r.1).
  { unfold made. unfold r. rewrite show_toasts, lookup_insert_eq. eauto. }
  assert (Hold : forall m, made m s -> made m r.1).
  { intros m Hm. unfold made, r. now rewrite show_other. }
  repeat split.
  - intros n Hin. unfold r in Hin. rewrite show_getAll in Hin. fold r in Hin.
    apply in_app_iff in Hin as [Hin|[<-|[]]].
    + destruct (Hi n Hin) as [Hp|Hw].
      * left. apply persistent_duration with s; [|exact Hp].
        unfold r. now rewrite show_other by now apply Hii.
      * right. unfold will_go, r in *. rewrite show_timers, !in_app_iff. tauto.
    + destruct (Qlt_le_dec 0 (default 5000%Q duration)) as [Hd|Hd] eqn:Hdec.
      * right. left. unfold r at 2. rewrite show_timers, Hdec.
        apply in_app_iff. right. now left.
      * left. unfold persistent, r. rewrite show_toasts, lookup_insert_eq.
        eexists. split; [reflexivity|exact Hd].
  - intros n Hin. unfold r in Hin. rewrite show_getAll in Hin. fold r in Hin.
    apply in_app_iff in Hin as [Hin|[<-|[]]]; [now apply Hold, Hii|exact Hnew].
  - intros timer Hin. unfold r in Hin. rewrite show_timers in Hin. fold r in Hin.
    apply in_app_iff in Hin as [Hin|Hin]; [now apply Hold, Hiii|].
    destruct (Qlt_le_dec 0 (default 5000%Q duration)); [|destruct Hin].
    destruct Hin as [<-|[]]. exact Hnew.
Qed.

Lemma accounted_clear s : accounted s -> accounted (Notifications.clear s).
Proof.
  intros (Hi & Hii & Hiii). repeat split.
  - intros n Hin. rewrite clear_getAll in Hin. destruct Hin.
  - intros n Hin. rewrite clear_getAll in Hin. destruct Hin.
  - intros timer Hin. unfold Notifications.clear in *.
    destruct (container s); now apply Hiii.
Qed.

Lemma accounted_expire_all i s : accounted s -> accounted (Notifications.expire i s).
Proof.
  intros (Hi & Hii & Hiii). repeat split.
  - now apply accounted_expire.
  - intros n Hin. apply made_duration with s; [apply expire_duration|].
    now apply Hii, expire_getAll with i.
  - intros timer Hin. apply made_duration with s; [apply expire_duration|].
    apply expire_timers in Hin as [Hin|(m & -> & Hm)]; [now apply Hiii|].
    cbn [timer_toast]. apply (Hiii (AutoHide m)).
    apply list_elem_of_In. now apply list_elem_of_lookup_2 with i.
Qed.

Lemma accounted_step ev s : accounted s -> accounted (toast_step s ev).
Proof.
  intros H. destruct ev as [message type duration|n| | |i]; cbn [toast_step].
  - now apply accounted_show.
  - now apply accounted_hide.
  - apply hideAll_keeps; [intros n s'; apply accounted_hide|exact H].
  - now apply accounted_clear.
  - now apply accounted_expire_all.
Qed.

Lemma run_keeps (Q : Toasts -> Prop) (ok : ToastEvent -> bool) :
  (forall ev s, ok ev = true -> Q s -> Q (toast_step s ev)) ->
  forall events s, forallb ok events = true -> Q s -> Q (toast_run events s).
Proof.
  intros Hstep. unfold toast_run.
  induction events as [|ev events IH]; intros s Hok H; [exact H|].
  cbn [forallb] in Hok. apply andb_true_iff in Hok as [Hev Hok].
  cbn [foldl]. apply IH; [exact Hok|]. now apply Hstep.
Qed.

Lemma forallb_all {B} (l : list B) : forallb (fun _ => true) l = true.
Proof. induction l; [reflexivity|exact IHl]. Qed.

Lemma accounted_run events : accounted (toast_run events no_toasts).
Proof.
  apply run_keeps with (ok := fun _ => true).
  - intros ev s _. apply accounted_step.
  - apply forallb_all.
  - repeat split; intros ? [].
Qed.

(** [toast_drain] is a run of expired timers. *)
Lemma drain_is_a_run k :
  forall s, exists expiries, toast_drain k s = toast_run (map ToastExpire expiries) s.
Proof.
  induction k as [|k IH]; intros s; [now exists []|].
  cbn [toast_drain]. destruct (toast_timers s); [now exists []|].
  destruct (IH (Notifications.expire 0 s)) as [expiries H].
  exists (0%nat :: expiries). exact H.
Qed.

Lemma toast_run_app a b s : toast_run (a ++ b) s = toast_run b (toast_run a s).
Proof. apply foldl_app. Qed.

Lemma nothing_pending n s : toast_timers s = [] -> ~ will_go n s.
Proof. unfold will_go. intros ->. intros [[]|[]]. Qed.

Lemma settle_is_a_run s :
  exists expiries, toast_timers (toast_run (map ToastExpire expiries) s) = [].
Proof.
  destruct (drain_is_a_run (toast_work (toast_timers s)) s) as [expiries H].
  exists expiries. rewrite <- H. apply settle_empties_toasts.
Qed.

Lemma on_its_way_hide n m s : on_its_way n s -> on_its_way n (Notifications.hide (Some m) s).
Proof.
  intros [Hm Hw]. split.
  - apply made_duration with s; [apply hide_duration|exact Hm].
  - rewrite hide_getAll. intros Hin. specialize (Hw Hin). unfold will_go in *.
    rewrite hide_timers, !in_app_iff. tauto.
Qed.

Lemma on_its_way_step n ev s : on_its_way n s -> on_its_way n (toast_step s ev).
Proof.
  intros H. destruct ev as [message type duration|m| | |i]; cbn [toast_step].
  - destruct H as [Hm Hw]. split.
    + unfold made. rewrite show_other by exact Hm. exact Hm.
    + rewrite show_getAll. intros Hin. apply in_app_iff in Hin as [Hin|[Hin|[]]].
      * specialize (Hw Hin). unfold will_go in *. rewrite show_timers, !in_app_iff. tauto.
      * exfalso. rewrite <- Hin in Hm. now apply show_new in Hm.
  - now apply on_its_way_hide.
  - apply hideAll_keeps; [intros m s'; apply on_its_way_hide|exact H].
  - destruct H as [Hm Hw]. split.
    + unfold made, Notifications.clear in *. now destruct (container s).
    + rewrite clear_getAll. intros [].
  - destruct H as [Hm Hw]. split.
    + apply made_duration with s; [apply expire_duration|exact Hm].
    + now apply expire_will_go.
Qed.

Lemma on_its_way_run n events s : on_its_way n s -> on_its_way n (toast_run events s).
Proof.
  apply run_keeps with (ok := fun _ => true).
  - intros ev s' _. apply on_its_way_step.
  - apply forallb_all.
Qed.

Lemma left_alone_step n ev s :
  leaves n ev = true -> left_alone n s -> left_alone n (toast_step s ev).
Proof.
  intros Hev (Hin & Hm & Ht).
  destruct ev as [message type duration|m| | |i]; cbn [toast_step leaves] in *;
    try discriminate.
  - repeat split.
    + rewrite show_getAll. apply in_app_iff. now left.
    + unfold made. rewrite show_other by exact Hm. exact Hm.
    + intros timer H. rewrite show_timers in H. apply in_app_iff in H as [H|H];
        [now apply Ht|].
      destruct (Qlt_le_dec 0 (default 5000%Q duration)); [|destruct H].
      destruct H as [<-|[]]. cbn [timer_toast]. intros Heq.
      rewrite <- Heq in Hm. now apply show_new in Hm.
  - apply negb_true_iff, Nat.eqb_neq in Hev. repeat split.
    + now rewrite hide_getAll.
    + apply made_duration with s; [apply hide_duration|exact Hm].
    + intros timer H. rewrite hide_timers in H. apply in_app_iff in H as [H|H];
        [now apply Ht|].
      destruct (Notifications.parentNode m s); [|destruct H].
      now destruct H as [<-|[]].
  - assert (Hgo : forall timer, In timer (toast_timers (Notifications.expire i s)) ->
                                timer_toast timer <> n).
    { intros timer H. apply expire_timers in H as [H|(m & -> & H)]; [now apply Ht|].
      cbn [timer_toast]. apply (Ht (AutoHide m)).
      apply list_elem_of_In. now apply list_elem_of_lookup_2 with i. }
    repeat split; [|apply made_duration with s; [apply expire_duration|exact Hm]|exact Hgo].
    unfold Notifications.expire.
    destruct (toast_timers s !! i) as [[m|m]|] eqn:Hi; [| |exact Hin].
    + rewrite hide_getAll. exact Hin.
    + rewrite removeToast_getAll. apply In_filter_other. split; [exact Hin|].
      intros ->. apply (Ht (RemoveToast m)); [|reflexivity].
      apply list_elem_of_In. now apply list_elem_of_lookup_2 with i.
Qed.

Lemma gone_step n ev s : gone n s -> gone n (toast_step s ev).
Proof.
  intros [Hm Hout].
  assert (Hhide : forall m s', gone n s' -> gone n (Notifications.hide (Some m) s')).
  { intros m s' [Hm' Hout']. split.
    - apply made_duration with s'; [apply hide_duration|exact Hm'].
    - now rewrite hide_getAll. }
  destruct ev as [message type duration|m| | |i]; cbn [toast_step].
  - split.
    + unfold made. rewrite show_other by exact Hm. exact Hm.
    + rewrite show_getAll. intros H. apply in_app_iff in H as [H|[H|[]]]; [tauto|].
      rewrite <- H in Hm. now apply show_new in Hm.
  - now apply Hhide.
  - apply hideAll_keeps; [exact Hhide|now split].
  - split.
    + unfold made, Notifications.clear in *. now destruct (container s).
    + rewrite clear_getAll. intros [].
  - split.
    + apply made_duration with s; [apply expire_duration|exact Hm].
    + intros H. now apply expire_getAll in H.
Qed.

Lemma hideAll_getAll s : Notifications.getAll (Notifications.hideAll s) = Notifications.getAll s.
Proof.
  apply (hideAll_keeps (fun s' => Notifications.getAll s' = Notifications.getAll s));
    [|reflexivity].
  intros n s' H. now rewrite hide_getAll.
Qed.

Lemma hide_each (l : list nat) :
  forall s n, In n l -> In n (Notifications.getAll s) ->
    In (RemoveToast n) (toast_timers (foldl (fun s n => Notifications.hide (Some n) s) s l)).
Proof.
  induction l as [|a l IH]; intros s n Hl Hin; [destruct Hl|].
  cbn [foldl]. destruct (in_dec Nat.eq_dec n l) as [Hn|Hn].
  - apply IH; [exact Hn|now rewrite hide_getAll].
  - destruct Hl as [->|Hl]; [|tauto].
    assert (Hnow : In (RemoveToast n) (toast_timers (Notifications.hide (Some n) s))).
    { rewrite hide_timers. apply parentNode_In in Hin. rewrite Hin.
      apply in_app_iff. right. now left. }
    clear IH Hn. revert Hnow. generalize (Notifications.hide (Some n) s).
    induction l as [|b l IH]; intros s' H; [exact H|].
    cbn [foldl]. apply IH. rewrite hide_timers. apply in_app_iff. now left.
Qed.

Lemma expiries_will_go n expiries :
  forall s, (In n (Notifications.getAll s) -> will_go n s) ->
    In n (Notifications.getAll (toast_run (map ToastExpire expiries) s)) ->
    will_go n (toast_run (map ToastExpire expiries) s).
Proof.
  unfold toast_run. induction expiries as [|i expiries IH]; intros s H; [exact H|].
  cbn [map foldl toast_step]. apply IH. now apply expire_will_go.
Qed.

(** A notification that was shown with a positive duration, or with
    none (5000 ms), goes away without a call: whatever was shown, hidden or
    cleared before, the pending timers can all expire, and in whatever order
    they do, once none is pending the only notifications on show are those
    shown with a duration that is not positive. *)
Theorem notifications_with_a_duration_dismiss_themselves (events : list ToastEvent) :
  let s := toast_run events no_toasts in
  (exists expiries, toast_timers (toast_run (map ToastExpire expiries) s) = []) /\
  (forall expiries,
     let s' := toast_run (map ToastExpire expiries) s in
     toast_timers s' = [] ->
     forall n, In n (Notifications.getAll s') -> persistent n s').
Proof.
  intros s. split; [apply settle_is_a_run|].
  intros expiries s' Hnone n Hin.
  assert (Hacc : accounted s').
  { unfold s', s. rewrite <- toast_run_app. apply accounted_run. }
  destruct Hacc as (Hi & _). destruct (Hi n Hin) as [Hp|Hw]; [exact Hp|].
  now apply nothing_pending in Hw.
Qed.

(** A notification shown with a duration that is not positive stays on
    show through any later calls of [show], calls of [hide] for other
    notifications and expired timers; once it is hidden it is off the page
    when no timer is pending any more, whatever happened in between. *)
Theorem persistent_notification_stays_until_hidden
    (events : list ToastEvent) (message : string) (type : option string) (d : Q)
    (later after : list ToastEvent) :
  (d <= 0)%Q ->
  let shown := Notifications.show message type (Some d) (toast_run events no_toasts) in
  let n := shown.2 in
  (forallb (leaves n) later = true ->
   In n (Notifications.getAll (toast_run later shown.1))) /\
  (let s2 := toast_run after (Notifications.hide (Some n) shown.1) in
   toast_timers s2 = [] -> ~ In n (Notifications.getAll s2)).
Proof.
  intros Hd shown n.
  pose proof (accounted_run events) as (_ & _ & Hiii).
  set (s0 := toast_run events no_toasts) in *.
  assert (Hin : In n (Notifications.getAll shown.1)).
  { unfold n, shown. rewrite show_getAll. apply in_app_iff. right. now left. }
  assert (Hm : made n shown.1).
  { unfold made, n, shown. rewrite show_toasts, lookup_insert_eq. eauto. }
  split.
  - intros Hlater.
    apply (run_keeps (left_alone n) (leaves n) (left_alone_step n) later shown.1 Hlater).
    repeat split; [exact Hin|exact Hm|].
    intros timer Ht. unfold shown in Ht. rewrite show_timers in Ht.
    cbn [default from_option] in Ht.
    destruct (Qlt_le_dec 0 (id d)) as [Hpos|_]; [unfold id in Hpos; lra|].
    rewrite app_nil_r in Ht. intros Heq. apply Hiii in Ht. rewrite Heq in Ht.
    now apply show_new in Ht.
  - intros s2 Hnone Hstill.
    assert (Hway : on_its_way n s2).
    { apply on_its_way_run.
      split; [apply made_duration with shown.1; [apply hide_duration|exact Hm]|].
      intros _.
      right. rewrite hide_timers. apply parentNode_In in Hin. rewrite Hin.
      apply in_app_iff. right. now left. }
    destruct Hway as [_ Hw]. now apply (nothing_pending n s2 Hnone), Hw.
Qed.

(** [hideAll] leaves every notification on show for the time of the
    slide-out, and takes every one of them off the page, the ones shown to
    stay too: the pending timers can all expire, and once none is pending
    the container is empty. *)
Theorem hideAll_empties_the_container_after_the_slide_out (s : Toasts) :
  let s1 := Notifications.hideAll s in
  Notifications.getAll s1 = Notifications.getAll s /\
  (exists expiries, toast_timers (toast_run (map ToastExpire expiries) s1) = []) /\
  (forall expiries,
     let s2 := toast_run (map ToastExpire expiries) s1 in
     toast_timers s2 = [] -> Notifications.getAll s2 = []).
Proof.
  intros s1. split; [apply hideAll_getAll|]. split; [apply settle_is_a_run|].
  intros expiries s2 Hnone.
  destruct (Notifications.getAll s2) as [|n rest] eqn:Hall; [reflexivity|].
  exfalso. apply (nothing_pending n s2 Hnone).
  apply expiries_will_go; [|unfold s2 in Hall; rewrite Hall; now left].
  intros Hin. right. unfold s1 in *. rewrite hideAll_getAll in Hin.
  assert (Hc : container s = Some (Notifications.getAll s)).
  { unfold Notifications.getAll in *. destruct (container s); [reflexivity|destruct Hin]. }
  unfold Notifications.hideAll. rewrite Hc. now apply hide_each.
Qed.

(** [clear] empties the container at once, and a notification that
    was on show before never comes back: not when its timers expire, and not
    when new notifications are shown. *)
Theorem clear_removes_for_good (events later : list ToastEvent) (n : nat) :
  let s := toast_run events no_toasts in
  In n (Notifications.getAll s) ->
  Notifications.getCount (Notifications.clear s) = 0%nat /\
  ~ In n (Notifications.getAll (toast_run later (Notifications.clear s))).
Proof.
  intros s Hin. split.
  - unfold Notifications.getCount. now rewrite clear_getAll.
  - pose proof (accounted_run events) as (_ & Hii & _). fold s in Hii.
    assert (Hgone : gone n (toast_run later (Notifications.clear s))).
    { apply run_keeps with (ok := fun _ => true).
      - intros ev s' _. apply gone_step.
      - apply forallb_all.
      - split.
        + specialize (Hii n Hin). unfold made, Notifications.clear in *.
          now destruct (container s).
        + rewrite clear_getAll. intros []. }
    now destruct Hgone.
Qed.

End Toasting.

Lemma persistent_notification_stays_until_hidden_witness :
  let shown := Notifications.show "You are offline" (Some "warning") (Some 0%Q)
                 (toast_run [ToastShow "Saved" None None] no_toasts) in
  In shown.2
    (Notifications.getAll
       (toast_run [ToastExpire 0; ToastShow "Sent" (Some "success") None;
                   ToastExpire 0; ToastHide 0]
          shown.1)) /\
  ~ In shown.2
      (Notifications.getAll
         (toast_run [ToastExpire 0; ToastExpire 0; ToastExpire 0]
            (Notifications.hide (Some shown.2) shown.1))).
Proof.
  destruct (persistent_notification_stays_until_hidden
              [ToastShow "Saved" None None] "You are offline" (Some "warning"%string) 0%Q
              [ToastExpire 0; ToastShow "Sent" (Some "success"%string) None;
               ToastExpire 0; ToastHide 0]
              [ToastExpire 0; ToastExpire 0; ToastExpire 0])
    as [Hstays Hgoes].
  - apply Qle_refl.
  - split.
    + apply Hstays. vm_compute. reflexivity.
    + apply Hgoes. vm_compute. reflexivity.
Defined.

Lemma clear_removes_for_good_witness :
  let s := toast_run [ToastShow "Saved" None None] no_toasts in
  Notifications.getAll s = [0%nat] /\
  Notifications.getCount (Notifications.clear s) = 0%nat /\
  ~ In 0%nat (Notifications.getAll
                (toast_run [ToastExpire 0; ToastShow "Sent" None None]
                   (Notifications.clear s))).
Proof.
  split; [vm_compute; reflexivity|].
  apply (clear_removes_for_good [ToastShow "Saved" None None]
           [ToastExpire 0; ToastShow "Sent" None None] 0%nat).
  vm_compute. left. reflexivity.
Defined.

(** ** Navbar *)

Section NavbarScroll.

Lemma current_snoc sections section y :
  Navbar.current (sections ++ [section]) y =
  if Navbar.reached y section then section_id section else Navbar.current sections y.
Proof. unfold Navbar.current. now rewrite foldl_app. Qed.

(** [current] is the id of the last section, in document order, that the
    scroll position has reached. *)
Lemma current_last_reached sections y :
  (Navbar.current sections y = ""%string /\
   Forall (fun section => (y < inject_Z (offsetTop section - 150))%Q) sections) \/
  (exists before section after,
     sections = before ++ section :: after /\
     (inject_Z (offsetTop section - 150) <= y)%Q /\
     Forall (fun section => (y < inject_Z (offsetTop section - 150))%Q) after /\
     Navbar.current sections y = section_id section).
Proof.
  induction sections as [|section sections IH] using rev_ind.
  - left. split; [reflexivity|constructor].
  - rewrite current_snoc. unfold Navbar.reached.
    destruct (Qle_bool (inject_Z (offsetTop section - 150)) y) eqn:Hr.
    + right. exists sections, section, []. apply Qle_bool_iff in Hr.
      repeat split; [exact Hr|constructor].
    + assert (Hlt : (y < inject_Z (offsetTop section - 150))%Q).
      { apply Qnot_le_lt. intros H. apply Qle_bool_iff in H. congruence. }
      destruct IH as [[Hc Hall]|(before & sec & after & -> & Hsec & Hall & Hc)].
      * left. split; [exact Hc|]. apply Forall_app. split; [exact Hall|].
        constructor; [exact Hlt|constructor].
      * right. exists before, sec, (after ++ [section]).
        rewrite <- app_assoc. repeat split; [exact Hsec| |exact Hc].
        apply Forall_app. split; [exact Hall|]. constructor; [exact Hlt|constructor].
Qed.

Lemma in_added (x c : string) (X : gset string) : x ∈ {[c]} ∪ X <-> x = c \/ x ∈ X.
Proof. now rewrite elem_of_union, elem_of_singleton. Qed.

Lemma in_removed (x c : string) (X : gset string) : x ∈ X ∖ {[c]} <-> x ∈ X /\ x <> c.
Proof. now rewrite elem_of_difference, elem_of_singleton. Qed.

Lemma added_again (c : string) (X : gset string) : {[c]} ∪ ({[c]} ∪ X) = {[c]} ∪ X.
Proof. apply set_eq. intros x. rewrite !in_added. tauto. Qed.

Lemma removed_again (c : string) (X : gset string) : X ∖ {[c]} ∖ {[c]} = X ∖ {[c]}.
Proof. apply set_eq. intros x. rewrite !in_removed. tauto. Qed.

Lemma added_removed (c : string) (X : gset string) :
  {[c]} ∪ (({[c]} ∪ X ∖ {[c]}) ∖ {[c]}) = {[c]} ∪ X ∖ {[c]}.
Proof. apply set_eq. intros x. rewrite !in_added, !in_removed, !in_added, !in_removed. tauto. Qed.

Lemma highlight_href c link : href (Navbar.highlight c link) = href link.
Proof. unfold Navbar.highlight. cbn. now destruct (bool_decide _). Qed.

Lemma highlight_active c link :
  "active"%string ∈ link_classList (Navbar.highlight c link) <->
  href link = Some ("#" ++ c)%string.
Proof.
  unfold Navbar.highlight. cbn [href set_link_classList link_classList].
  destruct (bool_decide (href link = Some ("#" ++ c)%string)) eqn:Hb;
    cbn [link_classList set_link_classList].
  - apply bool_decide_eq_true in Hb. rewrite in_added. tauto.
  - apply bool_decide_eq_false in Hb. rewrite in_removed. tauto.
Qed.

Lemma highlight_others c link x :
  x <> "active"%string ->
  x ∈ link_classList (Navbar.highlight c link) <-> x ∈ link_classList link.
Proof.
  intros Hx. unfold Navbar.highlight. cbn [href set_link_classList link_classList].
  destruct (bool_decide _); cbn [link_classList set_link_classList];
    rewrite ?in_added, in_removed; tauto.
Qed.

Lemma highlight_again c link :
  Navbar.highlight c (Navbar.highlight c link) = Navbar.highlight c link.
Proof.
  destruct link as [target cl]. unfold Navbar.highlight.
  cbn [href set_link_classList link_classList].
  destruct (bool_decide (target = Some ("#" ++ c)%string)) eqn:Hb;
    cbn [href set_link_classList link_classList]; rewrite Hb;
    unfold set_link_classList; cbn [href link_classList]; f_equal.
  - apply added_removed.
  - apply removed_again.
Qed.

(** [Navbar.handleScroll] never throws; with [Navbar.element] set, the
    header has the class [scrolled] exactly when the page is scrolled by more
    than 50, and a nav link is [active] exactly when its href is [#] followed
    by the id of the last section, in document order, whose top is at most
    150 below the scroll position, whichever links were active before; when
    no section is reached, these are the links whose href is [#]. All other
    classes stay, and a second call changes nothing. *)
Theorem nav_highlight_follows_the_scroll_position (h : Header) (classList : gset string) :
  header_classList h = Some classList ->
  let current := Navbar.current (page_sections h) (scrollY h) in
  exists h' classList',
    Navbar.handleScroll h = Some h' /\
    header_classList h' = Some classList' /\
    ("scrolled"%string ∈ classList' <-> (50 < scrollY h)%Q) /\
    (forall c, c <> "scrolled"%string -> c ∈ classList' <-> c ∈ classList) /\
    Forall2 (fun link link' =>
               href link' = href link /\
               ("active"%string ∈ link_classList link' <->
                href link = Some ("#" ++ current)%string) /\
               (forall c, c <> "active"%string ->
                          c ∈ link_classList link' <-> c ∈ link_classList link))
      (navLinks h) (navLinks h') /\
    ((current = ""%string /\
      Forall (fun section => (scrollY h < inject_Z (offsetTop section - 150))%Q)
        (page_sections h)) \/
     (exists before section after,
        page_sections h = before ++ section :: after /\
        (inject_Z (offsetTop section - 150) <= scrollY h)%Q /\
        Forall (fun section => (scrollY h < inject_Z (offsetTop section - 150))%Q) after /\
        current = section_id section)) /\
    Navbar.handleScroll h' = Some h'.
Proof.
  intros Hel current.
  destruct h as [el links sections y]. cbn [header_classList page_sections scrollY] in *.
  subst el. unfold Navbar.handleScroll, Navbar.updateActiveLinks.
  cbn [header_classList page_sections scrollY navLinks].
  assert (Hlinks : Forall2 (fun link link' =>
               href link' = href link /\
               ("active"%string ∈ link_classList link' <->
                href link = Some ("#" ++ current)%string) /\
               (forall c, c <> "active"%string ->
                          c ∈ link_classList link' <-> c ∈ link_classList link))
            links (map (Navbar.highlight current) links)).
  { induction links as [|link links IH]; constructor; [|exact IH].
    split; [apply highlight_href|]. split; [apply highlight_active|].
    intros c Hc. now apply highlight_others. }
  assert (Hagain : map (Navbar.highlight current) (map (Navbar.highlight current) links) =
                   map (Navbar.highlight current) links).
  { rewrite map_map. apply map_ext. intros link. apply highlight_again. }
  pose proof (current_last_reached sections y) as Hcur. fold current in Hcur.
  destruct (Qlt_le_dec 50 y) as [Hy|Hy] eqn:Hdec;
    cbn [header_classList page_sections scrollY navLinks Navbar.set_header_classList
         Navbar.set_navLinks];
    eexists _, _; (split; [reflexivity|]); (split; [reflexivity|]);
    cbn [header_classList page_sections scrollY navLinks Navbar.set_header_classList
         Navbar.set_navLinks]; rewrite Hdec;
    cbn [header_classList page_sections scrollY navLinks Navbar.set_header_classList
         Navbar.set_navLinks]; fold current; rewrite Hagain.
  - split; [rewrite in_added; tauto|].
    split; [intros c Hc; rewrite in_added; tauto|].
    split; [exact Hlinks|]. split; [exact Hcur|].
    now rewrite added_again.
  - split; [rewrite in_removed; split; [intros [_ H]; now destruct H|
                                        intros H; exfalso; revert H; now apply Qle_not_lt]|].
    split; [intros c Hc; rewrite in_removed; tauto|].
    split; [exact Hlinks|]. split; [exact Hcur|].
    now rewrite removed_again.
Qed.

End NavbarScroll.

Lemma nav_highlight_follows_the_scroll_position_witness :
  let h := {| header_classList := Some {["main-header"%string]};
              navLinks := [ {| href := Some "#"%string;
                               link_classList := {["nav-link"%string]} |};
                            {| href := Some "#about"%string;
                               link_classList := {["nav-link"%string; "active"%string]} |};
                            {| href := Some "#courses"%string;
                               link_classList := {["nav-link"%string]} |} ];
              page_sections := [ {| section_id := "about"; offsetTop := 600 |};
                                 {| section_id := "courses"; offsetTop := 1400 |};
                                 {| section_id := "contact"; offsetTop := 2200 |} ];
              scrollY := 1300%Q |} in
  Navbar.current (page_sections h) (scrollY h) = "courses"%string /\
  exists h', Navbar.handleScroll h = Some h' /\
             Forall2 (fun link link' =>
                        "active"%string ∈ link_classList link' <->
                        href link = Some "#courses"%string)
               (navLinks h) (navLinks h').
Proof.
  intros h. split; [reflexivity|].
  destruct (nav_highlight_follows_the_scroll_position h {["main-header"%string]} eq_refl)
    as (h' & cl & Hrun & _ & _ & _ & Hlinks & _).
  exists h'. split; [exact Hrun|].
  eapply Forall2_impl; [exact Hlinks|]. intros link link' (_ & Hactive & _). exact Hactive.
Defined.

(** ** The device type, phone numbers and capitals (js/core/config.js) *)

Section Words.

Lemma search_ci_unfold word s :
  Js.search_ci word s =
  match Js.match_ci word s with
  | Some _ => true
  | None => match s with
            | EmptyString => false
            | String _ s' => Js.search_ci word s'
            end
  end.
Proof. now destruct s. Qed.

Lemma android_not_mobile_unfold s :
  Helpers.android_not_mobile s =
  match
    match Js.match_ci "Android" s with
    | Some rest => negb (Js.search_ci "Mobile" (Js.first_line rest))
    | None => false
    end
  with
  | true => true
  | false => match s with
             | EmptyString => false
             | String _ s' => Helpers.android_not_mobile s'
             end
  end.
Proof. now destruct s. Qed.

(** The alternative [Android(?!.*Mobile)] of [isTablet] only matches where
    the alternative [Android] of [isMobile] does. *)
Lemma android_not_mobile_android s :
  Helpers.android_not_mobile s = true -> Js.search_ci "Android" s = true.
Proof.
  induction s as [|c s IH]; rewrite android_not_mobile_unfold, search_ci_unfold.
  - discriminate.
  - destruct (Js.match_ci "Android" (String c s)) as [rest|]; [reflexivity|exact IH].
Qed.

(** [Helpers.getDeviceType] answers [tablet] only for a user agent that
    has the word Tablet and none of the words of [isMobile]; the alternatives
    [iPad] and [Android(?!.*Mobile)] of [isTablet] never decide, because a user
    agent with iPad or Android in it, in any case of the letters, is [mobile]. *)
Theorem tablet_only_by_the_word_tablet (userAgent : string) :
  let type := Helpers.getDeviceType userAgent in
  (type = "mobile" \/ type = "tablet" \/ type = "desktop")%string /\
  (type = "tablet"%string <->
   Helpers.isMobile userAgent = false /\ Js.search_ci "Tablet" userAgent = true) /\
  (Js.search_ci "iPad" userAgent = true \/ Js.search_ci "Android" userAgent = true ->
   type = "mobile"%string) /\
  (Helpers.isTablet userAgent = true -> Js.search_ci "Tablet" userAgent = false ->
   type = "mobile"%string) /\
  (type = "desktop"%string <-> Helpers.isDesktop userAgent = true).
Proof.
  intros type. unfold type, Helpers.getDeviceType, Helpers.isDesktop, Helpers.isTablet.
  pose proof (android_not_mobile_android userAgent) as Hanm.
  assert (Hmobile : Helpers.isMobile userAgent = false ->
                    Js.search_ci "iPad" userAgent = false /\
                    Js.search_ci "Android" userAgent = false).
  { unfold Helpers.isMobile. cbn [existsb]. intros H.
    repeat (apply orb_false_iff in H; destruct H as [? H]). now split. }
  revert Hanm Hmobile.
  generalize (Helpers.isMobile userAgent) (Helpers.android_not_mobile userAgent)
    (Js.search_ci "iPad" userAgent) (Js.search_ci "Android" userAgent)
    (Js.search_ci "Tablet" userAgent).
  intros [] [] [] [] [] Hanm Hmobile; cbn [orb andb negb];
    try (destruct (Hmobile eq_refl); discriminate);
    try (specialize (Hanm eq_refl); discriminate);
    repeat split; intros; try discriminate; try tauto;
    try (now left); try (right; now left); try (right; now right);
    try match goal with H : _ /\ _ |- _ => destruct H; discriminate end;
    try match goal with H : _ \/ _ |- _ => destruct H; discriminate end.
Qed.

(** *** [formatPhone] *)

Lemma formatPhone_unfold phone :
  Helpers.formatPhone phone =
  match Js.take_digits 2 phone with
  | Some (g1, rest1) =>
      match Js.take_digits 4 rest1 with
      | Some (g2, rest2) =>
          match Js.take_digits 4 rest2 with
          | Some (g3, rest) => (g1 ++ " " ++ g2 ++ " " ++ g3 ++ rest)%string
          | None => match phone with
                    | EmptyString => EmptyString
                    | String c phone' => String c (Helpers.formatPhone phone')
                    end
          end
      | None => match phone with
                | EmptyString => EmptyString
                | String c phone' => String c (Helpers.formatPhone phone')
                end
      end
  | None => match phone with
            | EmptyString => EmptyString
            | String c phone' => String c (Helpers.formatPhone phone')
            end
  end.
Proof. now destruct phone. Qed.

Lemma all_digits_app a b : all_digits (a ++ b) = all_digits a && all_digits b.
Proof.
  induction a as [|x a IH]; [reflexivity|].
  rewrite append_cons. cbn [all_digits]. rewrite IH. now rewrite andb_assoc.
Qed.

Lemma take_digits_all n :
  forall digits rest, all_digits digits = true -> String.length digits = n ->
    Js.take_digits n (digits ++ rest) = Some (digits, rest).
Proof.
  induction n as [|n IH]; intros [|c digits] rest Hd Hn; try discriminate; [reflexivity|].
  cbn [all_digits String.length] in Hd, Hn.
  apply andb_true_iff in Hd as [Hc Hd]. injection Hn as Hn.
  rewrite append_cons. cbn [Js.take_digits]. rewrite Hc, (IH digits rest Hd Hn). reflexivity.
Qed.

Lemma take_digits_add n m s :
  Js.take_digits (n + m) s =
  match Js.take_digits n s with
  | Some (d1, r) => match Js.take_digits m r with
                    | Some (d2, r') => Some ((d1 ++ d2)%string, r')
                    | None => None
                    end
  | None => None
  end.
Proof.
  revert s. induction n as [|n IH]; intros s.
  - cbn. now destruct (Js.take_digits m s) as [[d2 r']|].
  - cbn. destruct s as [|c s]; [reflexivity|].
    destruct (Js.is_digit c); [|reflexivity]. rewrite IH.
    destruct (Js.take_digits n s) as [[d1 r]|]; [|reflexivity].
    now destruct (Js.take_digits m r) as [[d2 r']|].
Qed.

Lemma formatPhone_skip s :
  Js.take_digits 10 s = None ->
  Helpers.formatPhone s = match s with
                          | EmptyString => EmptyString
                          | String c s' => String c (Helpers.formatPhone s')
                          end.
Proof.
  intros Hnone. rewrite formatPhone_unfold.
  change 10%nat with (2 + (4 + 4))%nat in Hnone. rewrite take_digits_add in Hnone.
  destruct (Js.take_digits 2 s) as [[g1 rest1]|]; [|reflexivity].
  rewrite take_digits_add in Hnone.
  destruct (Js.take_digits 4 rest1) as [[g2 rest2]|]; [|reflexivity].
  destruct (Js.take_digits 4 rest2) as [[g3 rest]|]; [discriminate|reflexivity].
Qed.

(** Digits that start in [p] and run into what follows [p] are cut short by
    the last character of [p]. *)
Lemma take_digits_crossing p :
  forall n r, p <> EmptyString -> ends_without_digit p = true ->
    Js.take_digits n p = None -> Js.take_digits n (p ++ r) = None.
Proof.
  induction p as [|c p IH]; intros n r Hne Hend Hnone; [congruence|].
  destruct n as [|n]; [discriminate|]. rewrite append_cons.
  cbn [Js.take_digits] in *.
  destruct (Js.is_digit c) eqn:Hc; [|reflexivity].
  destruct p as [|c' p]; [cbn in Hend; rewrite Hc in Hend; discriminate|].
  rewrite IH; [reflexivity|discriminate|exact Hend|].
  now destruct (Js.take_digits n (String c' p)) as [[? ?]|].
Qed.

Lemma ends_without_digit_tail c p :
  ends_without_digit (String c p) = true -> ends_without_digit p = true.
Proof. destruct p; [reflexivity|trivial]. Qed.

Lemma no_ten_digits_unfold s :
  no_ten_digits s = match Js.take_digits 10 s with
                    | Some _ => false
                    | None => match s with
                              | EmptyString => true
                              | String _ s' => no_ten_digits s'
                              end
                    end.
Proof. now destruct s. Qed.

Lemma formatPhone_unchanged s : no_ten_digits s = true -> Helpers.formatPhone s = s.
Proof.
  induction s as [|c s IH]; rewrite no_ten_digits_unfold; intros H.
  - reflexivity.
  - destruct (Js.take_digits 10 (String c s)) eqn:Ht; [discriminate|].
    rewrite (formatPhone_skip _ Ht). now rewrite IH.
Qed.

(** [Helpers.formatPhone] puts a space after the second and after the
    sixth of the first ten digits in a row, wherever they are in the string:
    what comes before them (with fewer than ten digits in a row, and not
    ending in a digit) and what comes after them, further digits too, is
    kept as it is; a string without ten digits in a row is returned as it
    is. *)
Theorem formatPhone_groups_the_first_ten_digits (before g1 g2 g3 after : string) :
  no_ten_digits before = true ->
  ends_without_digit before = true ->
  String.length g1 = 2%nat -> String.length g2 = 4%nat -> String.length g3 = 4%nat ->
  all_digits (g1 ++ g2 ++ g3) = true ->
  Helpers.formatPhone (before ++ g1 ++ g2 ++ g3 ++ after) =
    (before ++ g1 ++ " " ++ g2 ++ " " ++ g3 ++ after)%string /\
  Helpers.formatPhone before = before.
Proof.
  intros Hno Hend H1 H2 H3 Hd. split; [|now apply formatPhone_unchanged].
  rewrite !all_digits_app in Hd.
  apply andb_true_iff in Hd as [Hd1 Hd]. apply andb_true_iff in Hd as [Hd2 Hd3].
  induction before as [|c before IH].
  - change (Helpers.formatPhone (g1 ++ g2 ++ g3 ++ after) =
            (g1 ++ " " ++ g2 ++ " " ++ g3 ++ after)%string).
    rewrite formatPhone_unfold.
    rewrite (take_digits_all 2 g1 _ Hd1 H1), (take_digits_all 4 g2 _ Hd2 H2),
      (take_digits_all 4 g3 _ Hd3 H3). reflexivity.
  - rewrite no_ten_digits_unfold in Hno.
    destruct (Js.take_digits 10 (String c before)) eqn:Ht; [discriminate|].
    rewrite formatPhone_skip
      by (apply take_digits_crossing; [discriminate|exact Hend|exact Ht]).
    rewrite !append_cons. f_equal.
    apply IH; [exact Hno|now apply ends_without_digit_tail with c].
Qed.

(** *** [capitalize] *)

Lemma is_word_to_upper c : Js.is_word (Js.to_upper c) = Js.is_word c.
Proof. destruct c as [[] [] [] [] [] [] [] []]; reflexivity. Qed.

Lemma to_upper_again c : Js.to_upper (Js.to_upper c) = Js.to_upper c.
Proof. destruct c as [[] [] [] [] [] [] [] []]; reflexivity. Qed.

Lemma capitalize_from_again w s :
  Helpers.capitalize_from w (Helpers.capitalize_from w s) = Helpers.capitalize_from w s.
Proof.
  revert w. induction s as [|c s IH]; intros w; [reflexivity|].
  cbn [Helpers.capitalize_from].
  destruct (Js.is_word c && negb w) eqn:Hc.
  - rewrite is_word_to_upper, Hc, to_upper_again, IH. reflexivity.
  - rewrite Hc, IH. reflexivity.
Qed.

Lemma capitalize_from_length w s :
  String.length (Helpers.capitalize_from w s) = String.length s.
Proof.
  revert w. induction s as [|c s IH]; intros w; [reflexivity|].
  cbn [Helpers.capitalize_from String.length]. now rewrite IH.
Qed.

Lemma capitalize_from_app w a sep b :
  Js.is_word sep = false ->
  Helpers.capitalize_from w (a ++ String sep b) =
  (Helpers.capitalize_from w a ++ String sep (Helpers.capitalize_from false b))%string.
Proof.
  intros Hsep. revert w. induction a as [|c a IH]; intros w.
  - change (Helpers.capitalize_from w (String sep b) =
            String sep (Helpers.capitalize_from false b)).
    cbn [Helpers.capitalize_from]. now rewrite Hsep.
  - rewrite append_cons. cbn [Helpers.capitalize_from]. rewrite IH. apply append_cons.
Qed.

(** [Helpers.capitalize] works word by word, a word being a run of
    ASCII letters, digits and underscores: around any other character, an
    apostrophe or a letter with an accent too, the two sides are capitalized
    on their own. It keeps the length, and applying it twice is applying it
    once. *)
Theorem capitalize_works_word_by_word (a b : string) (sep : ascii) :
  Js.is_word sep = false ->
  Helpers.capitalize (a ++ String sep b) =
    (Helpers.capitalize a ++ String sep (Helpers.capitalize b))%string /\
  Helpers.capitalize (Helpers.capitalize (a ++ String sep b)) =
    Helpers.capitalize (a ++ String sep b) /\
  String.length (Helpers.capitalize (a ++ String sep b)) =
    String.length (a ++ String sep b).
Proof.
  intros Hsep. unfold Helpers.capitalize. split; [now apply capitalize_from_app|].
  split; [apply capitalize_from_again|apply capitalize_from_length].
Qed.

End Words.

Lemma formatPhone_groups_the_first_ten_digits_witness :
  Helpers.formatPhone "Call +91 (0)9876543210123 now" =
    "Call +91 (0)98 7654 3210123 now"%string.
Proof.
  exact (proj1 (formatPhone_groups_the_first_ten_digits
                  "Call +91 (0)" "98" "7654" "3210" "123 now"
                  eq_refl eq_refl eq_refl eq_refl eq_refl eq_refl)).
Defined.

Lemma capitalize_works_word_by_word_witness :
  Helpers.capitalize "don't stop_me NOW" = "Don'T Stop_me NOW"%string.
Proof.
  exact (proj1 (capitalize_works_word_by_word "don" "t stop_me NOW" "'"%char eq_refl)).
Defined.
